(** * bdenc: in-place, resumable AES-256-CBC transform of a block device

    A shallow embedding of [src/main.cpp] and the properties of its chunk
    loop: round trip, sparse chunks, ordering of the durable writes,
    resumption after a kill, and the start-up checks.

    The program is one [main] function; its local variables become the
    [Locals] record, the device and the working directory become the
    [State], and every I/O call is logged in a trace of [Event]s so that
    the order of the writes can be stated.  The block cipher behind
    OpenSSL's [EVP_aes_256_cbc] is a parameter of the development. *)

From Stdlib Require Import ZArith Lia Bool.
From stdpp Require Import base tactics option list list_numbers gmap strings pretty.

Local Open Scope Z_scope.

(** ** Bytes and big-endian 64-bit integers *)

(** A byte is a [Z]; file contents are lists of bytes. *)
Abbreviation bytes := (list Z).

Definition two64 : Z := 2 ^ 64.

(** [NAC::hton] on a [uint64_t], followed by the copy of its eight bytes
    to a file: most significant byte first. *)
Definition hton (v : Z) : bytes :=
  (fun i => Z.land (Z.shiftr v (8 * i)) 255) <$> [7; 6; 5; 4; 3; 2; 1; 0].

(** [memcpy] of eight bytes into a [uint64_t] followed by [NAC::ntoh]. *)
Definition ntoh (b : bytes) : Z :=
  fold_left (fun acc x => Z.shiftl acc 8 + x) b 0.

(** [dev.Write(offset, size, data)] and [offsetFile.Write(0, ...)]:
    overwrite in place. *)
Definition splice (off : nat) (data old : bytes) : bytes :=
  take off old ++ data ++ drop (off + length data) old.

(** ** Modes *)

Inductive TMode := MODE_ENCRYPT | MODE_DECRYPT | MODE_DEFAULT.

Global Instance TMode_eq_dec : EqDecision TMode.
Proof. solve_decision. Defined.

Definition is_enc (m : TMode) : bool :=
  match m with MODE_ENCRYPT => true | _ => false end.

Definition is_dec (m : TMode) : bool :=
  match m with MODE_DECRYPT => true | _ => false end.

Definition modeName (m : TMode) : string := if is_enc m then "enc" else "dec".
Definition inverseModeName (m : TMode) : string := if is_enc m then "dec" else "enc".

Definition blockSize : Z := 16.
Definition keySize : Z := 32.

(** Names of the files of the working directory (relative to [wd]).  A
    message that names a file gives this name, where the program prints
    it behind the path of the working directory. *)
Definition ivPath : string := ".iv".
Definition keyPath : string := ".key".
Definition offsetPath (m : TMode) : string := modeName m +:+ "_offset".
Definition sparsePath (m : TMode) : string :=
  (if is_enc m then modeName m else inverseModeName m) +:+ "_sparse".
Definition tmpPath (m : TMode) (offset : Z) : string :=
  modeName m +:+ "_chunk-" +:+ pretty offset.
Definition finalPath (m : TMode) (offset : Z) : string :=
  tmpPath m offset +:+ ".final".

(** ** Events, state and the monad of [main] *)

Inductive Target := TDev | TFile (path : string).

Inductive Event :=
| EvCreate (path : string)
| EvAppend (path : string) (data : bytes)
| EvWrite (t : Target) (off : Z) (data : bytes)
| EvFSync (t : Target)
| EvUnlink (path : string)
| EvCipherInit
| EvCipherUpdate (off : Z)
| EvCipherFinal
| EvPrint (msg : string).

(** The device, the working directory, the log of what the process did,
    and the number of operations left before the process is killed
    ([None]: it is never killed). *)
Record State := mkState {
  dev : bytes;
  wd : gmap string bytes;
  trace : list Event;
  crash : option nat
}.

Inductive Outcome :=
| Exit (code : Z)      (* [return code] from [main] *)
| Killed               (* the process was killed *)
| Trap                 (* integer division by zero *)
| OutOfFuel.           (* the model's loop bound was too small *)

Inductive Res (A : Type) :=
| Ret (a : A) (s : State)
| Stop (o : Outcome) (s : State).
Arguments Ret {A} a s.
Arguments Stop {A} o s.

Definition M (A : Type) : Type := State -> Res A.

Definition ret {A} (a : A) : M A := fun s => Ret a s.

Definition bind {A B} (m : M A) (f : A -> M B) : M B :=
  fun s => match m s with
           | Ret a s' => f a s'
           | Stop o s' => Stop o s'
           end.

Notation "x <- m ;; k" := (bind m (fun x => k))
  (at level 100, m at next level, right associativity).
Notation "m ;; k" := (bind m (fun _ => k))
  (at level 100, right associativity).

Definition stop {A} (o : Outcome) : M A := fun s => Stop o s.
Definition get : M State := fun s => Ret s s.

Definition set_dev (f : bytes -> bytes) (s : State) : State :=
  mkState (f (dev s)) (wd s) (trace s) (crash s).
Definition set_wd (f : gmap string bytes -> gmap string bytes) (s : State) : State :=
  mkState (dev s) (f (wd s)) (trace s) (crash s).

(** The state after one operation [e] with effect [upd], the process
    having [c] operations left. *)
Definition after (e : Event) (upd : State -> State) (c : option nat) (s : State)
  : State :=
  mkState (dev (upd s)) (wd (upd s)) (trace (upd s) ++ [e]) c.

(** One operation of the process: it is not performed when the process
    has been killed, otherwise it is logged and takes effect. *)
Definition tick (e : Event) (upd : State -> State) : M unit :=
  fun s => match crash s with
           | Some O => Stop Killed s
           | Some (S n) => Ret tt (after e upd (Some n) s)
           | None => Ret tt (after e upd None s)
           end.

Definition print (msg : string) : M unit := tick (EvPrint msg) id.

(** [return code;] *)
Definition exit {A} (code : Z) : M A := stop (Exit code).

(** ** Files of the working directory *)

Definition exists_ (path : string) : M bool :=
  s <- get ;; ret (bool_decide (is_Some (wd s !! path))).

Definition CreateFile (path : string) (data : bytes) : M unit :=
  tick (EvCreate path) (set_wd (insert path [])) ;;
  tick (EvAppend path data) (set_wd (alter (fun old => old ++ data) path)) ;;
  tick (EvFSync (TFile path)) id.

Definition unlink (path : string) : M unit :=
  s <- get ;;
  tick (EvUnlink path) (set_wd (delete path)) ;;
  if bool_decide (is_Some (wd s !! path)) then ret tt else print "unlink".

(** ** The cipher *)

Record CipherCtx := mkCtx {
  ckey : bytes;    (* the key *)
  chain : bytes;   (* the CBC chaining block: the iv, then the last ciphertext block *)
  cbuf : bytes     (* input of an incomplete block, kept for the next call *)
}.

Definition xor_block (a b : bytes) : bytes := zip_with Z.lxor a b.

(** The sixteen bytes of the buffer that receives one block from the
    cipher. *)
Definition block16 (l : bytes) : bytes := (fun i => nth i l 0) <$> seq 0 16.

(** ** A sample cipher

    A permutation of the 16-byte blocks with its inverse, and a sample
    generator, to run the program on concrete inputs. *)
Definition toyE (k b : bytes) : bytes := (fun x => Z.lxor x 165) <$> reverse b.
Definition toyD (k b : bytes) : bytes := reverse ((fun x => Z.lxor x 165) <$> b).
Definition toy_rnd (n : nat) : Z := Z.of_nat n.

(** A sample reading of the number after [-s]: it knows "16" and leaves
    the chunk size as it is otherwise. *)
Definition toy_FromString (txt : string) (cur : Z) : Z :=
  if bool_decide (txt = "16") then 16 else cur.

Section Bdenc.

(** The block cipher (AES-256 in the program): encryption and decryption
    of one 16-byte block under a key. *)
Variable E : bytes -> bytes -> bytes.
Variable D : bytes -> bytes -> bytes.

(** The bytes drawn from [std::mt19937] by [CreateRandomFile], in order. *)
Variable rnd : nat -> Z.

(** [NAC::TFile] belongs to the library ac-common and is not part of the
    repository.  Whether opening an empty file read-only gives a usable
    object is left open (the test at line 283 of [main.cpp] allows for a
    failure); every other open of an existing file succeeds and I/O does
    not fail. *)
Variable open_empty_ok : bool.

Fixpoint cbc_encrypt (n : nat) (k c data : bytes) : bytes * bytes :=
  match n with
  | O => ([], c)
  | S n' =>
      let x := block16 (E k (xor_block (take 16 data) c)) in
      let '(out, c') := cbc_encrypt n' k x (drop 16 data) in
      (x ++ out, c')
  end.

Fixpoint cbc_decrypt (n : nat) (k c data : bytes) : bytes * bytes :=
  match n with
  | O => ([], c)
  | S n' =>
      let b := take 16 data in
      let p := xor_block (block16 (D k b)) c in
      let '(out, c') := cbc_decrypt n' k b (drop 16 data) in
      (p ++ out, c')
  end.

(** [EVP_EncryptInit_ex] / [EVP_DecryptInit_ex] with [EVP_aes_256_cbc]. *)
Definition EVPInitWrapper (mode : TMode) (key iv : bytes) : CipherCtx :=
  mkCtx key iv [].

(** [EVP_EncryptUpdate] / [EVP_DecryptUpdate] with padding disabled, on
    an input of [inl >= 0] bytes: every complete block is processed, the
    rest is kept. *)
Definition EVP_Update (mode : TMode) (ctx : CipherCtx) (input : bytes)
  : CipherCtx * bytes :=
  let data := cbuf ctx ++ input in
  let n := (length data / 16)%nat in
  let '(out, c') :=
    (if is_enc mode then cbc_encrypt else cbc_decrypt) n (ckey ctx) (chain ctx) data in
  (mkCtx (ckey ctx) c' (drop (16 * n) data), out).

(** The conversion of a [size_t] to [int]: the low 32 bits, read as a
    signed number. *)
Definition to_int (n : Z) : Z := (n + 2 ^ 31) mod 2 ^ 32 - 2 ^ 31.

(** [EVPUpdateWrapper(mode, ctx, out, &len, in, inl)]: the length, a
    [size_t] at the call of line 368, becomes the parameter [int inl] of
    [EVP_EncryptUpdate] / [EVP_DecryptUpdate].  A negative [inl] makes
    the call fail ([None]); otherwise the first [inl] bytes are
    processed. *)
Definition EVPUpdateWrapper (mode : TMode) (ctx : CipherCtx) (input : bytes)
  : option (CipherCtx * bytes) :=
  let inl := to_int (Z.of_nat (length input)) in
  if bool_decide (inl < 0) then None
  else Some (EVP_Update mode ctx (take (Z.to_nat inl) input)).

(** [EVP_EncryptFinal_ex] / [EVP_DecryptFinal_ex] with padding disabled:
    no output; an error when an incomplete block is left. *)
Definition EVPFinalWrapper (mode : TMode) (ctx : CipherCtx) : option bytes :=
  match cbuf ctx with [] => Some [] | _ => None end.

(** ** [main] *)

Record Args := mkArgs {
  mode : TMode;
  dryRun : bool;
  chunkSize : Z
}.

(** The local variables of [main] that change in the chunk loop. *)
Record Locals := mkLocals {
  offset : Z;            (* [uint64_t offset] *)
  sparseOffset : nat;    (* [size_t sparseOffset] *)
  ctx : CipherCtx;       (* [EVP_CIPHER_CTX* ctx] *)
  pos : nat              (* position of the iterator [chunks] *)
}.

Definition CreateRandomFile (g : nat) (size : nat) (path : string) : M nat :=
  CreateFile path (rnd <$> seq g size) ;; ret (g + size)%nat.

(** [dev.Chunks(chunkSize)] with [Seek] and [Next], also of ac-common: a
    positional read of one whole chunk. *)
Definition Next (d : bytes) (p : nat) (cs : nat) : option bytes :=
  if bool_decide (p + cs <= length d)%nat then Some (take cs (drop p d)) else None.

(** The scan of the sparse file on decrypt (lines 336 to 349).  The
    [memcpy] of line 339 reads 8 bytes at the cursor whenever the cursor
    is inside the file: when fewer than 8 bytes are left there it reads
    past the end of the mapping, which is undefined ([None]). *)
Fixpoint sparse_scan (fuel : nat) (data : bytes) (so : nat) (offset : Z)
  : option (bool * nat) :=
  match fuel with
  | O => Some (false, so)
  | S f =>
      if bool_decide (so < length data)%nat then
        if bool_decide (so + 8 <= length data)%nat then
          let tmp := ntoh (take 8 (drop so data)) in
          if bool_decide (tmp < offset) then sparse_scan f data (so + 8)%nat offset
          else Some (bool_decide (tmp = offset), so)
        else None
      else Some (false, so)
  end.

(** Lines 332 to 350: is the chunk sparse?  On encrypt it is compared
    with zeros; on decrypt the sparse file [sp] is scanned from the cursor
    [sparseOffset], when [sparseFile] is usable.  The result is
    [allZeroes] and the new cursor, or [None] when the scan reads past
    the end of the sparse file. *)
Definition is_sparse (m : TMode) (sparse_ok : bool) (sp : bytes) (l : Locals)
  (chunk : bytes) : option (bool * nat) :=
  if is_enc m then
    Some (bool_decide (chunk = replicate (length chunk) 0), sparseOffset l)
  else if sparse_ok then
    sparse_scan (S (length sp)) sp (sparseOffset l) (offset l)
  else Some (false, sparseOffset l).

(** What [ERR_print_errors_fp(stderr)] prints after a failed cipher call
    (line 369): the error queue of the library, of which only the place
    in the run matters here. *)
Definition cipher_errors : string := "EVP error".

Definition dev_write (a : Args) (offset : Z) (data : bytes) : M unit :=
  if dryRun a then ret tt
  else
    tick (EvWrite TDev offset data) (set_dev (splice (Z.to_nat offset) data)) ;;
    tick (EvFSync TDev) id.

(** The body of the [while] loop (lines 310 to 412); the progress report
    of lines 414 to 444 only prints and is left out. *)
Definition process_chunk (a : Args) (sparse_ok : bool) (chunk : bytes) (l : Locals)
  : M Locals :=
  let m := mode a in
  let tmp_path := tmpPath m (offset l) in
  s <- get ;;
  r <- match wd s !! tmp_path with
       | Some tmp =>
           if negb (bool_decide (Z.of_nat (length tmp) = chunkSize a)) then
             print ("Can't load " +:+ tmp_path) ;; exit 1
           else
             dev_write a (offset l) tmp ;;
             ret (false, l)
       | None =>
           match is_sparse m sparse_ok (default [] (wd s !! sparsePath m)) l chunk with
           | None => stop Trap
           | Some (allZeroes, so) =>
               let l1 := mkLocals (offset l) so (ctx l) (pos l) in
               if allZeroes then
                 (if is_enc m then
                    tick (EvAppend (sparsePath m) (hton (offset l)))
                         (set_wd (alter (fun old => old ++ hton (offset l))
                                        (sparsePath m))) ;;
                    tick (EvFSync (TFile (sparsePath m))) id
                  else ret tt) ;;
                 ret (true, l1)
               else
                 tick (EvCipherUpdate (offset l)) id ;;
                 match EVPUpdateWrapper m (ctx l) chunk with
                 | None => print cipher_errors ;; exit 1
                 | Some (ctx', block) =>
                     if negb (bool_decide (Z.of_nat (length block) = chunkSize a)) then
                       print ("Chunk size mismatch for offset " +:+ pretty (offset l)
                              +:+ ": " +:+ pretty (Z.of_nat (length block))
                              +:+ " != " +:+ pretty (chunkSize a)) ;;
                       exit 1
                     else
                       CreateFile tmp_path block ;;
                       dev_write a (offset l) block ;;
                       ret (false, mkLocals (offset l) so ctx' (pos l))
                 end
           end
       end ;;
  let '(allZeroes, l2) := r in
  let offset' := (offset l2 + chunkSize a) mod two64 in
  tick (EvWrite (TFile (offsetPath m)) 0 (hton offset'))
       (set_wd (alter (splice 0 (hton offset')) (offsetPath m))) ;;
  tick (EvFSync (TFile (offsetPath m))) id ;;
  (if negb allZeroes then unlink tmp_path else ret tt) ;;
  ret (mkLocals offset' (sparseOffset l2) (ctx l2) (pos l2)).

(** [while (auto chunk = chunks.Next()) { ... }] *)
Fixpoint loop (fuel : nat) (a : Args) (sparse_ok : bool) (l : Locals) : M Locals :=
  match fuel with
  | O => stop OutOfFuel
  | S f =>
      s <- get ;;
      match Next (dev s) (pos l) (Z.to_nat (chunkSize a)) with
      | None => ret l
      | Some chunk =>
          l' <- process_chunk a sparse_ok chunk l ;;
          loop f a sparse_ok
               (mkLocals (offset l') (sparseOffset l') (ctx l')
                         (pos l' + Z.to_nat (chunkSize a)))
      end
  end.

(** Lines 162 to 188: the checks on the arguments and on the device.
    The device is opened at line 178; [dev.Size() % chunkSize] divides by
    zero when [chunkSize] is 0. *)
Definition check_args (a : Args) : M Z :=
  if bool_decide (mode a = MODE_DEFAULT) then print "No mode specified" ;; exit 1 else
  if negb (bool_decide (chunkSize a mod blockSize = 0)) then
    print "Chunk size (-s) must be multiple of 16" ;; exit 1 else
  s <- get ;;
  let devSize := Z.of_nat (length (dev s)) in
  if bool_decide (chunkSize a = 0) then stop Trap else
  if negb (bool_decide (devSize mod chunkSize a = 0)) then
    print ("File size (" +:+ pretty devSize +:+ ") must be multiple of chunk size (-s "
           +:+ pretty (chunkSize a) +:+ ")") ;; exit 1
  else ret devSize.

(** Lines 190 to 218: the key and the iv, created on encrypt when one of
    them is missing. *)
Definition load_keys (a : Args) : M (bytes * bytes) :=
  iv_ex <- exists_ ivPath ;;
  key_ex <- exists_ keyPath ;;
  (if negb iv_ex || negb key_ex then
     if bool_decide (mode a = MODE_DECRYPT) then print "Key and/or iv absent" ;; exit 1
     else
       g <- CreateRandomFile 0 (Z.to_nat blockSize) ivPath ;;
       CreateRandomFile g (Z.to_nat keySize) keyPath ;; ret tt
   else ret tt) ;;
  s <- get ;;
  match wd s !! ivPath, wd s !! keyPath with
  | Some iv, Some key =>
      if negb (bool_decide (Z.of_nat (length iv) = blockSize))
         || negb (bool_decide (Z.of_nat (length key) = keySize)) then
        print "Can't load key and/or iv" ;; exit 1
      else ret (iv, key)
  | _, _ => print "Can't load key and/or iv" ;; exit 1
  end.

(** Lines 220 to 244: the cipher context. *)
Definition init_cipher (a : Args) (iv key : bytes) : M CipherCtx :=
  tick EvCipherInit id ;; ret (EVPInitWrapper (mode a) key iv).

(** Lines 246 to 265: the offset file. *)
Definition load_offset (a : Args) : M Z :=
  off_ex <- exists_ (offsetPath (mode a)) ;;
  (if negb off_ex then CreateFile (offsetPath (mode a)) (hton 0) else ret tt) ;;
  s <- get ;;
  match wd s !! offsetPath (mode a) with
  | None => print "Can't load offset file" ;; exit 1
  | Some ofile =>
      if negb (bool_decide (length ofile = 8%nat)) then
        print "Can't load offset file" ;; exit 1
      else ret (ntoh ofile)
  end.

(** Lines 272 to 290: the sparse file; the result tells whether
    [sparseFile] is usable. *)
Definition open_sparse (a : Args) : M bool :=
  let m := mode a in
  sp_ex <- exists_ (sparsePath m) ;;
  (if negb sp_ex then CreateFile (sparsePath m) [] else ret tt) ;;
  s <- get ;;
  let sp := wd s !! sparsePath m in
  let sp_empty := bool_decide (default [] sp = []) in
  let sparse_ok :=
    bool_decide (is_Some sp) && (is_enc m || negb sp_empty || open_empty_ok) in
  if negb sparse_ok && (is_enc m || (bool_decide (is_Some sp) && negb sp_empty)) then
    print "Can't load sparse file" ;; exit 1
  else ret sparse_ok.

(** Lines 447 to 466: the end of the cipher stream. *)
Definition finish (a : Args) (l : Locals) : M unit :=
  tick EvCipherFinal id ;;
  match EVPFinalWrapper (mode a) (ctx l) with
  | None => print cipher_errors ;; exit 1
  | Some fin =>
      (if bool_decide (0 < length fin)%nat then
         CreateFile (finalPath (mode a) (offset l)) fin
       else ret tt) ;;
      print "Success!" ;; exit 0
  end.

(** Everything [main] does before it compares the offset with the size
    of the device (lines 162 to 265). *)
Definition startup (a : Args) : M (Z * CipherCtx * Z) :=
  devSize <- check_args a ;;
  k <- load_keys a ;;
  ctx0 <- init_cipher a (fst k) (snd k) ;;
  offset0 <- load_offset a ;;
  ret (devSize, ctx0, offset0).

(** [main] from line 162 on, the arguments being parsed. *)
Definition main (a : Args) : M unit :=
  st <- startup a ;;
  let '(devSize, ctx0, offset0) := st in
  if bool_decide (offset0 >= devSize) then print "Already done" ;; exit 0 else
  sparse_ok <- open_sparse a ;;
  s <- get ;;
  l <- loop (S (length (dev s))) a sparse_ok
            (mkLocals offset0 0 ctx0 (Z.to_nat offset0)) ;;
  finish a l.

(** ** The command line

    Lines 106 to 160: [argv] as the list of its [argc] strings.  The
    options that take a value read [argv[++i]] unchecked; past the last
    argument this is the null pointer that ends [argv], and [strcmp],
    [strlen] and the assignment to a [std::string] are undefined on it. *)
Section CommandLine.

(** [NAC::NStringUtils::FromString] of ac-common: the number that [-s]
    gives, from its text and the chunk size so far. *)
Variable FromString : string -> Z -> Z.

Record Parsed := mkParsed {
  devPath : string;
  workdirPath : string;
  args : Args
}.

Inductive ParseRes :=
  | PArgs (p : Parsed)      (* the loop and the checks passed *)
  | PError (msg : string)   (* a message and [return 1] *)
  | PTrap.                  (* a null pointer is read *)

Definition usage (prog : string) : string :=
  "Usage: " +:+ prog
  +:+ " -m enc|dec -w /path/to/workdir [-n] [-s 4096] /path/to/file".

(** The [for] loop, on the arguments from [argv[i]] on. *)
Fixpoint parse_loop (argv : list string) (p : Parsed) : ParseRes :=
  match argv with
  | [] => PArgs p
  | arg :: rest =>
      if bool_decide (arg = "-m") then
        match rest with
        | [] => PTrap
        | v :: rest' =>
            if bool_decide (v = "enc") then
              parse_loop rest'
                (mkParsed (devPath p) (workdirPath p)
                   (mkArgs MODE_ENCRYPT (dryRun (args p)) (chunkSize (args p))))
            else if bool_decide (v = "dec") then
              parse_loop rest'
                (mkParsed (devPath p) (workdirPath p)
                   (mkArgs MODE_DECRYPT (dryRun (args p)) (chunkSize (args p))))
            else PError ("Invalid mode: " +:+ v)
        end
      else if bool_decide (arg = "-w") then
        match rest with
        | [] => PTrap
        | v :: rest' => parse_loop rest' (mkParsed (devPath p) v (args p))
        end
      else if bool_decide (arg = "-n") then
        parse_loop rest
          (mkParsed (devPath p) (workdirPath p)
             (mkArgs (mode (args p)) true (chunkSize (args p))))
      else if bool_decide (arg = "-s") then
        match rest with
        | [] => PTrap
        | v :: rest' =>
            parse_loop rest'
              (mkParsed (devPath p) (workdirPath p)
                 (mkArgs (mode (args p)) (dryRun (args p))
                    (FromString v (chunkSize (args p)))))
        end
      else if bool_decide (devPath p = EmptyString) then
        parse_loop rest (mkParsed arg (workdirPath p) (args p))
      else PError ("Invalid argument: " +:+ arg)
  end.

(** Lines 106 to 160; the check of the mode (line 162) is in
    [check_args].  When the result is [PArgs p], [main] goes on with the
    arguments [args p] on the device [devPath p] and in the working
    directory [workdirPath p]. *)
Definition parse_args (argv : list string) : ParseRes :=
  match argv with
  | [] => PTrap
  | prog :: rest =>
      if bool_decide (length argv < 6)%nat then PError (usage prog) else
      match parse_loop rest (mkParsed EmptyString EmptyString
                               (mkArgs MODE_DEFAULT false 4096)) with
      | PArgs p =>
          if bool_decide (devPath p = EmptyString) then PError "No file specified"
          else if bool_decide (workdirPath p = EmptyString) then
            PError "No workdir specified"
          else PArgs p
      | r => r
      end
  end.

(** The command line of the usage message. *)
Definition command_line (prog : string) (m : TMode) (wdp : string) (dry : bool)
  (s : option string) (file : string) : list string :=
  [prog; "-m"; modeName m; "-w"; wdp]
  ++ (if dry then ["-n"] else [])
  ++ (match s with Some txt => ["-s"; txt] | None => [] end)
  ++ [file].

End CommandLine.

(** ** Weakest preconditions

    [wp m Q R s]: running [m] from [s] either returns a value and a state
    that satisfy [Q], or stops (exit, kill, trap) in a state that
    satisfies [R]. *)
Definition wp {A} (m : M A) (Q : A -> State -> Prop) (R : State -> Prop)
  : State -> Prop :=
  fun s => match m s with Ret a s' => Q a s' | Stop _ s' => R s' end.

(** One invocation of the program on a device and a working directory,
    killed after [k] operations when [kill = Some k]. *)
Definition run (a : Args) (kill : option nat) (d : bytes) (w : gmap string bytes)
  : Res unit :=
  main a (mkState d w [] kill).

Definition state_of {A} (r : Res A) : State :=
  match r with Ret _ s => s | Stop _ s => s end.

Definition outcome_of {A} (r : Res A) : option Outcome :=
  match r with Ret _ _ => None | Stop o _ => Some o end.

(** The footprint of a run: the files a mode may create, write or
    delete, and the device only when the run is not a dry run. *)
Definition own_path (a : Args) (p : string) : Prop :=
  (mode a <> MODE_DECRYPT /\ (p = ivPath \/ p = keyPath))
  \/ p = offsetPath (mode a) \/ p = sparsePath (mode a)
  \/ (exists o, p = tmpPath (mode a) o) \/ (exists o, p = finalPath (mode a) o).

Definition allowed (a : Args) (e : Event) : Prop :=
  match e with
  | EvCreate p | EvAppend p _ | EvUnlink p
  | EvWrite (TFile p) _ _ | EvFSync (TFile p) => own_path a p
  | EvWrite TDev _ _ | EvFSync TDev => dryRun a = false
  | _ => True
  end.

(** The operations on a chunk that goes through the cipher, in the order
    of lines 368 to 411: cipher, stage file, device, offset file, unlink. *)
Definition transform_events (a : Args) (o : Z) (block : bytes) : list Event :=
  let tmp := tmpPath (mode a) o in
  let offs := offsetPath (mode a) in
  [EvCipherUpdate o; EvCreate tmp; EvAppend tmp block; EvFSync (TFile tmp)]
  ++ (if dryRun a then [] else [EvWrite TDev o block; EvFSync TDev])
  ++ [EvWrite (TFile offs) 0 (hton ((o + chunkSize a) mod two64));
      EvFSync (TFile offs); EvUnlink tmp].

(** The operations on a sparse chunk on encrypt (lines 356 to 400). *)
Definition sparse_events (a : Args) (o : Z) : list Event :=
  let sp := sparsePath (mode a) in
  let offs := offsetPath (mode a) in
  [EvAppend sp (hton o); EvFSync (TFile sp);
   EvWrite (TFile offs) 0 (hton ((o + chunkSize a) mod two64));
   EvFSync (TFile offs)].

(** [l] follows the sequence [canon] as far as it goes: it starts with
    the whole of it, or it is a beginning of it (the process stopped). *)
Definition in_order (canon l : list Event) : Prop :=
  canon `prefix_of` l \/ l `prefix_of` canon.

(** Every chunk that is fed to the cipher, and every entry appended to the
    sparse file, is followed by its operations in order; or the cipher
    call is refused (lines 368 to 376) and the run ends there with a
    message.  And a stage file is only created for a chunk that has just
    been fed to the cipher, so that every chunk that is staged and
    written is in such a sequence. *)
Definition ordered (a : Args) (t : list Event) : Prop :=
  (forall j o, t !! j = Some (EvCipherUpdate o) ->
     (exists block, in_order (transform_events a o block) (drop j t))
     \/ (exists msg, drop j t = [EvCipherUpdate o; EvPrint msg]))
  /\ (forall j data, t !! j = Some (EvAppend (sparsePath (mode a)) data) -> data <> [] ->
     exists o, data = hton o /\ in_order (sparse_events a o) (drop j t))
  /\ (forall j o, t !! j = Some (EvCreate (tmpPath (mode a) o)) ->
     exists i, j = S i /\ t !! i = Some (EvCipherUpdate o)).

(** The same, every sequence being complete. *)
Definition settled (a : Args) (t : list Event) : Prop :=
  (forall j o, t !! j = Some (EvCipherUpdate o) ->
     exists block, transform_events a o block `prefix_of` drop j t)
  /\ (forall j data, t !! j = Some (EvAppend (sparsePath (mode a)) data) -> data <> [] ->
     exists o, data = hton o /\ sparse_events a o `prefix_of` drop j t)
  /\ (forall j o, t !! j = Some (EvCreate (tmpPath (mode a) o)) ->
     exists i, j = S i /\ t !! i = Some (EvCipherUpdate o)).

(** Operations that belong to no such sequence. *)
Definition neutral (a : Args) (e : Event) : Prop :=
  match e with
  | EvCipherUpdate _ => False
  | EvAppend p data => p <> sparsePath (mode a) \/ data = []
  | EvCreate p => forall o, p <> tmpPath (mode a) o
  | _ => True
  end.


(** Operations that neither feed data to the cipher nor touch the
    device. *)
Definition idle (e : Event) : Prop :=
  match e with
  | EvCipherUpdate _ | EvCipherFinal | EvWrite TDev _ _ | EvFSync TDev => False
  | _ => True
  end.

(** What the loop keeps true of the cipher context: no incomplete block
    is pending and the chaining block has the size of a block. *)
Definition ctx_ok (c : CipherCtx) : Prop :=
  cbuf c = [] /\ length (chain c) = 16%nat.

(** ** The sparse log as a list of offsets *)

Definition in_u64 (v : Z) : Prop := 0 <= v < two64.

Definition encode_entries (es : list Z) : bytes := es ≫= hton.

(** The entries of a sparse file, read eight bytes at a time. *)
Definition sparse_entries (sp : bytes) : list Z :=
  ntoh <$> reshape (replicate (length sp / 8) 8%nat) sp.

(** [R] holds of every two consecutive elements. *)
Definition consecutive (R : Z -> Z -> Prop) (l : list Z) : Prop :=
  forall i x y, l !! i = Some x -> l !! S i = Some y -> R x y.

(** An offset file is absent, just created, or holds a 64-bit value. *)
Definition offs_ok (w : gmap string bytes) (p : string) : Prop :=
  w !! p = None \/ w !! p = Some [] \/ exists v, in_u64 v /\ w !! p = Some (hton v).

Definition sparse_is (w : gmap string bytes) (es : list Z) : Prop :=
  (w !! sparsePath MODE_ENCRYPT = None /\ es = [])
  \/ w !! sparsePath MODE_ENCRYPT = Some (encode_entries es).

(** The sparse log holds 64-bit entries in non-decreasing order, none
    beyond the encrypt offset. *)
Definition enc_log_ok (w : gmap string bytes) : Prop :=
  exists es, sparse_is w es /\ Forall in_u64 es /\ consecutive Z.le es
    /\ (es = [] \/ exists v, in_u64 v /\ w !! offsetPath MODE_ENCRYPT = Some (hton v)
                      /\ Forall (fun e => e <= v) es).

Definition log_ok (w : gmap string bytes) : Prop :=
  offs_ok w (offsetPath MODE_ENCRYPT) /\ offs_ok w (offsetPath MODE_DECRYPT)
  /\ enc_log_ok w.

(** The progress files of a mode whose offset is [o]. *)
Definition progress_ok (m : TMode) (o : Z) (w : gmap string bytes) : Prop :=
  in_u64 o /\ w !! offsetPath m = Some (hton o) /\ log_ok w.

(** Two working directories with the same progress files. *)
Definition same_logs (w w' : gmap string bytes) : Prop :=
  w' !! offsetPath MODE_ENCRYPT = w !! offsetPath MODE_ENCRYPT
  /\ w' !! offsetPath MODE_DECRYPT = w !! offsetPath MODE_DECRYPT
  /\ w' !! sparsePath MODE_ENCRYPT = w !! sparsePath MODE_ENCRYPT.

(** Successive invocations of the program, each with its arguments and
    the number of operations after which it is killed, if it is. *)
Fixpoint runs (rs : list (Args * option nat)) (d : bytes) (w : gmap string bytes)
  : bytes * gmap string bytes :=
  match rs with
  | [] => (d, w)
  | (a, kill) :: rs' =>
      let s := state_of (run a kill d w) in
      runs rs' (dev s) (wd s)
  end.

(** What every state of a run satisfies, killed or not: the device keeps
    its size [n] and the progress files are well formed. *)
Definition disk_inv (n : nat) (s : State) : Prop :=
  length (dev s) = n /\ log_ok (wd s).

(** What holds in addition at the head of the chunk loop. *)
Definition chunk_inv (a : Args) (n : nat) (l : Locals) (s : State) : Prop :=
  offset l = Z.of_nat (pos l) /\ length (dev s) = n
  /\ progress_ok (mode a) (offset l) (wd s).

(** ** The chunk loop as a function of the chunks

    What the loop does to a chunk and to a list of chunks when no stage
    file is in the way and the process is not killed: the bytes left on
    the device, the sparse file, the local variables and the operations
    performed.  [process_chunk] and [loop] are shown to compute these. *)
(** The answer of [is_sparse] where the scan stays inside the sparse
    file. *)
Definition sparse_test (m : TMode) (sparse_ok : bool) (sp : bytes) (l : Locals)
  (chunk : bytes) : bool * nat :=
  default (false, sparseOffset l) (is_sparse m sparse_ok sp l chunk).

(** The scan stays inside the sparse file: it is not used (encrypt), or
    the file is a sequence of 8-byte entries and the cursor is at the
    start of one. *)
Definition scan_ok (m : TMode) (sp : bytes) (so : nat) : Prop :=
  is_enc m = true \/ (length sp mod 8 = 0 /\ so mod 8 = 0)%nat.

Record Progress := mkProgress {
  p_dev : bytes;
  p_sparse : bytes;
  p_locals : Locals;
  p_events : list Event
}.

Definition pure_chunk (a : Args) (sparse_ok : bool) (sp : bytes) (l : Locals)
  (chunk : bytes) : Progress :=
  let m := mode a in
  let offset' := (offset l + chunkSize a) mod two64 in
  let '(allZeroes, so) := sparse_test m sparse_ok sp l chunk in
  if allZeroes then
    if is_enc m then
      mkProgress chunk (sp ++ hton (offset l)) (mkLocals offset' so (ctx l) (pos l))
                 (sparse_events a (offset l))
    else
      mkProgress chunk sp (mkLocals offset' so (ctx l) (pos l))
                 [EvWrite (TFile (offsetPath m)) 0 (hton offset');
                  EvFSync (TFile (offsetPath m))]
  else
    let '(ctx', block) := EVP_Update m (ctx l) chunk in
    mkProgress (if dryRun a then chunk else block) sp
               (mkLocals offset' so ctx' (pos l))
               (transform_events a (offset l) block).

Fixpoint pure_loop (a : Args) (sparse_ok : bool) (chunks : list bytes) (sp : bytes)
  (l : Locals) : Progress :=
  match chunks with
  | [] => mkProgress [] sp l []
  | chunk :: rest =>
      let r1 := pure_chunk a sparse_ok sp l chunk in
      let l1 := p_locals r1 in
      let r2 := pure_loop a sparse_ok rest (p_sparse r1)
                  (mkLocals (offset l1) (sparseOffset l1) (ctx l1)
                            (pos l1 + Z.to_nat (chunkSize a))) in
      mkProgress (p_dev r1 ++ p_dev r2) (p_sparse r2) (p_locals r2)
                 (p_events r1 ++ p_events r2)
  end.

(** The iv and the key that a first encrypt run draws. *)
Definition fresh_iv : bytes := rnd <$> seq 0 16.
Definition fresh_key : bytes := rnd <$> seq 16 32.

(** The operations of [CreateFile]. *)
Definition create_events (path : string) (data : bytes) : list Event :=
  [EvCreate path; EvAppend path data; EvFSync (TFile path)].

(** Whether [sparseFile] is usable in the loop, for a sparse file of
    content [sp]. *)
Definition sparse_usable (m : TMode) (sp : bytes) : bool :=
  is_enc m || negb (bool_decide (sp = [])) || open_empty_ok.

(** The output chunks of [pure_loop], one per input chunk. *)
Fixpoint pure_outs (a : Args) (sparse_ok : bool) (chunks : list bytes) (sp : bytes)
  (l : Locals) : list bytes :=
  match chunks with
  | [] => []
  | chunk :: rest =>
      let r1 := pure_chunk a sparse_ok sp l chunk in
      let l1 := p_locals r1 in
      p_dev r1 :: pure_outs a sparse_ok rest (p_sparse r1)
                    (mkLocals (offset l1) (sparseOffset l1) (ctx l1)
                              (pos l1 + Z.to_nat (chunkSize a)))
  end.

(** For each chunk, whether [pure_loop] takes it for sparse. *)
Fixpoint pure_flags (a : Args) (sparse_ok : bool) (chunks : list bytes) (sp : bytes)
  (l : Locals) : list bool :=
  match chunks with
  | [] => []
  | chunk :: rest =>
      let r1 := pure_chunk a sparse_ok sp l chunk in
      let l1 := p_locals r1 in
      (sparse_test (mode a) sparse_ok sp l chunk).1
      :: pure_flags a sparse_ok rest (p_sparse r1)
           (mkLocals (offset l1) (sparseOffset l1) (ctx l1)
                     (pos l1 + Z.to_nat (chunkSize a)))
  end.

Definition all_zero (chunk : bytes) : bool :=
  bool_decide (chunk = replicate (length chunk) 0).

(** The offsets of the all-zero chunks among [chunks], the first chunk
    being at offset [o]. *)
Fixpoint zero_offsets (cs : Z) (o : Z) (chunks : list bytes) : list Z :=
  match chunks with
  | [] => []
  | chunk :: rest =>
      (if all_zero chunk then [o] else []) ++ zero_offsets cs ((o + cs) mod two64) rest
  end.

(** The elements of [l] at the positions of the chunks that are not all
    zeros. *)
Fixpoint select_data (chunks l : list bytes) : list bytes :=
  match chunks, l with
  | c :: chunks', x :: l' =>
      (if all_zero c then [] else [x]) ++ select_data chunks' l'
  | _, _ => []
  end.

(** The working directory after the start-up of a first encrypt run in
    an empty directory, and what this start-up does. *)
Definition fresh_wd : gmap string bytes :=
  <[offsetPath MODE_ENCRYPT := hton 0]>
    (<[keyPath := fresh_key]> (<[ivPath := fresh_iv]> ∅)).

Definition fresh_events : list Event :=
  create_events ivPath fresh_iv ++ create_events keyPath fresh_key
  ++ [EvCipherInit] ++ create_events (offsetPath MODE_ENCRYPT) (hton 0).

(** The local variables at the head of the loop of a run that starts at
    offset 0. *)
Definition start_locals (key iv : bytes) : Locals :=
  mkLocals 0 0 (mkCtx key iv []) 0.

(** The second chunk of an encrypted device depends on where the chain
    stands: [first_block c0] is the encryption of a first 16-byte chunk
    [c0] under the fresh key and iv, [chained_block c0 c1] the encryption
    of a second chunk [c1] chained to it, [restarted_block c1] the
    encryption of [c1] with the chain at the iv. *)
Definition first_block (c0 : bytes) : bytes :=
  block16 (E fresh_key (xor_block c0 fresh_iv)).
Definition chained_block (c0 c1 : bytes) : bytes :=
  block16 (E fresh_key (xor_block c1 (first_block c0))).
Definition restarted_block (c1 : bytes) : bytes :=
  block16 (E fresh_key (xor_block c1 fresh_iv)).

(** A run stays within its footprint when every operation of its trace
    is allowed. *)
Definition within (a : Args) (s : State) : Prop := Forall (allowed a) (trace s).

(** What a run leaves alone: the device when it is a dry run, and the
    files of the working directory that [prot] protects. *)
Definition untouched (a : Args) (prot : string -> Prop) (d0 : bytes)
  (w0 : gmap string bytes) (s : State) : Prop :=
  (dryRun a = true -> dev s = d0)
  /\ (forall p, prot p -> wd s !! p = w0 !! p).

(** The files that record progress. *)
Definition log_path (p : string) : Prop :=
  p = offsetPath MODE_ENCRYPT \/ p = offsetPath MODE_DECRYPT
  \/ p = sparsePath MODE_ENCRYPT.

(** * Properties *)

(** ** Big-endian integers *)

Lemma length_hton v : length (hton v) = 8%nat.
Proof. reflexivity. Qed.

Lemma ntoh_hton v : 0 <= v < two64 -> ntoh (hton v) = v.
Proof.
  unfold two64, ntoh, hton. intros Hv. cbn [fmap list_fmap fold_left].
  change 255 with (Z.ones 8).
  rewrite !Z.land_ones, !Z.shiftr_div_pow2, !Z.shiftl_mul_pow2 by lia.
  cbn [Z.mul Pos.mul Z.pow Z.pow_pos Pos.iter] in *.
  Z.div_mod_to_equations. lia.
Qed.

(** ** The cipher *)

Lemma length_block16 l : length (block16 l) = 16%nat.
Proof. reflexivity. Qed.

Lemma block16_id l : length l = 16%nat -> block16 l = l.
Proof.
  intros H. do 17 (destruct l as [|? l]; [try discriminate H|]); [reflexivity|].
  discriminate H.
Qed.

Lemma cbc_encrypt_length n k c data :
  length (cbc_encrypt n k c data).1 = (16 * n)%nat.
Proof.
  revert c data. induction n as [|n IH]; intros c data; [done|].
  cbn [cbc_encrypt].
  specialize (IH (block16 (E k (xor_block (take 16 data) c))) (drop 16 data)).
  destruct (cbc_encrypt n _ _ _) as [out c']. cbn [fst] in *.
  rewrite length_app, length_block16, IH. lia.
Qed.

Lemma cbc_encrypt_chain n k c data :
  length c = 16%nat -> length (cbc_encrypt n k c data).2 = 16%nat.
Proof.
  revert c data. induction n as [|n IH]; intros c data Hc; [done|].
  cbn [cbc_encrypt].
  specialize (IH (block16 (E k (xor_block (take 16 data) c))) (drop 16 data)
                 (length_block16 _)).
  by destruct (cbc_encrypt n _ _ _) as [out c'].
Qed.

Lemma cbc_decrypt_length n k c data :
  length c = 16%nat -> (16 * n <= length data)%nat ->
  length (cbc_decrypt n k c data).1 = (16 * n)%nat
  /\ length (cbc_decrypt n k c data).2 = 16%nat.
Proof.
  revert c data. induction n as [|n IH]; intros c data Hc Hd; [done|].
  cbn [cbc_decrypt].
  destruct (IH (take 16 data) (drop 16 data)) as [IH1 IH2].
  { rewrite length_take. lia. }
  { rewrite length_drop. lia. }
  destruct (cbc_decrypt n _ _ _) as [out c']. cbn [fst snd] in *.
  split; [|done].
  unfold xor_block. rewrite length_app, length_zip_with, length_block16, IH1. lia.
Qed.

Lemma EVP_Update_ok m c chunk q :
  ctx_ok c -> length chunk = (16 * q)%nat ->
  length (EVP_Update m c chunk).2 = length chunk
  /\ ctx_ok (EVP_Update m c chunk).1.
Proof.
  intros [Hb Hc] Hq. unfold EVP_Update. rewrite Hb. cbn [app].
  assert (length chunk / 16 = q)%nat as Hn.
  { rewrite Hq. rewrite Nat.mul_comm. by apply Nat.div_mul. }
  rewrite Hn. destruct (is_enc m).
  - pose proof (cbc_encrypt_length q (ckey c) (chain c) chunk) as H1.
    pose proof (cbc_encrypt_chain q (ckey c) (chain c) chunk Hc) as H2.
    destruct (cbc_encrypt q _ _ _) as [out c']. cbn [fst snd ckey cbuf chain] in *.
    split; [lia|]. split; [|done]. cbn. apply drop_ge. lia.
  - destruct (cbc_decrypt_length q (ckey c) (chain c) chunk Hc) as [H1 H2]; [lia|].
    destruct (cbc_decrypt q _ _ _) as [out c']. cbn [fst snd ckey cbuf chain] in *.
    split; [lia|]. split; [|done]. cbn. apply drop_ge. lia.
Qed.

Lemma EVP_Update_length m c input :
  ctx_ok c -> length (EVP_Update m c input).2 = (16 * (length input / 16))%nat.
Proof.
  intros [Hb Hc]. unfold EVP_Update. rewrite Hb. cbn [app].
  pose proof (Nat.Div0.mul_div_le (length input) 16).
  destruct (is_enc m).
  - pose proof (cbc_encrypt_length (length input / 16) (ckey c) (chain c) input) as H1.
    by destruct (cbc_encrypt _ _ _ _) as [out c'].
  - destruct (cbc_decrypt_length (length input / 16) (ckey c) (chain c) input Hc)
      as [H1 H2]; [lia|].
    by destruct (cbc_decrypt _ _ _ _) as [out c'].
Qed.

Lemma to_int_small n : 0 <= n < 2 ^ 31 -> to_int n = n.
Proof. intros Hn. unfold to_int. rewrite Z.mod_small; lia. Qed.

(** A length that fits an [int] goes through the wrapper unchanged. *)
Lemma EVPUpdateWrapper_in_range m c input :
  Z.of_nat (length input) < 2 ^ 31 ->
  EVPUpdateWrapper m c input = Some (EVP_Update m c input).
Proof.
  intros Hn. unfold EVPUpdateWrapper. cbn zeta.
  rewrite to_int_small by lia.
  rewrite bool_decide_eq_false_2 by lia.
  rewrite Nat2Z.id, firstn_all. done.
Qed.

(** A call that returns a block of the size of its input has processed
    all of it. *)
Lemma EVPUpdateWrapper_whole m c chunk c' block :
  ctx_ok c ->
  EVPUpdateWrapper m c chunk = Some (c', block) ->
  length block = length chunk ->
  (c', block) = EVP_Update m c chunk.
Proof.
  intros Hc. unfold EVPUpdateWrapper. cbn zeta.
  case_bool_decide; [done|]. intros [= HE] HL. rewrite <- HE.
  pose proof (EVP_Update_length m c
                (take (Z.to_nat (to_int (Z.of_nat (length chunk)))) chunk) Hc) as H1.
  rewrite HE in H1. cbn [snd] in H1.
  pose proof (Nat.Div0.mul_div_le
                (length (take (Z.to_nat (to_int (Z.of_nat (length chunk)))) chunk)) 16).
  rewrite take_ge; [done|]. rewrite length_take in *. lia.
Qed.

Lemma EVPUpdateWrapper_ctx_ok m c chunk q c' block :
  ctx_ok c -> length chunk = (16 * q)%nat ->
  Z.of_nat (length chunk) = Z.of_nat (length block) \/
  Z.of_nat (length block) = Z.of_nat (length chunk) ->
  EVPUpdateWrapper m c chunk = Some (c', block) -> ctx_ok c'.
Proof.
  intros Hc Hq HL HE.
  apply EVPUpdateWrapper_whole in HE; [|done|lia].
  destruct (EVP_Update_ok m c chunk q Hc Hq) as [_ H]. by rewrite <- HE in H.
Qed.

(** ** Rules of the weakest precondition *)

Lemma wp_ret {A} (a : A) Q R s : Q a s -> wp (ret a) Q R s.
Proof. done. Qed.

Lemma wp_bind {A B} (m : M A) (f : A -> M B) Q R s :
  wp m (fun a s' => wp (f a) Q R s') R s -> wp (bind m f) Q R s.
Proof. unfold wp, bind. by destruct (m s). Qed.

Lemma wp_stop {A} o (Q : A -> State -> Prop) R s : R s -> wp (stop o) Q R s.
Proof. done. Qed.

Lemma wp_exit {A} c (Q : A -> State -> Prop) R s : R s -> wp (exit c) Q R s.
Proof. done. Qed.

Lemma wp_get Q R s : Q s s -> wp get Q R s.
Proof. done. Qed.

Lemma wp_tick e upd (Q : unit -> State -> Prop) R s :
  (crash s = Some O -> R s) ->
  (forall c, (crash s = None -> c = None) -> Q tt (after e upd c s)) ->
  wp (tick e upd) Q R s.
Proof.
  unfold wp, tick, after. intros HR HQ.
  destruct (crash s) as [[|n]|] eqn:Hc.
  - by apply HR.
  - by apply HQ.
  - by apply HQ.
Qed.

Lemma wp_mono {A} (m : M A) (Q Q' : A -> State -> Prop) (R R' : State -> Prop) s :
  wp m Q R s ->
  (forall a s', Q a s' -> Q' a s') -> (forall s', R s' -> R' s') ->
  wp m Q' R' s.
Proof. unfold wp. destruct (m s); auto. Qed.

Lemma wp_exists_ path Q R s :
  Q (bool_decide (is_Some (wd s !! path))) s -> wp (exists_ path) Q R s.
Proof. done. Qed.

Ltac wp_simpl :=
  cbn [after trace dev wd crash set_wd set_dev id fst snd negb
       offset sparseOffset ctx pos ckey chain cbuf] in *.

Ltac wp_step :=
  lazymatch goal with
  | |- wp (bind _ _) _ _ _ => apply wp_bind
  | |- wp (ret _) _ _ _ => apply wp_ret
  | |- wp get _ _ _ => apply wp_get
  | |- wp (exists_ _) _ _ _ => apply wp_exists_
  | |- wp (exit _) _ _ _ => apply wp_exit
  | |- wp (stop _) _ _ _ => apply wp_stop
  | |- wp (print _) _ _ _ => unfold print
  | |- wp (tick _ _) _ _ _ => apply wp_tick; [intros _ | intros ? _]
  | |- wp (if ?b then _ else _) _ _ _ => destruct b eqn:?
  | |- wp (match ?x with Some _ => _ | None => _ end) _ _ _ => destruct x eqn:?
  | |- wp (let '(_, _) := ?x in _) _ _ _ => destruct x eqn:?
  end; wp_simpl.

(** ** The footprint of a run *)

Section Footprint.
Variable a : Args.

Lemma within_after e upd c s :
  trace (upd s) = trace s -> within a s -> allowed a e -> within a (after e upd c s).
Proof.
  unfold within. cbn. intros -> Hs He. apply Forall_app. split; [done|].
  by apply Forall_singleton.
Qed.

Ltac within_tac :=
  repeat first
    [ assumption
    | apply within_after; [reflexivity| |] ];
  try (cbn [allowed]; unfold own_path; first [done | eauto 8]).

Lemma wp_CreateFile_within path data Q s :
  own_path a path -> within a s ->
  (forall s', within a s' -> Q tt s') ->
  wp (CreateFile path data) Q (within a) s.
Proof.
  intros Hp Hs HQ. unfold CreateFile.
  repeat wp_step; try apply HQ; within_tac.
Qed.

Lemma wp_unlink_within path Q s :
  own_path a path -> within a s ->
  (forall s', within a s' -> Q tt s') ->
  wp (unlink path) Q (within a) s.
Proof.
  intros Hp Hs HQ. unfold unlink.
  repeat wp_step; try apply HQ; within_tac.
Qed.

Lemma wp_dev_write_within off data Q s :
  within a s ->
  (forall s', within a s' -> Q tt s') ->
  wp (dev_write a off data) Q (within a) s.
Proof.
  intros Hs HQ. unfold dev_write.
  repeat wp_step; try apply HQ; within_tac.
Qed.

Lemma own_offset : own_path a (offsetPath (mode a)).
Proof. unfold own_path. auto. Qed.
Lemma own_sparse : own_path a (sparsePath (mode a)).
Proof. unfold own_path. auto. Qed.
Lemma own_tmp o : own_path a (tmpPath (mode a) o).
Proof. unfold own_path. eauto 6. Qed.
Lemma own_final o : own_path a (finalPath (mode a) o).
Proof. unfold own_path. eauto 6. Qed.
Hint Resolve own_offset own_sparse own_tmp own_final : core.

Lemma wp_process_chunk_within sok chunk l Q s :
  within a s ->
  (forall l' s', within a s' -> Q l' s') ->
  wp (process_chunk a sok chunk l) Q (within a) s.
Proof.
  intros Hs HQ. unfold process_chunk.
  repeat first
    [ wp_step
    | apply wp_CreateFile_within; [auto| |intros ? ?]
    | apply wp_unlink_within; [auto| |intros ? ?]
    | apply wp_dev_write_within; [|intros ? ?] ];
  try apply HQ; within_tac.
Qed.

Lemma wp_loop_within fuel sok l Q s :
  within a s ->
  (forall l' s', within a s' -> Q l' s') ->
  wp (loop fuel a sok l) Q (within a) s.
Proof.
  revert l s. induction fuel as [|fuel IH]; intros l s Hs HQ; cbn [loop].
  - by apply wp_stop.
  - repeat wp_step; [|by apply HQ].
    apply wp_process_chunk_within; [done|]. intros l' s' Hs'.
    by apply IH.
Qed.

Lemma wp_startup_within Q s :
  within a s ->
  (forall r s', within a s' -> Q r s') ->
  wp (startup a) Q (within a) s.
Proof.
  intros Hs HQ.
  unfold startup, check_args, load_keys, init_cipher, load_offset, CreateRandomFile.
  repeat first
    [ wp_step
    | apply wp_CreateFile_within; [|try assumption; within_tac|intros ? ?] ];
  try apply HQ; within_tac.
  all: left; split; [|auto].
  all: match goal with
       | H : bool_decide (mode a = MODE_DECRYPT) = false |- _ =>
           by apply bool_decide_eq_false in H
       end.
Qed.

Lemma main_within s : within a s -> within a (state_of (main a s)).
Proof.
  intros Hs.
  assert (wp (main a) (fun _ => within a) (within a) s) as H.
  { unfold main, open_sparse, finish.
    apply wp_bind, wp_startup_within; [done|]. intros [[devSize ctx0] offset0] s1 Hs1.
    repeat first
      [ wp_step
      | apply wp_CreateFile_within; [auto| |intros ? ?]
      | apply wp_loop_within; [|intros ? ? ?] ];
    within_tac. }
  unfold wp in H. by destruct (main a s).
Qed.

End Footprint.

(** ** File names *)

Lemma tmp_ne_offset m m' o : tmpPath m o <> offsetPath m'.
Proof. destruct m, m'; cbn; discriminate. Qed.

Lemma tmp_ne_sparse m m' o : tmpPath m o <> sparsePath m'.
Proof. destruct m, m'; cbn; discriminate. Qed.

Lemma tmp_ne_iv m o : tmpPath m o <> ivPath.
Proof. destruct m; cbn; discriminate. Qed.

Lemma tmp_ne_key m o : tmpPath m o <> keyPath.
Proof. destruct m; cbn; discriminate. Qed.

Lemma final_ne_sparse m m' o : finalPath m o <> sparsePath m'.
Proof. destruct m, m'; cbn; discriminate. Qed.

Lemma final_ne_offset m m' o : finalPath m o <> offsetPath m'.
Proof. destruct m, m'; cbn; discriminate. Qed.

Lemma tmp_inj m o o' : tmpPath m o = tmpPath m o' -> o = o'.
Proof.
  unfold tmpPath. intros H.
  do 2 apply (inj (String.app _)) in H. by apply (inj pretty) in H.
Qed.

Lemma offset_ne_sparse m m' : offsetPath m <> sparsePath m'.
Proof. destruct m, m'; cbn; discriminate. Qed.

Lemma iv_ne_sparse m : ivPath <> sparsePath m.
Proof. destruct m; cbn; discriminate. Qed.

Lemma key_ne_sparse m : keyPath <> sparsePath m.
Proof. destruct m; cbn; discriminate. Qed.

Lemma iv_ne_offset m : ivPath <> offsetPath m.
Proof. destruct m; cbn; discriminate. Qed.

Lemma key_ne_offset m : keyPath <> offsetPath m.
Proof. destruct m; cbn; discriminate. Qed.

(** ** The order of the operations on a chunk *)

Section Order.
Variable a : Args.

Lemma settled_ordered t : settled a t -> ordered a t.
Proof.
  intros (H1 & H2 & H3). split; [|split; [|done]].
  - intros j o Hj. destruct (H1 j o Hj) as [b Hb]. left. exists b. by left.
  - intros j data Hj Hd. destruct (H2 j data Hj Hd) as (o & -> & Ho).
    exists o. split; [done|]. by left.
Qed.

Lemma settled_neutral t : Forall (neutral a) t -> settled a t.
Proof.
  intros Ht. split; [|split].
  - intros j o Hj. eapply Forall_lookup_1 in Hj; [|done]. done.
  - intros j data Hj Hd. eapply Forall_lookup_1 in Hj; [|done].
    by destruct Hj.
  - intros j o Hj. eapply Forall_lookup_1 in Hj; [|done].
    by destruct (Hj o).
Qed.

Lemma staged_app (t1 t2 : list Event) :
  (forall j o, t1 !! j = Some (EvCreate (tmpPath (mode a) o)) ->
     exists i, j = S i /\ t1 !! i = Some (EvCipherUpdate o)) ->
  (forall j o, t2 !! j = Some (EvCreate (tmpPath (mode a) o)) ->
     exists i, j = S i /\ t2 !! i = Some (EvCipherUpdate o)) ->
  forall j o, (t1 ++ t2) !! j = Some (EvCreate (tmpPath (mode a) o)) ->
    exists i, j = S i /\ (t1 ++ t2) !! i = Some (EvCipherUpdate o).
Proof.
  intros A B j o Hj. apply lookup_app_Some in Hj as [Hj|[Hle Hj]].
  - destruct (A j o Hj) as (i & -> & Hi). exists i. split; [done|].
    by apply lookup_app_l_Some.
  - destruct (B _ o Hj) as (i & Hji & Hi). exists (length t1 + i)%nat.
    split; [lia|]. rewrite lookup_app_r by lia.
    by replace (length t1 + i - length t1)%nat with i by lia.
Qed.

Lemma lookup_app_cases {A} (t1 t2 : list A) j x :
  (t1 ++ t2) !! j = Some x ->
  (t1 !! j = Some x /\ drop j (t1 ++ t2) = drop j t1 ++ t2)
  \/ (exists i, t2 !! i = Some x /\ drop j (t1 ++ t2) = drop i t2).
Proof.
  intros H. apply lookup_app_Some in H as [H|[Hle H]].
  - left. split; [done|]. apply lookup_lt_Some in H.
    rewrite drop_app_le by lia. done.
  - right. exists (j - length t1)%nat. split; [done|].
    rewrite drop_app_ge by done. done.
Qed.

Lemma settled_app t1 t2 : settled a t1 -> settled a t2 -> settled a (t1 ++ t2).
Proof.
  intros (A1 & A2 & A3) (B1 & B2 & B3). split; [|split; [|by apply staged_app]].
  - intros j o Hj. apply lookup_app_cases in Hj as [[Hj ->]|(i & Hi & ->)].
    + destruct (A1 j o Hj) as [b Hb]. exists b. by apply prefix_app_r.
    + by apply B1.
  - intros j data Hj Hd. apply lookup_app_cases in Hj as [[Hj ->]|(i & Hi & ->)].
    + destruct (A2 j data Hj Hd) as (o & -> & Ho). exists o. split; [done|].
      by apply prefix_app_r.
    + by apply B2.
Qed.

Lemma settled_ordered_app t1 t2 : settled a t1 -> ordered a t2 -> ordered a (t1 ++ t2).
Proof.
  intros (A1 & A2 & A3) (B1 & B2 & B3). split; [|split; [|by apply staged_app]].
  - intros j o Hj. apply lookup_app_cases in Hj as [[Hj ->]|(i & Hi & ->)].
    + destruct (A1 j o Hj) as [b Hb]. left. exists b. left. by apply prefix_app_r.
    + by apply B1.
  - intros j data Hj Hd. apply lookup_app_cases in Hj as [[Hj ->]|(i & Hi & ->)].
    + destruct (A2 j data Hj Hd) as (o & -> & Ho). exists o. split; [done|].
      left. by apply prefix_app_r.
    + by apply B2.
Qed.

(** A short explicit trace: each position is inspected in turn. *)
Ltac at_position j Hj :=
  cbn [lookup list_lookup] in Hj;
  repeat first
    [ discriminate Hj
    | destruct j as [|j]; cbn [lookup list_lookup] in Hj ].

Ltac close_block :=
  unfold transform_events, sparse_events;
  repeat match goal with H : dryRun a = _ |- _ => rewrite H end;
  cbn [drop app];
  first [ by eexists | left; by eexists | right; by eexists ].

Ltac solve_blocks :=
  split; [|split];
  [ intros j o Hj; at_position j Hj;
    injection Hj as <-;
    first [ eexists; try (unfold in_order); close_block
          | left; eexists; unfold in_order; close_block
          | right; by eexists ]
  | intros j data Hj Hd; at_position j Hj;
    first [ by (injection Hj as Hp _; exfalso; eapply tmp_ne_sparse; eauto)
          | injection Hj as <-; eexists; split; [reflexivity|];
            try (unfold in_order); close_block ]
  | intros j o Hj; at_position j Hj;
    first [ by (injection Hj as Hp; exfalso;
                first [ eapply tmp_ne_sparse | eapply tmp_ne_offset ]; eauto)
          | let Hp := fresh "Hp" in
            injection Hj as Hp; apply tmp_inj in Hp as <-;
            eexists; split; reflexivity ] ].

Ltac norm_trace := rewrite <- ?app_assoc; cbn [app].

Lemma wp_process_chunk_ordered sok chunk l q s :
  settled a (trace s) -> ctx_ok (ctx l) ->
  length chunk = (16 * q)%nat -> Z.of_nat (length chunk) = chunkSize a ->
  wp (process_chunk a sok chunk l)
     (fun l' s' => settled a (trace s') /\ ctx_ok (ctx l'))
     (fun s' => ordered a (trace s')) s.
Proof.
  intros Hs Hc Hq Hlen.
  unfold process_chunk, CreateFile, unlink, dev_write, print.
  repeat wp_step;
    repeat match goal with H : ?p = (_, _) |- _ => is_var p; subst p end;
    try match goal with
        | H : EVPUpdateWrapper _ _ _ = Some (?c', _),
          H' : negb (bool_decide _) = false |- _ =>
            apply negb_false_iff, bool_decide_eq_true_1 in H';
            assert (ctx_ok c')
              by (eapply EVPUpdateWrapper_ctx_ok; [exact Hc|exact Hq| |exact H]; lia)
        end;
    try (split; [|done]); norm_trace;
    first [ by apply settled_ordered
          | apply settled_ordered_app; [done|]
          | apply settled_app; [done|] ].
  all: solve_blocks.
  Unshelve. all: exact [].
Qed.

Lemma Next_length d p cs chunk :
  Next d p cs = Some chunk -> length chunk = cs.
Proof.
  unfold Next. case_bool_decide; [|done]. intros [= <-].
  rewrite length_take, length_drop. lia.
Qed.

Lemma wp_loop_ordered fuel sok l q s :
  settled a (trace s) -> ctx_ok (ctx l) ->
  Z.to_nat (chunkSize a) = (16 * q)%nat -> 0 <= chunkSize a ->
  wp (loop fuel a sok l)
     (fun l' s' => settled a (trace s') /\ ctx_ok (ctx l'))
     (fun s' => ordered a (trace s')) s.
Proof.
  intros Hs Hc Hq Hcs. revert l s Hs Hc.
  induction fuel as [|fuel IH]; intros l s Hs Hc; cbn [loop].
  - by apply wp_stop, settled_ordered.
  - repeat wp_step; [|done].
    match goal with H : Next _ _ _ = Some _ |- _ => apply Next_length in H as Hn end.
    eapply wp_mono.
    + apply (wp_process_chunk_ordered sok _ l q); [done|done|lia|lia].
    + cbn beta. intros l' s' [Hs' Hc']. by apply IH.
    + done.
Qed.

Lemma settled_snoc t e : settled a t -> neutral a e -> settled a (t ++ [e]).
Proof.
  intros Ht He. apply settled_app; [done|].
  apply settled_neutral. by apply Forall_singleton.
Qed.

Ltac neutral_tac :=
  repeat first
    [ assumption
    | apply settled_ordered
    | apply settled_snoc ];
  try (cbn [neutral];
       first [ done
             | by right
             | left; first [ apply tmp_ne_sparse | apply offset_ne_sparse
                           | apply iv_ne_sparse | apply key_ne_sparse
                           | apply final_ne_sparse ]
             | let o := fresh in let H := fresh in
               intros o H; symmetry in H;
               by first [ apply tmp_ne_iv in H | apply tmp_ne_key in H
                        | apply tmp_ne_offset in H | apply tmp_ne_sparse in H ] ]).

Lemma wp_startup_ordered s :
  settled a (trace s) ->
  wp (startup a)
     (fun r s' => settled a (trace s') /\ ctx_ok r.1.2
                  /\ chunkSize a mod 16 = 0)
     (fun s' => ordered a (trace s')) s.
Proof.
  intros Hs.
  unfold startup, check_args, load_keys, init_cipher, load_offset,
    CreateRandomFile, CreateFile.
  repeat wp_step; try (split; [|split]); neutral_tac.
  all: try match goal with
           | H : negb (bool_decide (chunkSize a mod blockSize = 0)) = false |- _ mod _ = _ =>
               by apply negb_false_iff, bool_decide_eq_true in H
           end.
  all: split; [done|]; cbn [EVPInitWrapper chain].
  all: match goal with
       | H : negb (bool_decide (Z.of_nat (length ?iv) = blockSize)) || _ = false
         |- length ?iv = _ =>
           apply orb_false_elim in H as [H _];
           apply negb_false_iff, bool_decide_eq_true in H;
           unfold blockSize in H; lia
       end.
Qed.

Lemma main_ordered s :
  0 <= chunkSize a -> settled a (trace s) ->
  ordered a (trace (state_of (main a s))).
Proof.
  intros Hcs Hs.
  assert (wp (main a) (fun _ s' => ordered a (trace s'))
             (fun s' => ordered a (trace s')) s) as H.
  { unfold main. apply wp_bind. eapply wp_mono; [by apply wp_startup_ordered| |done].
    cbn beta. intros [[devSize ctx0] offset0] s1 (Hs1 & Hc0 & Hmod).
    cbn [fst snd] in Hc0.
    assert (exists q, Z.to_nat (chunkSize a) = (16 * q)%nat) as [q Hq].
    { exists (Z.to_nat (chunkSize a / 16)).
      apply Z_div_exact_full_2 in Hmod; [|lia].
      assert (0 <= chunkSize a / 16) by (apply Z.div_pos; lia). lia. }
    unfold open_sparse, finish, CreateFile.
    repeat first
      [ wp_step
      | eapply wp_mono;
        [ apply (wp_loop_ordered _ _ _ q); [|done|done|done]
        | cbn beta; intros ? ? [? ?] | done ] ];
    neutral_tac.
    (* no final block is left: padding is disabled *)
    all: exfalso;
      match goal with
      | HF : EVPFinalWrapper _ _ = Some ?fin,
        HL : bool_decide (0 < length ?fin)%nat = true |- _ =>
          unfold EVPFinalWrapper in HF; destruct (cbuf _); [|done];
          injection HF as <-; apply bool_decide_eq_true_1 in HL;
          cbn in HL; lia
      end. }
  unfold wp in H. by destruct (main a s).
Qed.

End Order.

(** ** Chunk sizes that do not fit an [int] *)



Section Refused.
Variable a : Args.
Hypothesis big : 2 ^ 31 <= chunkSize a.







End Refused.

(** ** The sparse log under kills and resumptions *)

Lemma sparsePath_enc m : sparsePath m = sparsePath MODE_ENCRYPT.
Proof. by destruct m. Qed.

Lemma offsetPath_cases m :
  (is_enc m = true /\ offsetPath m = offsetPath MODE_ENCRYPT)
  \/ (is_enc m = false /\ offsetPath m = offsetPath MODE_DECRYPT).
Proof. destruct m; auto. Qed.

Lemma hton_inj v v' : in_u64 v -> in_u64 v' -> hton v = hton v' -> v = v'.
Proof.
  intros Hv Hv' H. rewrite <- (ntoh_hton v), <- (ntoh_hton v') by done. by rewrite H.
Qed.

Lemma splice_hton v old : length old = 8%nat -> splice 0 (hton v) old = hton v.
Proof.
  intros H. unfold splice. rewrite take_0, length_hton. cbn [app Nat.add].
  rewrite drop_ge by lia. by rewrite app_nil_r.
Qed.

Lemma length_splice off data old :
  (off + length data <= length old)%nat -> length (splice off data old) = length old.
Proof.
  intros H. unfold splice. rewrite !length_app, length_take, length_drop. lia.
Qed.

Lemma consecutive_nil R : consecutive R [].
Proof. intros i x y H. done. Qed.

Lemma consecutive_snoc R l z :
  consecutive R l -> Forall (fun e => R e z) l -> consecutive R (l ++ [z]).
Proof.
  intros Hl Hz i x y Hx Hy.
  destruct (decide (S i < length l)%nat) as [Hlt|Hge].
  - rewrite lookup_app_l in Hx, Hy by lia. by eapply Hl.
  - assert (S i = length l) as Hi.
    { apply lookup_lt_Some in Hy. rewrite length_app in Hy. cbn in Hy. lia. }
    rewrite lookup_app_l in Hx by lia.
    rewrite Hi, lookup_app_r, Nat.sub_diag in Hy by lia. injection Hy as <-.
    eapply Forall_lookup_1 in Hx; [|done]. done.
Qed.

Lemma sparse_entries_encode es :
  Forall in_u64 es -> sparse_entries (encode_entries es) = es.
Proof.
  unfold sparse_entries, encode_entries. induction 1 as [|v es Hv Hes IH]; [done|].
  rewrite bind_cons, length_app, length_hton.
  replace ((8 + length (es ≫= hton)) / 8)%nat with (S (length (es ≫= hton) / 8)).
  2:{ change (8 + length (es ≫= hton))%nat with (1 * 8 + length (es ≫= hton))%nat.
      rewrite Nat.div_add_l by done. lia. }
  cbn [replicate reshape fmap list_fmap].
  rewrite take_app_length' by done. rewrite drop_app_length' by done.
  rewrite ntoh_hton by done. f_equal. apply IH.
Qed.

Section Log.

Lemma tmp_not_log m o : ~ log_path (tmpPath m o).
Proof.
  intros [H|[H|H]]; [by apply tmp_ne_offset in H..|by apply tmp_ne_sparse in H].
Qed.

Lemma iv_not_log : ~ log_path ivPath.
Proof. intros [H|[H|H]]; discriminate H. Qed.

Lemma key_not_log : ~ log_path keyPath.
Proof. intros [H|[H|H]]; discriminate H. Qed.

Lemma final_not_log m o : ~ log_path (finalPath m o).
Proof.
  intros [H|[H|H]]; [by apply final_ne_offset in H..|by apply final_ne_sparse in H].
Qed.

Lemma same_logs_refl w : same_logs w w.
Proof. done. Qed.

Lemma same_logs_trans w1 w2 w3 : same_logs w1 w2 -> same_logs w2 w3 -> same_logs w1 w3.
Proof. intros (?&?&?) (?&?&?). repeat split; congruence. Qed.

Lemma same_logs_insert w p x : ~ log_path p -> same_logs w (<[p:=x]> w).
Proof.
  intros Hp. repeat split; apply lookup_insert_ne; intros ->; apply Hp;
    unfold log_path; auto.
Qed.

Lemma same_logs_alter w p f : ~ log_path p -> same_logs w (alter f p w).
Proof.
  intros Hp. repeat split; apply lookup_alter_ne; intros ->; apply Hp;
    unfold log_path; auto.
Qed.

Lemma same_logs_delete w p : ~ log_path p -> same_logs w (delete p w).
Proof.
  intros Hp. repeat split; apply lookup_delete_ne; intros ->; apply Hp;
    unfold log_path; auto.
Qed.

Lemma log_ok_same w w' : same_logs w w' -> log_ok w -> log_ok w'.
Proof.
  intros (He & Hd & Hs) (Ho1 & Ho2 & es & Hes & Hu & Hc & Hv).
  unfold log_ok, offs_ok, enc_log_ok, sparse_is in *.
  setoid_rewrite He. setoid_rewrite Hd. setoid_rewrite Hs.
  split; [done|]. split; [done|]. by exists es.
Qed.

Lemma progress_ok_same m o w w' :
  same_logs w w' -> progress_ok m o w -> progress_ok m o w'.
Proof.
  intros Hw (Ho & Hf & Hl). split; [done|]. split; [|by eapply log_ok_same].
  destruct Hw as (He & Hd & _).
  destruct (offsetPath_cases m) as [[_ Hm]|[_ Hm]]; rewrite Hm in *.
  - by rewrite He.
  - by rewrite Hd.
Qed.

Lemma progress_ok_log m o w : progress_ok m o w -> log_ok w.
Proof. by intros (_ & _ & H). Qed.

Lemma offs_ok_cases m w :
  log_ok w -> offs_ok w (offsetPath m).
Proof.
  intros (He & Hd & _). by destruct (offsetPath_cases m) as [[_ ->]|[_ ->]].
Qed.

Lemma progress_ok_load m w ofile :
  log_ok w -> w !! offsetPath m = Some ofile -> length ofile = 8%nat ->
  progress_ok m (ntoh ofile) w.
Proof.
  intros Hw Hf Hlen. destruct (offs_ok_cases m w Hw) as [H|[H|(v & Hv & H)]].
  - congruence.
  - rewrite Hf in H. injection H as ->. done.
  - rewrite Hf in H. injection H as ->. rewrite ntoh_hton by done. done.
Qed.

Lemma enc_bound o w :
  log_ok w -> in_u64 o -> w !! offsetPath MODE_ENCRYPT = Some (hton o) ->
  exists es', sparse_is w es' /\ Forall in_u64 es' /\ consecutive Z.le es'
              /\ Forall (fun e => e <= o) es'.
Proof.
  intros (_ & _ & es' & Hs & Hu & Hc & Hv) Ho Hf.
  exists es'. repeat split; try done.
  destruct Hv as [->|(v & Hv & Hf' & Hle)]; [done|].
  rewrite Hf in Hf'. apply (inj Some) in Hf'.
  apply hton_inj in Hf'; [|done..]. by subst v.
Qed.

Lemma progress_ok_append m o w :
  is_enc m = true -> progress_ok m o w ->
  progress_ok m o (alter (fun old => old ++ hton o) (sparsePath m) w).
Proof.
  intros Hm (Ho & Hf & Hw). destruct m; try discriminate Hm. clear Hm.
  assert (offsetPath MODE_ENCRYPT <> sparsePath MODE_ENCRYPT) as N1 by discriminate.
  assert (offsetPath MODE_DECRYPT <> sparsePath MODE_ENCRYPT) as N2 by discriminate.
  split; [done|]. split; [by rewrite lookup_alter_ne|].
  destruct (enc_bound o w Hw Ho Hf) as (es & Hs & Hu & Hc & Hle).
  destruct Hw as (He & Hd & _).
  split; [|split].
  - unfold offs_ok. by rewrite lookup_alter_ne.
  - unfold offs_ok. by rewrite lookup_alter_ne.
  - destruct Hs as [[Hn ->]|Hs].
    + exists []. split; [|by auto using consecutive_nil].
      left. split; [|done]. by rewrite lookup_alter_eq, Hn.
    + exists (es ++ [o]). split; [|split; [|split]].
      * right. rewrite lookup_alter_eq, Hs. cbn. unfold encode_entries.
        by rewrite bind_app.
      * apply Forall_app. split; [done|]. by apply Forall_singleton.
      * by apply consecutive_snoc.
      * right. exists o. split; [done|]. split; [by rewrite lookup_alter_ne|].
        apply Forall_app. split; [done|]. by apply Forall_singleton.
Qed.

Lemma progress_ok_advance m o o' w :
  progress_ok m o w -> o <= o' -> in_u64 o' ->
  progress_ok m o' (alter (splice 0 (hton o')) (offsetPath m) w).
Proof.
  intros (Ho & Hf & Hw) Hle Ho'.
  assert (alter (splice 0 (hton o')) (offsetPath m) w !! offsetPath m
          = Some (hton o')) as Hnew.
  { rewrite lookup_alter_eq, Hf. cbn [fmap option_fmap option_map].
    by rewrite splice_hton. }
  split; [done|]. split; [done|].
  assert (offsetPath MODE_ENCRYPT <> sparsePath MODE_ENCRYPT) as N1 by discriminate.
  assert (offsetPath MODE_DECRYPT <> sparsePath MODE_ENCRYPT) as N2 by discriminate.
  assert (offsetPath MODE_DECRYPT <> offsetPath MODE_ENCRYPT) as N3 by discriminate.
  assert (offsetPath MODE_ENCRYPT <> offsetPath MODE_DECRYPT) as N4 by discriminate.
  destruct (offsetPath_cases m) as [[_ Hm]|[_ Hm]]; rewrite Hm in *.
  - destruct (enc_bound o w Hw Ho Hf) as (es & Hs & Hu & Hc & Hb).
    destruct Hw as (He & Hd & _).
    split; [|split].
    + right. right. by exists o'.
    + unfold offs_ok. by rewrite lookup_alter_ne.
    + exists es. split; [|split; [done|split; [done|]]].
      * unfold sparse_is. by rewrite lookup_alter_ne.
      * right. exists o'. split; [done|]. split; [done|].
        eapply Forall_impl; [done|]. cbn. intros. lia.
  - destruct Hw as (He & Hd & es & Hs & Hu & Hc & Hv).
    split; [|split].
    + unfold offs_ok. by rewrite lookup_alter_ne.
    + right. right. by exists o'.
    + exists es. unfold sparse_is. rewrite !lookup_alter_ne by done. done.
Qed.

Lemma log_ok_set_offset m w x :
  log_ok w -> w !! offsetPath m = None ->
  x = [] \/ (exists v, in_u64 v /\ x = hton v) ->
  log_ok (<[offsetPath m := x]> w).
Proof.
  intros (He & Hd & es & Hs & Hu & Hc & Hv) Hn Hx.
  assert (offsetPath MODE_ENCRYPT <> sparsePath MODE_ENCRYPT) as N1 by discriminate.
  assert (offsetPath MODE_DECRYPT <> sparsePath MODE_ENCRYPT) as N2 by discriminate.
  assert (offsetPath MODE_DECRYPT <> offsetPath MODE_ENCRYPT) as N3 by discriminate.
  assert (offsetPath MODE_ENCRYPT <> offsetPath MODE_DECRYPT) as N4 by discriminate.
  assert (offs_ok (<[offsetPath m := x]> w) (offsetPath m)) as Hnew.
  { unfold offs_ok. rewrite lookup_insert_eq.
    destruct Hx as [->|(v & Hv' & ->)]; [by auto|]. right. right. by exists v. }
  destruct (offsetPath_cases m) as [[_ Hm]|[_ Hm]]; rewrite Hm in *.
  - split; [done|]. split; [unfold offs_ok; by rewrite lookup_insert_ne|].
    destruct Hv as [->|(v & _ & Hf & _)]; [|congruence].
    exists []. split; [|by auto using consecutive_nil].
    unfold sparse_is in *. rewrite lookup_insert_ne by done. done.
  - split; [unfold offs_ok; by rewrite lookup_insert_ne|]. split; [done|].
    exists es. unfold sparse_is. rewrite !lookup_insert_ne by done. done.
Qed.

Lemma log_ok_create_sparse w :
  log_ok w -> w !! sparsePath MODE_ENCRYPT = None ->
  log_ok (<[sparsePath MODE_ENCRYPT := []]> w).
Proof.
  intros (He & Hd & _) Hn.
  assert (sparsePath MODE_ENCRYPT <> offsetPath MODE_ENCRYPT) as N1 by discriminate.
  assert (sparsePath MODE_ENCRYPT <> offsetPath MODE_DECRYPT) as N2 by discriminate.
  split; [unfold offs_ok; by rewrite lookup_insert_ne|].
  split; [unfold offs_ok; by rewrite lookup_insert_ne|].
  exists []. split; [|by auto using consecutive_nil].
  right. by rewrite lookup_insert_eq.
Qed.

Variable a : Args.
Variable n : nat.
Hypothesis n_small : Z.of_nat n < two64.
Hypothesis cs_nonneg : 0 <= chunkSize a.

Lemma progress_ok_insert m o w p x :
  ~ log_path p -> progress_ok m o w -> progress_ok m o (<[p:=x]> w).
Proof. intros Hp. apply progress_ok_same. by apply same_logs_insert. Qed.

Lemma progress_ok_alter m o w p f :
  ~ log_path p -> progress_ok m o w -> progress_ok m o (alter f p w).
Proof. intros Hp. apply progress_ok_same. by apply same_logs_alter. Qed.

Lemma progress_ok_delete m o w p :
  ~ log_path p -> progress_ok m o w -> progress_ok m o (delete p w).
Proof. intros Hp. apply progress_ok_same. by apply same_logs_delete. Qed.

Lemma Next_bound d p cs chunk :
  Next d p cs = Some chunk -> (p + cs <= length d)%nat.
Proof. unfold Next. by case_bool_decide. Qed.

Ltac progress_chain :=
  repeat lazymatch goal with
    | |- progress_ok _ _ (insert _ _ _) =>
        eapply progress_ok_insert; [apply tmp_not_log|]
    | |- progress_ok _ _ (delete _ _) =>
        eapply progress_ok_delete; [apply tmp_not_log|]
    | |- progress_ok _ _ (alter (splice _ _) _ _) =>
        eapply progress_ok_advance
    | |- progress_ok _ _ (alter _ (sparsePath _) _) =>
        eapply progress_ok_append; [eassumption|]
    | |- progress_ok _ _ (alter _ _ _) =>
        eapply progress_ok_alter; [apply tmp_not_log|]
    | |- progress_ok _ _ _ => eassumption
    end.

Lemma wp_process_chunk_log sok chunk l s :
  chunk_inv a n l s ->
  Next (dev s) (pos l) (Z.to_nat (chunkSize a)) = Some chunk ->
  wp (process_chunk a sok chunk l)
     (fun l' s' => offset l' = offset l + chunkSize a /\ pos l' = pos l
                   /\ length (dev s') = n
                   /\ progress_ok (mode a) (offset l') (wd s'))
     (disk_inv n) s.
Proof.
  intros (Hsync & Hn & Hp) Hnext. apply Next_bound in Hnext.
  assert ((offset l + chunkSize a) mod two64 = offset l + chunkSize a) as Hmod.
  { apply Z.mod_small. lia. }
  unfold process_chunk, CreateFile, unlink, dev_write.
  repeat wp_step;
    repeat match goal with
           | H : negb (bool_decide _) = false |- _ =>
               apply negb_false_iff, bool_decide_eq_true in H
           end;
    unfold disk_inv; wp_simpl; rewrite ?Hmod;
    repeat match goal with
           | |- _ /\ _ => split
           | |- _ = _ => first [ done | rewrite length_splice; [done|lia] ]
           end;
    try (eapply progress_ok_log).
  all: progress_chain.
  all: destruct Hp as [? _]; unfold in_u64 in *; lia.
Qed.

Lemma wp_loop_log fuel sok l s :
  chunk_inv a n l s ->
  wp (loop fuel a sok l) (fun _ s' => disk_inv n s') (disk_inv n) s.
Proof.
  revert l s. induction fuel as [|fuel IH]; intros l s Hinv; cbn [loop].
  - apply wp_stop. destruct Hinv as (_ & Hn & Hp). split; [done|].
    by eapply progress_ok_log.
  - repeat wp_step.
    + eapply wp_mono; [by apply wp_process_chunk_log| |done].
      cbn beta. intros l' s' (Ho & Hpos & Hn' & Hp'). apply IH.
      unfold chunk_inv. wp_simpl. rewrite Ho in Hp'.
      destruct Hinv as (Hsync & _ & _).
      split; [lia|]. split; [done|]. by rewrite Ho in *.
    + destruct Hinv as (_ & Hn & Hp). split; [done|]. by eapply progress_ok_log.
Qed.

Lemma disk_inv_same s w' d' t' c' :
  disk_inv n s -> same_logs (wd s) w' -> length d' = n ->
  disk_inv n (mkState d' w' t' c').
Proof. intros [Hn Hl] Hw Hd. split; [done|]. by eapply log_ok_same. Qed.

Lemma wp_CreateFile_log path data (Q : unit -> State -> Prop) s :
  ~ log_path path -> disk_inv n s ->
  (forall s', disk_inv n s' -> same_logs (wd s) (wd s') -> Q tt s') ->
  wp (CreateFile path data) Q (disk_inv n) s.
Proof.
  intros Hp Hs HQ. unfold CreateFile.
  assert (same_logs (wd s) (<[path:=[]]> (wd s))) as H1
    by by apply same_logs_insert.
  assert (same_logs (wd s) (alter (fun old => old ++ data) path (<[path:=[]]> (wd s))))
    as H2.
  { eapply same_logs_trans; [done|]. by apply same_logs_alter. }
  repeat wp_step; try apply HQ; try done;
    eapply disk_inv_same; try done; apply Hs.
Qed.

Lemma wp_CreateFile_offset (Q : unit -> State -> Prop) s :
  disk_inv n s -> wd s !! offsetPath (mode a) = None ->
  (forall s', disk_inv n s' -> Q tt s') ->
  wp (CreateFile (offsetPath (mode a)) (hton 0)) Q (disk_inv n) s.
Proof.
  intros [Hn Hl] Hnone HQ. unfold CreateFile.
  assert (log_ok (<[offsetPath (mode a):=[]]> (wd s))) as H1.
  { apply log_ok_set_offset; auto. }
  assert (log_ok (alter (fun old => old ++ hton 0) (offsetPath (mode a))
                        (<[offsetPath (mode a):=[]]> (wd s)))) as H2.
  { rewrite alter_insert_eq. apply log_ok_set_offset; [done..|].
    right. exists 0. split; [|done]. unfold in_u64, two64. lia. }
  repeat wp_step; try apply HQ; by split.
Qed.

Lemma wp_CreateFile_sparse (Q : unit -> State -> Prop) o s :
  length (dev s) = n -> progress_ok (mode a) o (wd s) ->
  wd s !! sparsePath (mode a) = None ->
  (forall s', length (dev s') = n -> progress_ok (mode a) o (wd s') -> Q tt s') ->
  wp (CreateFile (sparsePath (mode a)) []) Q (disk_inv n) s.
Proof.
  intros Hn (Ho & Hf & Hl) Hnone HQ. unfold CreateFile.
  rewrite sparsePath_enc in *.
  assert (progress_ok (mode a) o (<[sparsePath MODE_ENCRYPT:=[]]> (wd s))) as H1.
  { split; [done|]. split; [|by apply log_ok_create_sparse].
    rewrite lookup_insert_ne; [done|]. intros H. symmetry in H.
    by apply offset_ne_sparse in H. }
  assert (alter (fun old : bytes => old ++ []) (sparsePath MODE_ENCRYPT)
            (<[sparsePath MODE_ENCRYPT:=[]]> (wd s))
          = <[sparsePath MODE_ENCRYPT:=[]]> (wd s)) as H2.
  { by rewrite alter_insert_eq. }
  repeat wp_step; try apply HQ; unfold disk_inv; wp_simpl; rewrite ?H2;
    try done; (split; [done|by eapply progress_ok_log]).
Qed.

Lemma not_exists_None {A} (x : option A) :
  negb (bool_decide (is_Some x)) = true -> x = None.
Proof.
  intros H. apply negb_true_iff, bool_decide_eq_false in H.
  by apply eq_None_not_Some.
Qed.

Ltac disk_tac :=
  unfold disk_inv in *; wp_simpl; try done.

Lemma wp_startup_log s :
  disk_inv n s ->
  wp (startup a)
     (fun r s' => length (dev s') = n /\ progress_ok (mode a) r.2 (wd s'))
     (disk_inv n) s.
Proof.
  intros Hs.
  unfold startup, check_args, load_keys, init_cipher, load_offset, CreateRandomFile.
  repeat first
    [ wp_step
    | apply wp_CreateFile_log; [first [apply iv_not_log|apply key_not_log]| |intros ? ? ?]
    | apply wp_CreateFile_offset; [|by apply not_exists_None|intros ? ?] ];
  disk_tac.
  all: match goal with
       | H : negb (bool_decide (length _ = 8%nat)) = false |- _ =>
           apply negb_false_iff, bool_decide_eq_true in H
       end.
  all: match goal with
       | H : _ /\ log_ok (wd ?s) |- _ /\ progress_ok _ _ (wd ?s) =>
           destruct H as [? ?]; split; [done|by apply progress_ok_load]
       end.
Qed.

Lemma main_log s : disk_inv n s -> disk_inv n (state_of (main a s)).
Proof.
  intros Hs.
  assert (wp (main a) (fun _ => disk_inv n) (disk_inv n) s) as H.
  { unfold main. apply wp_bind. eapply wp_mono; [by apply wp_startup_log| |done].
    cbn beta. intros [[devSize ctx0] offset0] s1 [Hn Hp]. cbn [snd] in Hp.
    assert (disk_inv n s1) as Hs1 by (split; [done|by eapply progress_ok_log]).
    unfold open_sparse, finish.
    repeat first
      [ wp_step
      | apply (wp_CreateFile_sparse _ offset0);
        [done|done|by apply not_exists_None|intros ? ? ?]
      | apply wp_CreateFile_log; [apply final_not_log| |intros ? ? ?]
      | eapply wp_mono; [apply wp_loop_log| cbn beta; intros ? ? ? | done] ];
    disk_tac.
    all: try (split; [done|by eapply progress_ok_log]).
    all: unfold chunk_inv; wp_simpl; split; [|done].
    all: match goal with
         | H : progress_ok _ ?o _ |- ?o = _ => destruct H as [[? _] _]; lia
         end. }
  unfold wp in H. by destruct (main a s).
Qed.

End Log.

Lemma log_ok_empty : log_ok ∅.
Proof.
  split; [by left|]. split; [by left|].
  exists []. split; [by left|]. by auto using consecutive_nil.
Qed.

Lemma runs_log rs d w :
  Z.of_nat (length d) < two64 ->
  Forall (fun r => 0 <= chunkSize r.1) rs ->
  log_ok w ->
  length (runs rs d w).1 = length d /\ log_ok (runs rs d w).2.
Proof.
  intros Hd Hrs. revert d w Hd.
  induction Hrs as [|[a kill] rs Ha Hrs IH]; intros d w Hd Hw; [done|].
  cbn [runs]. cbn [fst] in Ha.
  destruct (main_log a (length d) Hd Ha (mkState d w [] kill)) as [Hn Hl]; [done|].
  unfold run. destruct (IH _ _ ltac:(by rewrite Hn) Hl) as [IH1 IH2].
  split; [by rewrite IH1|done].
Qed.

Lemma log_ok_entries w sp :
  log_ok w -> w !! sparsePath MODE_ENCRYPT = Some sp ->
  consecutive Z.le (sparse_entries sp).
Proof.
  intros (_ & _ & es & Hs & Hu & Hc & _) Hsp.
  destruct Hs as [[Hn _]|Hs]; [congruence|].
  rewrite Hsp in Hs. apply (inj Some) in Hs. subst sp.
  by rewrite sparse_entries_encode.
Qed.

(** ** The loop computes [pure_loop] *)

Lemma splice_middle pre old new post :
  length new = length old ->
  splice (length pre) new (pre ++ old ++ post) = pre ++ new ++ post.
Proof.
  intros H. unfold splice. rewrite take_app_length. do 2 f_equal.
  rewrite H, app_assoc, <- length_app. apply drop_app_length.
Qed.

Lemma wd_after_transform (w : gmap string bytes) tmp offs sparse old sp g v :
  w !! tmp = None -> w !! sparse = Some sp -> w !! offs = Some old ->
  length old = 8%nat -> tmp <> offs -> tmp <> sparse ->
  delete tmp (alter (splice 0 (hton v)) offs (alter g tmp (<[tmp:=[]]> w)))
  = <[offs:=hton v]> (<[sparse:=sp]> w).
Proof.
  intros Ht Hs Ho Hlen N1 N2. apply map_eq. intros p.
  destruct (decide (p = tmp)) as [->|]; [by simplify_map_eq|].
  destruct (decide (p = offs)) as [->|].
  { simplify_map_eq. by rewrite splice_hton. }
  destruct (decide (p = sparse)) as [->|]; by simplify_map_eq.
Qed.

Lemma wd_after_sparse (w : gmap string bytes) offs sparse old sp x v :
  w !! sparse = Some sp -> w !! offs = Some old ->
  length old = 8%nat -> offs <> sparse ->
  alter (splice 0 (hton v)) offs (alter (fun o => o ++ x) sparse w)
  = <[offs:=hton v]> (<[sparse:=sp ++ x]> w).
Proof.
  intros Hs Ho Hlen N1. apply map_eq. intros p.
  destruct (decide (p = offs)) as [->|].
  { simplify_map_eq. by rewrite splice_hton. }
  destruct (decide (p = sparse)) as [->|]; by simplify_map_eq.
Qed.

Lemma wd_after_skip (w : gmap string bytes) offs sparse old sp v :
  w !! sparse = Some sp -> w !! offs = Some old ->
  length old = 8%nat -> offs <> sparse ->
  alter (splice 0 (hton v)) offs w = <[offs:=hton v]> (<[sparse:=sp]> w).
Proof.
  intros Hs Ho Hlen N1. apply map_eq. intros p.
  destruct (decide (p = offs)) as [->|].
  { simplify_map_eq. by rewrite splice_hton. }
  destruct (decide (p = sparse)) as [->|]; by simplify_map_eq.
Qed.

Ltac run_monad :=
  cbv beta iota delta
    [bind get ret tick stop exit print CreateFile unlink dev_write exists_
     after set_wd set_dev crash wd dev trace id];
  cbn [offset sparseOffset ctx pos p_dev p_sparse p_locals p_events fst snd negb].

Lemma process_chunk_run a sok chunk l pre post w t sp old q :
  w !! tmpPath (mode a) (offset l) = None ->
  w !! offsetPath (mode a) = Some old -> length old = 8%nat ->
  w !! sparsePath (mode a) = Some sp ->
  Z.of_nat (length chunk) = chunkSize a -> length chunk = (16 * q)%nat ->
  ctx_ok (ctx l) -> length pre = Z.to_nat (offset l) ->
  chunkSize a < 2 ^ 31 ->
  is_sparse (mode a) sok sp l chunk = Some (sparse_test (mode a) sok sp l chunk) ->
  process_chunk a sok chunk l (mkState (pre ++ chunk ++ post) w t None)
  = Ret (p_locals (pure_chunk a sok sp l chunk))
        (mkState (pre ++ p_dev (pure_chunk a sok sp l chunk) ++ post)
                 (<[offsetPath (mode a) := hton (offset (p_locals (pure_chunk a sok sp l chunk)))]>
                    (<[sparsePath (mode a) := p_sparse (pure_chunk a sok sp l chunk)]> w))
                 (t ++ p_events (pure_chunk a sok sp l chunk)) None).
Proof.
  intros Htmp Hoff Hold Hsp Hlen Hq Hctx Hpre Hsmall Hscan.
  destruct (EVP_Update_ok (mode a) (ctx l) chunk q Hctx Hq) as [HL _].
  unfold process_chunk, pure_chunk. run_monad.
  rewrite Htmp, Hsp. cbn [default]. rewrite Hscan.
  rewrite EVPUpdateWrapper_in_range by lia.
  destruct (sparse_test (mode a) sok sp l chunk) as [az so].
  pose proof (offset_ne_sparse (mode a) (mode a)) as N1.
  pose proof (tmp_ne_offset (mode a) (mode a) (offset l)) as N2.
  pose proof (tmp_ne_sparse (mode a) (mode a) (offset l)) as N3.
  destruct az.
  - destruct (is_enc (mode a)) eqn:Hm; run_monad.
    + f_equal. f_equal.
      * by eapply wd_after_sparse.
      * by rewrite <- !app_assoc.
    + f_equal. f_equal.
      * by eapply wd_after_skip.
      * by rewrite <- !app_assoc.
  - destruct (EVP_Update (mode a) (ctx l) chunk) as [ctx' block] eqn:Hupd.
    cbn [snd] in HL. run_monad.
    rewrite bool_decide_eq_true_2 by lia. run_monad.
    assert (is_Some
              (alter (splice 0 (hton ((offset l + chunkSize a) mod two64)))
                 (offsetPath (mode a))
                 (alter (fun old0 : bytes => old0 ++ block)
                    (tmpPath (mode a) (offset l))
                    (<[tmpPath (mode a) (offset l):=[]]> w))
               !! tmpPath (mode a) (offset l))) as Hex.
    { rewrite lookup_alter_ne by done. rewrite lookup_alter_eq, lookup_insert_eq. done. }
    unfold transform_events.
    destruct (dryRun a) eqn:Hdry; run_monad;
      rewrite (bool_decide_eq_true_2 _ Hex); run_monad.
    + f_equal. f_equal.
      * by eapply wd_after_transform.
      * by rewrite <- !app_assoc.
    + f_equal. f_equal.
      * rewrite <- Hpre. by apply splice_middle.
      * by eapply wd_after_transform.
      * by rewrite <- !app_assoc.
Qed.

Lemma pure_chunk_facts a sok sp l chunk q :
  ctx_ok (ctx l) -> length chunk = (16 * q)%nat ->
  let r := pure_chunk a sok sp l chunk in
  length (p_dev r) = length chunk /\ ctx_ok (ctx (p_locals r))
  /\ offset (p_locals r) = (offset l + chunkSize a) mod two64
  /\ pos (p_locals r) = pos l.
Proof.
  intros Hctx Hq. cbn zeta. unfold pure_chunk.
  destruct (EVP_Update_ok (mode a) (ctx l) chunk q Hctx Hq) as [HL HC].
  destruct (sparse_test _ _ _ _ _) as [[|] so].
  - by destruct (is_enc (mode a)).
  - destruct (EVP_Update _ _ _) as [ctx' block]. cbn in *.
    by destruct (dryRun a).
Qed.

(** The scan of a sparse file made of whole entries, from the start of
    an entry, stays inside the file and stops at the start of an entry. *)
Lemma sparse_scan_inside fuel sp so o :
  (length sp mod 8 = 0)%nat -> (so mod 8 = 0)%nat ->
  exists b so', sparse_scan fuel sp so o = Some (b, so') /\ (so' mod 8 = 0)%nat.
Proof.
  intros Hsp. revert so. induction fuel as [|fuel IH]; intros so Hso; cbn [sparse_scan].
  - by exists false, so.
  - case_bool_decide as Hlt; [|by exists false, so].
    rewrite bool_decide_eq_true_2.
    2:{ apply Nat.Div0.mod_divides in Hsp as [x Hx], Hso as [y Hy]. lia. }
    case_bool_decide.
    + apply IH. rewrite <- Nat.Div0.add_mod_idemp_l, Hso. done.
    + by eexists _, so.
Qed.

Lemma is_sparse_inside m sok sp l chunk :
  scan_ok m sp (sparseOffset l) ->
  is_sparse m sok sp l chunk = Some (sparse_test m sok sp l chunk)
  /\ (is_enc m = false -> ((sparse_test m sok sp l chunk).2 mod 8 = 0)%nat).
Proof.
  unfold sparse_test, is_sparse, scan_ok.
  destruct (is_enc m); [by intros _|]. intros [|[Hsp Hso]]; [done|].
  destruct sok; [|done].
  destruct (sparse_scan_inside (S (length sp)) sp (sparseOffset l) (offset l) Hsp Hso)
    as (b & so' & -> & Hso').
  done.
Qed.

Lemma pure_chunk_scan_ok a sok sp l chunk :
  scan_ok (mode a) sp (sparseOffset l) ->
  scan_ok (mode a) (p_sparse (pure_chunk a sok sp l chunk))
          (sparseOffset (p_locals (pure_chunk a sok sp l chunk))).
Proof.
  intros H. destruct (is_sparse_inside (mode a) sok sp l chunk H) as [_ Hso].
  unfold scan_ok in *. destruct (is_enc (mode a)) eqn:Hm; [by left|right].
  destruct H as [|[Hsp _]]; [done|]. specialize (Hso eq_refl).
  unfold pure_chunk. rewrite Hm.
  destruct (sparse_test _ _ _ _ _) as [[|] so]; cbn [snd] in Hso.
  - done.
  - by destruct (EVP_Update _ _ _).
Qed.

Lemma wd_collapse (w : gmap string bytes) offs sparse x y x' y' :
  offs <> sparse ->
  <[offs:=x']> (<[sparse:=y']> (<[offs:=x]> (<[sparse:=y]> w)))
  = <[offs:=x']> (<[sparse:=y']> w).
Proof.
  intros N. apply map_eq. intros p.
  destruct (decide (p = offs)) as [->|]; [by simplify_map_eq|].
  destruct (decide (p = sparse)) as [->|]; by simplify_map_eq.
Qed.

Lemma loop_run a sok q :
  0 < chunkSize a < 2 ^ 31 -> Z.to_nat (chunkSize a) = (16 * q)%nat ->
  forall chunks fuel l pre w t sp,
    Forall (fun c => length c = Z.to_nat (chunkSize a)) chunks ->
    (length chunks < fuel)%nat ->
    length pre = pos l -> offset l = Z.of_nat (pos l) ->
    Z.of_nat (length pre + length (concat chunks)) < two64 ->
    ctx_ok (ctx l) ->
    w !! offsetPath (mode a) = Some (hton (offset l)) ->
    w !! sparsePath (mode a) = Some sp ->
    (forall o, w !! tmpPath (mode a) o = None) ->
    scan_ok (mode a) sp (sparseOffset l) ->
    loop fuel a sok l (mkState (pre ++ concat chunks) w t None)
    = Ret (p_locals (pure_loop a sok chunks sp l))
          (mkState (pre ++ p_dev (pure_loop a sok chunks sp l))
             (<[offsetPath (mode a) := hton (offset (p_locals (pure_loop a sok chunks sp l)))]>
                (<[sparsePath (mode a) := p_sparse (pure_loop a sok chunks sp l)]> w))
             (t ++ p_events (pure_loop a sok chunks sp l)) None).
Proof.
  intros Hcs Hq chunks.
  induction chunks as [|c rest IH];
    intros fuel l pre w t sp Hall Hfuel Hpre Hsync Hsmall Hctx Hoff Hsp Htmp Hscan;
    (destruct fuel as [|fuel]; [cbn in Hfuel; lia|]).
  - cbn [loop pure_loop concat p_locals p_dev p_sparse p_events]. run_monad.
    unfold Next. rewrite bool_decide_eq_false_2.
    2:{ rewrite length_app. cbn. lia. }
    rewrite !app_nil_r. do 2 f_equal.
    rewrite (insert_id w (sparsePath (mode a))) by done.
    by rewrite insert_id.
  - apply Forall_cons in Hall as [Hc Hall].
    cbn [concat] in *. rewrite length_app in Hsmall.
    cbn [loop]. run_monad. unfold Next.
    rewrite bool_decide_eq_true_2.
    2:{ rewrite !length_app. lia. }
    assert (take (Z.to_nat (chunkSize a)) (drop (pos l) (pre ++ c ++ concat rest)) = c)
      as ->.
    { by rewrite <- Hpre, drop_app_length, <- Hc, take_app_length. }
    destruct (pure_chunk_facts a sok sp l c q Hctx ltac:(lia)) as (F1 & F2 & F3 & F4).
    pose proof (pure_chunk_scan_ok a sok sp l c Hscan) as Hscan'.
    rewrite (process_chunk_run a sok c l pre (concat rest) w t sp (hton (offset l)) q);
      try done; try lia; [|by apply is_sparse_inside].
    cbn [pure_loop p_locals p_dev p_sparse p_events].
    set (r1 := pure_chunk a sok sp l c) in *.
    rewrite Z.mod_small in F3 by lia.
    rewrite (app_assoc pre).
    rewrite (IH fuel _ (pre ++ p_dev r1) _ _ (p_sparse r1)); cbn [offset ctx pos sparseOffset];
      try done.
    + do 2 f_equal.
      * by rewrite <- app_assoc.
      * apply wd_collapse. apply offset_ne_sparse.
      * by rewrite <- app_assoc.
    + cbn in Hfuel. lia.
    + rewrite length_app. lia.
    + lia.
    + rewrite length_app. lia.
    + by rewrite lookup_insert_eq.
    + rewrite lookup_insert_ne by apply offset_ne_sparse. by rewrite lookup_insert_eq.
    + intros o. rewrite !lookup_insert_ne; [done| |].
      * intros H. symmetry in H. by apply tmp_ne_sparse in H.
      * intros H. symmetry in H. by apply tmp_ne_offset in H.
Qed.

(** ** The phases of [main] when the process is not killed *)

Lemma CreateFile_run path data d w t :
  CreateFile path data (mkState d w t None)
  = Ret tt (mkState d (<[path:=data]> w) (t ++ create_events path data) None).
Proof.
  unfold CreateFile. run_monad. do 2 f_equal.
  - by rewrite alter_insert_eq.
  - by rewrite <- !app_assoc.
Qed.

Lemma CreateRandomFile_run g size path d w t :
  CreateRandomFile g size path (mkState d w t None)
  = Ret (g + size)%nat
        (mkState d (<[path:=rnd <$> seq g size]> w)
                 (t ++ create_events path (rnd <$> seq g size)) None).
Proof.
  unfold CreateRandomFile. unfold bind at 1. by rewrite CreateFile_run.
Qed.

Lemma check_args_run a d w t :
  mode a <> MODE_DEFAULT -> chunkSize a mod 16 = 0 -> chunkSize a <> 0 ->
  Z.of_nat (length d) mod chunkSize a = 0 ->
  check_args a (mkState d w t None) = Ret (Z.of_nat (length d)) (mkState d w t None).
Proof.
  intros Hm H16 H0 Hd. unfold check_args.
  rewrite bool_decide_eq_false_2 by done.
  unfold blockSize. rewrite (bool_decide_eq_true_2 _ H16). run_monad.
  rewrite (bool_decide_eq_false_2 _ H0), (bool_decide_eq_true_2 _ Hd). done.
Qed.

Lemma load_keys_present a d w t iv key :
  w !! ivPath = Some iv -> w !! keyPath = Some key ->
  length iv = 16%nat -> length key = 32%nat ->
  load_keys a (mkState d w t None) = Ret (iv, key) (mkState d w t None).
Proof.
  intros Hiv Hkey Hl1 Hl2. unfold load_keys. run_monad.
  rewrite Hiv, Hkey.
  rewrite !bool_decide_eq_true_2 by done. run_monad. cbn [orb].
  rewrite Hiv, Hkey. unfold blockSize, keySize.
  rewrite !bool_decide_eq_true_2 by lia. done.
Qed.

Lemma load_keys_fresh a d w t :
  mode a <> MODE_DECRYPT -> w !! ivPath = None \/ w !! keyPath = None ->
  load_keys a (mkState d w t None)
  = Ret (fresh_iv, fresh_key)
        (mkState d (<[keyPath:=fresh_key]> (<[ivPath:=fresh_iv]> w))
           (t ++ create_events ivPath fresh_iv ++ create_events keyPath fresh_key)
           None).
Proof.
  intros Hm Hnone. unfold load_keys. run_monad.
  assert (negb (bool_decide (is_Some (w !! ivPath)))
          || negb (bool_decide (is_Some (w !! keyPath))) = true) as ->.
  { destruct Hnone as [-> | ->];
      rewrite (bool_decide_eq_false_2 (is_Some None)) by (by intros [? ?]);
      cbn [negb orb]; by rewrite ?orb_true_r. }
  rewrite (bool_decide_eq_false_2 _ Hm).
  rewrite CreateRandomFile_run. run_monad.
  rewrite CreateRandomFile_run. run_monad.
  rewrite lookup_insert_ne by discriminate. rewrite !lookup_insert_eq.
  unfold blockSize, keySize.
  rewrite !bool_decide_eq_true_2 by done. cbn [negb orb].
  by rewrite <- app_assoc.
Qed.

Lemma load_offset_present a d w t ofile :
  w !! offsetPath (mode a) = Some ofile -> length ofile = 8%nat ->
  load_offset a (mkState d w t None) = Ret (ntoh ofile) (mkState d w t None).
Proof.
  intros Hf Hlen. unfold load_offset. run_monad. rewrite Hf.
  rewrite bool_decide_eq_true_2 by done. run_monad.
  rewrite Hf. by rewrite (bool_decide_eq_true_2 _ Hlen).
Qed.

Lemma load_offset_missing a d w t :
  w !! offsetPath (mode a) = None ->
  load_offset a (mkState d w t None)
  = Ret 0 (mkState d (<[offsetPath (mode a):=hton 0]> w)
                   (t ++ create_events (offsetPath (mode a)) (hton 0)) None).
Proof.
  intros Hf. unfold load_offset. run_monad. rewrite Hf.
  rewrite bool_decide_eq_false_2 by (by intros [? ?]). run_monad.
  rewrite alter_insert_eq, lookup_insert_eq. cbn [app]. run_monad.
  by rewrite <- !app_assoc.
Qed.

Lemma open_sparse_present a d w t sp :
  w !! sparsePath (mode a) = Some sp ->
  open_sparse a (mkState d w t None)
  = Ret (sparse_usable (mode a) sp) (mkState d w t None).
Proof.
  intros Hf. unfold open_sparse, sparse_usable. run_monad. rewrite Hf.
  rewrite bool_decide_eq_true_2 by done. run_monad. rewrite Hf. cbn [default andb].
  destruct (is_enc (mode a)); [done|].
  destruct (bool_decide (sp = [])); [|done].
  by destruct open_empty_ok.
Qed.

Lemma open_sparse_missing a d w t :
  w !! sparsePath (mode a) = None ->
  open_sparse a (mkState d w t None)
  = Ret (sparse_usable (mode a) [])
        (mkState d (<[sparsePath (mode a):=[]]> w)
                 (t ++ create_events (sparsePath (mode a)) []) None).
Proof.
  intros Hf. unfold open_sparse, sparse_usable. run_monad. rewrite Hf.
  rewrite bool_decide_eq_false_2 by (by intros [? ?]). run_monad.
  rewrite alter_insert_eq, lookup_insert_eq. cbn [app default andb].
  rewrite !bool_decide_eq_true_2 by done. rewrite <- !app_assoc.
  destruct (is_enc (mode a)); [done|]. by destruct open_empty_ok.
Qed.

Lemma finish_run a l d w t :
  ctx_ok (ctx l) ->
  finish a l (mkState d w t None)
  = Stop (Exit 0) (mkState d w (t ++ [EvCipherFinal; EvPrint "Success!"]) None).
Proof.
  intros [Hb _]. unfold finish, EVPFinalWrapper. rewrite Hb.
  rewrite bool_decide_eq_false_2 by (cbn; lia). run_monad.
  by rewrite <- app_assoc.
Qed.

Lemma pure_loop_facts a sok q chunks :
  Forall (fun c => length c = (16 * q)%nat) chunks ->
  forall sp l, ctx_ok (ctx l) ->
    ctx_ok (ctx (p_locals (pure_loop a sok chunks sp l)))
    /\ length (p_dev (pure_loop a sok chunks sp l)) = length (concat chunks).
Proof.
  induction 1 as [|c rest Hc Hrest IH]; intros sp l Hctx; [done|].
  cbn [pure_loop p_locals p_dev concat].
  destruct (pure_chunk_facts a sok sp l c q Hctx Hc) as (F1 & F2 & _ & _).
  edestruct IH as [IH1 IH2]; [|split; [apply IH1|]]; [done|].
  rewrite !length_app, IH2. lia.
Qed.

Lemma length_concat_chunks (chunks : list bytes) n :
  Forall (fun c => length c = n) chunks ->
  length (concat chunks) = (length chunks * n)%nat.
Proof.
  induction 1 as [|c rest Hc Hrest IH]; [done|].
  cbn [concat length]. rewrite length_app, IH. lia.
Qed.

Lemma main_loop_run a q pre chunks w t s0 ctx0 offset0 :
  startup a s0
  = Ret (Z.of_nat (length (pre ++ concat chunks)), ctx0, offset0)
        (mkState (pre ++ concat chunks) w t None) ->
  0 < chunkSize a < 2 ^ 31 -> Z.to_nat (chunkSize a) = (16 * q)%nat ->
  Forall (fun c => length c = Z.to_nat (chunkSize a)) chunks -> chunks <> [] ->
  offset0 = Z.of_nat (length pre) ->
  Z.of_nat (length (pre ++ concat chunks)) < two64 ->
  ctx_ok ctx0 ->
  w !! offsetPath (mode a) = Some (hton offset0) ->
  (forall o, w !! tmpPath (mode a) o = None) ->
  scan_ok (mode a) (default [] (w !! sparsePath (mode a))) 0 ->
  let sp := default [] (w !! sparsePath (mode a)) in
  let r := pure_loop a (sparse_usable (mode a) sp) chunks sp
             (mkLocals offset0 0 ctx0 (length pre)) in
  main a s0
  = Stop (Exit 0)
      (mkState (pre ++ p_dev r)
         (<[offsetPath (mode a) := hton (offset (p_locals r))]>
            (<[sparsePath (mode a) := p_sparse r]> w))
         (t ++ (if w !! sparsePath (mode a) is Some _ then []
                else create_events (sparsePath (mode a)) [])
            ++ p_events r ++ [EvCipherFinal; EvPrint "Success!"])
         None).
Proof.
  intros Hstart Hcs Hq Hall Hne -> Hsmall Hctx Hofile Htmp Hscan sp r.
  assert (length chunks <= length (concat chunks))%nat as Hfuel.
  { rewrite (length_concat_chunks chunks _ Hall). nia. }
  assert (0 < length (concat chunks))%nat as Hpos.
  { rewrite (length_concat_chunks chunks _ Hall).
    destruct chunks; [done|]. cbn. nia. }
  rewrite length_app in Hsmall.
  unfold main. unfold bind at 1. rewrite Hstart.
  rewrite bool_decide_eq_false_2 by (rewrite length_app; lia).
  assert (Forall (fun c => length c = (16 * q)%nat) chunks) as Hall16.
  { eapply Forall_impl; [done|]. cbn. intros. lia. }
  destruct (pure_loop_facts a (sparse_usable (mode a) sp) q chunks Hall16 sp
              (mkLocals (Z.of_nat (length pre)) 0 ctx0 (length pre)) Hctx) as [Hfin _].
  subst r. unfold bind at 1.
  destruct (w !! sparsePath (mode a)) as [sp0|] eqn:Hsp; subst sp; cbn [default] in *.
  - rewrite (open_sparse_present _ _ _ _ sp0) by done.
    unfold bind at 1, get at 1. cbn [dev].
    unfold bind at 1.
    rewrite Nat2Z.id.
    rewrite (loop_run a _ q Hcs Hq chunks _ _ pre w t sp0); try done;
      cbn [offset pos ctx]; try lia.
    + rewrite finish_run by done.
      rewrite app_nil_l. rewrite <- !app_assoc. reflexivity.
    + rewrite length_app. lia.
  - rewrite open_sparse_missing by done.
    unfold bind at 1, get at 1. cbn [dev].
    unfold bind at 1.
    rewrite Nat2Z.id.
    rewrite (loop_run a _ q Hcs Hq chunks _ _ pre _ _ []); try done;
      cbn [offset pos ctx]; try lia.
    + rewrite finish_run by done.
      do 2 f_equal.
      * rewrite insert_insert_eq. done.
      * by rewrite <- !app_assoc.
    + rewrite length_app. lia.
    + rewrite lookup_insert_ne; [done|].
      intros H. symmetry in H. by apply offset_ne_sparse in H.
    + by rewrite lookup_insert_eq.
    + intros o. rewrite lookup_insert_ne; [done|].
      intros H. symmetry in H. by apply tmp_ne_sparse in H.
Qed.

Lemma length_encode es : length (encode_entries es) = (8 * length es)%nat.
Proof.
  unfold encode_entries. induction es as [|e es IH]; [done|].
  rewrite bind_cons, length_app, IH, length_hton. cbn [length]. lia.
Qed.

Lemma encode_app es1 es2 :
  encode_entries (es1 ++ es2) = encode_entries es1 ++ encode_entries es2.
Proof. apply bind_app. Qed.

Lemma p_dev_outs a sok chunks : forall sp l,
  p_dev (pure_loop a sok chunks sp l) = concat (pure_outs a sok chunks sp l).
Proof.
  induction chunks as [|c rest IH]; intros sp l; [done|].
  cbn [pure_loop pure_outs p_dev concat]. by rewrite IH.
Qed.

Lemma pure_outs_length a sok q chunks :
  Forall (fun c => length c = (16 * q)%nat) chunks ->
  forall sp l, ctx_ok (ctx l) ->
    Forall (fun c => length c = (16 * q)%nat) (pure_outs a sok chunks sp l).
Proof.
  induction 1 as [|c rest Hc Hrest IH]; intros sp l Hctx; [done|].
  cbn [pure_outs].
  destruct (pure_chunk_facts a sok sp l c q Hctx Hc) as (F1 & F2 & _ & _).
  apply Forall_cons. split; [lia|]. by apply IH.
Qed.

Lemma pure_loop_offset a sok q chunks :
  Forall (fun c => length c = (16 * q)%nat) chunks -> 0 <= chunkSize a ->
  forall sp l, ctx_ok (ctx l) -> 0 <= offset l ->
    offset l + Z.of_nat (length chunks) * chunkSize a < two64 ->
    offset (p_locals (pure_loop a sok chunks sp l))
    = offset l + Z.of_nat (length chunks) * chunkSize a.
Proof.
  intros Hall Hcs. induction Hall as [|c rest Hc Hrest IH]; intros sp l Hctx Ho Hsmall.
  - cbn. lia.
  - cbn [pure_loop p_locals length] in *.
    destruct (pure_chunk_facts a sok sp l c q Hctx Hc) as (F1 & F2 & F3 & _).
    rewrite Z.mod_small in F3 by nia.
    rewrite IH; cbn [offset ctx]; try done; nia.
Qed.

Lemma enc_sparse_log a sok chunks :
  mode a = MODE_ENCRYPT ->
  forall sp l,
    p_sparse (pure_loop a sok chunks sp l)
    = sp ++ encode_entries (zero_offsets (chunkSize a) (offset l) chunks).
Proof.
  intros Hm. induction chunks as [|c rest IH]; intros sp l.
  - cbn. by rewrite app_nil_r.
  - cbn [pure_loop p_sparse zero_offsets]. rewrite IH. cbn [offset].
    unfold pure_chunk. rewrite Hm. unfold sparse_test, is_sparse.
    cbn [is_enc default]. unfold id. fold (all_zero c).
    destruct (all_zero c).
    + cbn [p_sparse p_locals offset]. rewrite encode_app, <- app_assoc.
      unfold encode_entries at 2. cbn [mbind list_bind app]. by rewrite app_nil_r.
    + by destruct (EVP_Update _ _ _).
Qed.

Lemma concat_reshape (l : bytes) n k :
  length l = (n * k)%nat -> concat (reshape (replicate n k) l) = l.
Proof.
  revert l. induction n as [|n IH]; intros l Hl.
  - by destruct l.
  - cbn [replicate reshape concat]. rewrite IH.
    + apply take_drop.
    + rewrite length_drop. lia.
Qed.

Lemma Forall_length_reshape (l : bytes) n k :
  length l = (n * k)%nat ->
  Forall (fun c => length c = k) (reshape (replicate n k) l).
Proof.
  revert l. induction n as [|n IH]; intros l Hl; [done|].
  cbn [replicate reshape]. apply Forall_cons. split.
  - rewrite length_take. lia.
  - apply IH. rewrite length_drop. lia.
Qed.

Lemma main_already_done a s0 devSize ctx0 offset0 d w t :
  startup a s0 = Ret (devSize, ctx0, offset0) (mkState d w t None) ->
  offset0 >= devSize ->
  main a s0 = Stop (Exit 0) (mkState d w (t ++ [EvPrint "Already done"]) None).
Proof.
  intros Hs Hge. unfold main. unfold bind at 1. rewrite Hs.
  by rewrite (bool_decide_eq_true_2 _ Hge).
Qed.

(** ** Whole runs *)

Lemma chunks_size_ok cs q (chunks : list bytes) :
  0 < cs -> Z.to_nat cs = (16 * q)%nat ->
  Forall (fun c => length c = Z.to_nat cs) chunks ->
  cs mod 16 = 0 /\ cs <> 0 /\ Z.of_nat (length (concat chunks)) mod cs = 0.
Proof.
  intros Hcs Hq Hall. split; [|split; [lia|]].
  - replace cs with (Z.of_nat q * 16) by lia. apply Z_mod_mult.
  - rewrite (length_concat_chunks _ _ Hall).
    replace (Z.of_nat (length chunks * Z.to_nat cs)) with (Z.of_nat (length chunks) * cs)
      by lia.
    apply Z_mod_mult.
Qed.

Lemma fresh_iv_length : length fresh_iv = 16%nat.
Proof. reflexivity. Qed.

Lemma fresh_key_length : length fresh_key = 32%nat.
Proof. reflexivity. Qed.

Lemma enc_fresh_startup dry cs d :
  cs mod 16 = 0 -> cs <> 0 -> Z.of_nat (length d) mod cs = 0 ->
  startup (mkArgs MODE_ENCRYPT dry cs) (mkState d ∅ [] None)
  = Ret (Z.of_nat (length d), mkCtx fresh_key fresh_iv [], 0)
        (mkState d fresh_wd fresh_events None).
Proof.
  intros H16 H0 Hd. unfold startup, init_cipher. run_monad.
  rewrite check_args_run by done.
  rewrite load_keys_fresh; [|done|by left]. cbn [fst snd]. run_monad.
  rewrite load_offset_missing by done. unfold EVPInitWrapper.
  unfold fresh_wd, fresh_events. by rewrite <- !app_assoc.
Qed.

Lemma enc_fresh_run dry cs q chunks :
  0 < cs < 2 ^ 31 -> Z.to_nat cs = (16 * q)%nat ->
  Forall (fun c => length c = Z.to_nat cs) chunks -> chunks <> [] ->
  Z.of_nat (length (concat chunks)) < two64 ->
  let a := mkArgs MODE_ENCRYPT dry cs in
  let r := pure_loop a true chunks [] (start_locals fresh_key fresh_iv) in
  run a None (concat chunks) ∅
  = Stop (Exit 0)
      (mkState (p_dev r)
         (<[offsetPath MODE_ENCRYPT := hton (offset (p_locals r))]>
            (<[sparsePath MODE_ENCRYPT := p_sparse r]> fresh_wd))
         (fresh_events ++ create_events (sparsePath MODE_ENCRYPT) []
            ++ p_events r ++ [EvCipherFinal; EvPrint "Success!"])
         None).
Proof.
  intros Hcs Hq Hall Hne Hsmall a r.
  destruct (chunks_size_ok cs q chunks (proj1 Hcs) Hq Hall) as (H16 & H0 & Hd).
  unfold run.
  pose proof (main_loop_run a q [] chunks fresh_wd fresh_events
                (mkState (concat chunks) ∅ [] None)
                (mkCtx fresh_key fresh_iv []) 0) as H.
  cbn [app length mode chunkSize] in H.
  apply H; try done.
  - by apply enc_fresh_startup.
  - by left.
Qed.

Lemma keys_startup_first a d w t iv key :
  mode a <> MODE_DEFAULT -> chunkSize a mod 16 = 0 -> chunkSize a <> 0 ->
  Z.of_nat (length d) mod chunkSize a = 0 ->
  w !! ivPath = Some iv -> w !! keyPath = Some key ->
  length iv = 16%nat -> length key = 32%nat ->
  w !! offsetPath (mode a) = None ->
  startup a (mkState d w t None)
  = Ret (Z.of_nat (length d), mkCtx key iv [], 0)
        (mkState d (<[offsetPath (mode a) := hton 0]> w)
           (t ++ [EvCipherInit] ++ create_events (offsetPath (mode a)) (hton 0)) None).
Proof.
  intros Hm H16 H0 Hd Hiv Hkey Hl1 Hl2 Hoff. unfold startup, init_cipher. run_monad.
  rewrite check_args_run by done.
  rewrite (load_keys_present _ _ _ _ iv key) by done. cbn [fst snd]. run_monad.
  rewrite load_offset_missing by done. unfold EVPInitWrapper.
  by rewrite <- !app_assoc.
Qed.

Lemma keys_startup_resume a d w t iv key ofile :
  mode a <> MODE_DEFAULT -> chunkSize a mod 16 = 0 -> chunkSize a <> 0 ->
  Z.of_nat (length d) mod chunkSize a = 0 ->
  w !! ivPath = Some iv -> w !! keyPath = Some key ->
  length iv = 16%nat -> length key = 32%nat ->
  w !! offsetPath (mode a) = Some ofile -> length ofile = 8%nat ->
  startup a (mkState d w t None)
  = Ret (Z.of_nat (length d), mkCtx key iv [], ntoh ofile)
        (mkState d w (t ++ [EvCipherInit]) None).
Proof.
  intros Hm H16 H0 Hd Hiv Hkey Hl1 Hl2 Hoff Hlen. unfold startup, init_cipher. run_monad.
  rewrite check_args_run by done.
  rewrite (load_keys_present _ _ _ _ iv key) by done. cbn [fst snd]. run_monad.
  by rewrite (load_offset_present _ _ _ _ ofile).
Qed.

Lemma first_run a q chunks w iv key :
  mode a <> MODE_DEFAULT ->
  0 < chunkSize a < 2 ^ 31 -> Z.to_nat (chunkSize a) = (16 * q)%nat ->
  Forall (fun c => length c = Z.to_nat (chunkSize a)) chunks -> chunks <> [] ->
  Z.of_nat (length (concat chunks)) < two64 ->
  w !! ivPath = Some iv -> w !! keyPath = Some key ->
  length iv = 16%nat -> length key = 32%nat ->
  w !! offsetPath (mode a) = None ->
  (forall o, w !! tmpPath (mode a) o = None) ->
  scan_ok (mode a) (default [] (w !! sparsePath (mode a))) 0 ->
  let sp := default [] (w !! sparsePath (mode a)) in
  let r := pure_loop a (sparse_usable (mode a) sp) chunks sp (start_locals key iv) in
  run a None (concat chunks) w
  = Stop (Exit 0)
      (mkState (p_dev r)
         (<[offsetPath (mode a) := hton (offset (p_locals r))]>
            (<[sparsePath (mode a) := p_sparse r]> w))
         ([EvCipherInit] ++ create_events (offsetPath (mode a)) (hton 0)
            ++ (if w !! sparsePath (mode a) is Some _ then []
                else create_events (sparsePath (mode a)) [])
            ++ p_events r ++ [EvCipherFinal; EvPrint "Success!"])
         None).
Proof.
  intros Hm Hcs Hq Hall Hne Hsmall Hiv Hkey Hl1 Hl2 Hoff Htmp Hscan sp r.
  destruct (chunks_size_ok _ q chunks (proj1 Hcs) Hq Hall) as (H16 & H0 & Hd).
  unfold run.
  pose proof (main_loop_run a q [] chunks (<[offsetPath (mode a) := hton 0]> w)
                ([EvCipherInit] ++ create_events (offsetPath (mode a)) (hton 0))
                (mkState (concat chunks) w [] None) (mkCtx key iv []) 0) as H.
  cbn [app length] in H.
  assert (<[offsetPath (mode a):=hton 0]> w !! sparsePath (mode a)
          = w !! sparsePath (mode a)) as Hsp.
  { apply lookup_insert_ne, offset_ne_sparse. }
  rewrite Hsp in H. fold sp in H. fold r in H.
  rewrite H; try done.
  - do 2 f_equal.
    rewrite insert_insert_ne by (intros ?; by eapply offset_ne_sparse).
    rewrite insert_insert_eq.
    by rewrite insert_insert_ne by (intros ?; by eapply offset_ne_sparse).
  - by apply keys_startup_first.
  - by rewrite lookup_insert_eq.
  - intros o. rewrite lookup_insert_ne; [done|].
    intros He. symmetry in He. by apply tmp_ne_offset in He.
Qed.

(** Lookups in a working directory built by insertions. *)
Ltac path_ne :=
  let Hp := fresh in
  intros Hp; first [ discriminate Hp | cbn in Hp; discriminate Hp ].

Ltac lookup_wd :=
  unfold fresh_wd;
  repeat (rewrite lookup_insert_ne by path_ne);
  first [ rewrite lookup_insert_eq | rewrite lookup_empty ]; try done.

(** An event that is none of the given ones. *)
Ltac not_in_events H :=
  cbn in H;
  repeat (apply elem_of_cons in H as [H|H]; [discriminate H|]);
  by apply elem_of_nil in H.

(** ** The chunks of a run, one by one *)

Lemma pure_chunk_step a sok sp l chunk :
  offset (p_locals (pure_chunk a sok sp l chunk)) = (offset l + chunkSize a) mod two64
  /\ p_events (pure_chunk a sok sp l chunk)
     = (if (sparse_test (mode a) sok sp l chunk).1 then
          if is_enc (mode a) then sparse_events a (offset l)
          else [EvWrite (TFile (offsetPath (mode a))) 0
                  (hton ((offset l + chunkSize a) mod two64));
                EvFSync (TFile (offsetPath (mode a)))]
        else transform_events a (offset l)
               (EVP_Update (mode a) (ctx l) chunk).2)
  /\ ((sparse_test (mode a) sok sp l chunk).1 = true ->
      p_dev (pure_chunk a sok sp l chunk) = chunk
      /\ ctx (p_locals (pure_chunk a sok sp l chunk)) = ctx l)
  /\ (dryRun a = true -> p_dev (pure_chunk a sok sp l chunk) = chunk)
  /\ (mode a = MODE_DECRYPT -> p_sparse (pure_chunk a sok sp l chunk) = sp).
Proof.
  unfold pure_chunk.
  destruct (sparse_test (mode a) sok sp l chunk) as [[] so]; cbn [fst].
  - destruct (mode a); cbn; repeat split; congruence.
  - destruct (EVP_Update (mode a) (ctx l) chunk) as [c' block]. cbn.
    repeat split; try congruence. by intros ->.
Qed.

Lemma take_drop_chunk (l : list bytes) n : forall i c,
  Forall (fun c => length c = n) l -> l !! i = Some c ->
  take n (drop (i * n) (concat l)) = c.
Proof.
  induction l as [|c0 l IH]; intros i c Hall Hi; [done|].
  apply Forall_cons in Hall as [H0 Hall].
  destruct i as [|i]; cbn in Hi; cbn [concat].
  - apply (inj Some) in Hi as <-. rewrite Nat.mul_0_l, drop_0.
    by rewrite take_app_length'.
  - replace (S i * n)%nat with (length c0 + i * n)%nat by lia.
    rewrite <- drop_drop, drop_app_length. by apply IH.
Qed.

(** ** A sparse chunk, in any state

    What [process_chunk] does to a chunk that it takes for sparse, no
    stage file being in the way, from any state and whether or not the
    process is killed on the way. *)
Lemma wp_sparse_chunk_enc dry cs sok c l s :
  c = replicate (length c) 0 ->
  wd s !! tmpPath MODE_ENCRYPT (offset l) = None ->
  let a := mkArgs MODE_ENCRYPT dry cs in
  wp (process_chunk a sok c l)
     (fun l' s' => ctx l' = ctx l /\ dev s' = dev s
                   /\ trace s' = trace s ++ sparse_events a (offset l))
     (fun s' => dev s' = dev s
                /\ exists k, trace s' = trace s ++ take k (sparse_events a (offset l))) s.
Proof.
  intros Hz Htmp a.
  unfold process_chunk, dev_write, unlink. cbn [mode a dryRun is_enc].
  apply wp_bind, wp_get. rewrite Htmp. unfold is_sparse. cbn [is_enc].
  rewrite (bool_decide_eq_true_2 _ Hz).
  repeat wp_step; rewrite <- ?app_assoc; cbn [app];
    (split; [done|]); first [ by split | idtac ].
  - by exists 0%nat; rewrite app_nil_r.
  - by exists 1%nat.
  - by exists 2%nat.
  - by exists 3%nat.
Qed.

Lemma wp_sparse_chunk_dec dry cs sok chunk l s so :
  wd s !! tmpPath MODE_DECRYPT (offset l) = None ->
  is_sparse MODE_DECRYPT sok (default [] (wd s !! sparsePath MODE_DECRYPT)) l chunk
  = Some (true, so) ->
  let a := mkArgs MODE_DECRYPT dry cs in
  let skip := [EvWrite (TFile (offsetPath MODE_DECRYPT)) 0
                 (hton ((offset l + cs) mod two64));
               EvFSync (TFile (offsetPath MODE_DECRYPT))] in
  wp (process_chunk a sok chunk l)
     (fun l' s' => ctx l' = ctx l /\ dev s' = dev s /\ trace s' = trace s ++ skip)
     (fun s' => dev s' = dev s /\ exists k, trace s' = trace s ++ take k skip) s.
Proof.
  intros Htmp Hsp a skip.
  unfold process_chunk, dev_write, unlink. cbn [mode a dryRun chunkSize is_enc].
  apply wp_bind, wp_get. rewrite Htmp, Hsp.
  repeat wp_step; rewrite <- ?app_assoc; cbn [app];
    (split; [done|]); first [ by split | idtac ].
  - by exists 0%nat; rewrite app_nil_r.
  - by exists 1%nat.
Qed.

Section Chunks.
Variable a : Args.
Variable sok : bool.
Hypothesis cs_pos : 0 < chunkSize a.

Lemma pure_loop_touched chunks : forall sp l e o,
  0 <= offset l -> offset l + Z.of_nat (length chunks) * chunkSize a < two64 ->
  e ∈ p_events (pure_loop a sok chunks sp l) ->
  e = EvCipherUpdate o \/ (exists data, e = EvWrite TDev o data) ->
  exists i, pure_flags a sok chunks sp l !! i = Some false
            /\ o = offset l + Z.of_nat i * chunkSize a.
Proof.
  induction chunks as [|c chunks IH]; intros sp l e o H0 Hb He Hk.
  { cbn in He. by apply elem_of_nil in He. }
  cbn [pure_loop p_events pure_flags] in *.
  destruct (pure_chunk_step a sok sp l c) as (Ho & Hev & _).
  rewrite length_cons in Hb.
  assert ((offset l + chunkSize a) mod two64 = offset l + chunkSize a) as Hmod.
  { apply Z.mod_small. lia. }
  apply elem_of_app in He as [He|He].
  - rewrite Hev in He. destruct (sparse_test (mode a) sok sp l c).1 eqn:Hf.
    + exfalso. unfold sparse_events in He.
      destruct (is_enc (mode a)), Hk as [->|[data ->]];
        repeat (apply elem_of_cons in He as [He|He]; [discriminate He|]);
        by apply elem_of_nil in He.
    + exists 0%nat. split; [done|].
      unfold transform_events in He.
      destruct (dryRun a), Hk as [->|[data ->]]; cbn in He;
        repeat (apply elem_of_cons in He as [He|He];
                [first [discriminate He | injection He as ->; lia | injection He as -> _; lia]|]);
        by apply elem_of_nil in He.
  - pose proof (fun H1 H2 => IH _ _ e o H1 H2 He Hk) as IH'.
    cbn [offset] in IH'. rewrite Ho, Hmod in IH'.
    destruct IH' as (i & Hi & ->); [lia..|].
    exists (S i). split; [|lia].
    cbn [offset]. rewrite Ho, Hmod. exact Hi.
Qed.

Lemma pure_loop_updated chunks : forall sp l i,
  0 <= offset l -> offset l + Z.of_nat (length chunks) * chunkSize a < two64 ->
  pure_flags a sok chunks sp l !! i = Some false ->
  EvCipherUpdate (offset l + Z.of_nat i * chunkSize a)
    ∈ p_events (pure_loop a sok chunks sp l).
Proof.
  induction chunks as [|c chunks IH]; intros sp l i H0 Hb Hi; [done|].
  cbn [pure_loop p_events pure_flags] in *.
  destruct (pure_chunk_step a sok sp l c) as (Ho & Hev & _).
  rewrite length_cons in Hb.
  assert ((offset l + chunkSize a) mod two64 = offset l + chunkSize a) as Hmod.
  { apply Z.mod_small. lia. }
  apply elem_of_app. destruct i as [|i]; cbn in Hi.
  - left. apply (inj Some) in Hi. rewrite Hev, Hi.
    replace (offset l + Z.of_nat 0 * chunkSize a) with (offset l) by lia.
    apply elem_of_cons. by left.
  - right. apply IH in Hi; cbn [offset] in *; rewrite ?Ho, ?Hmod in *; [|lia..].
    replace (offset l + Z.of_nat (S i) * chunkSize a)
      with (offset l + chunkSize a + Z.of_nat i * chunkSize a) by lia.
    done.
Qed.

Lemma pure_loop_appended chunks : forall sp l i,
  mode a = MODE_ENCRYPT ->
  0 <= offset l -> offset l + Z.of_nat (length chunks) * chunkSize a < two64 ->
  pure_flags a sok chunks sp l !! i = Some true ->
  EvAppend (sparsePath MODE_ENCRYPT) (hton (offset l + Z.of_nat i * chunkSize a))
    ∈ p_events (pure_loop a sok chunks sp l).
Proof.
  induction chunks as [|c chunks IH]; intros sp l i Hm H0 Hb Hi; [done|].
  cbn [pure_loop p_events pure_flags] in *.
  destruct (pure_chunk_step a sok sp l c) as (Ho & Hev & _).
  rewrite length_cons in Hb.
  assert ((offset l + chunkSize a) mod two64 = offset l + chunkSize a) as Hmod.
  { apply Z.mod_small. lia. }
  apply elem_of_app. destruct i as [|i]; cbn in Hi.
  - left. apply (inj Some) in Hi. rewrite Hev, Hi, Hm. cbn [is_enc].
    replace (offset l + Z.of_nat 0 * chunkSize a) with (offset l) by lia.
    unfold sparse_events. rewrite Hm. apply elem_of_cons. by left.
  - right. apply IH in Hi; cbn [offset] in *; rewrite ?Ho, ?Hmod in *; [|done|lia..].
    replace (offset l + Z.of_nat (S i) * chunkSize a)
      with (offset l + chunkSize a + Z.of_nat i * chunkSize a) by lia.
    done.
Qed.

Lemma pure_outs_sparse chunks : forall sp l i,
  pure_flags a sok chunks sp l !! i = Some true ->
  pure_outs a sok chunks sp l !! i = chunks !! i.
Proof.
  induction chunks as [|c chunks IH]; intros sp l i Hi; [done|].
  cbn [pure_outs pure_flags] in *.
  destruct (pure_chunk_step a sok sp l c) as (_ & _ & Hd & _).
  destruct i as [|i]; cbn in Hi |- *.
  - apply (inj Some) in Hi. f_equal. by apply Hd.
  - by apply IH.
Qed.

Lemma pure_outs_dry chunks : forall sp l,
  dryRun a = true -> pure_outs a sok chunks sp l = chunks.
Proof.
  induction chunks as [|c chunks IH]; intros sp l Hdry; [done|].
  cbn [pure_outs].
  destruct (pure_chunk_step a sok sp l c) as (_ & _ & _ & Hd & _).
  rewrite Hd, IH; done.
Qed.

Lemma enc_flags chunks : forall sp l,
  mode a = MODE_ENCRYPT -> pure_flags a sok chunks sp l = all_zero <$> chunks.
Proof.
  induction chunks as [|c chunks IH]; intros sp l Hm; [done|].
  cbn [pure_flags fmap list_fmap]. rewrite IH by done. f_equal.
  unfold sparse_test. by rewrite Hm.
Qed.

Lemma dec_empty_flags chunks : forall l,
  mode a = MODE_DECRYPT ->
  pure_flags a sok chunks [] l = replicate (length chunks) false.
Proof.
  induction chunks as [|c chunks IH]; intros l Hm; [done|].
  cbn [pure_flags length replicate].
  destruct (pure_chunk_step a sok [] l c) as (_ & _ & _ & _ & Hsp).
  rewrite Hsp, IH by done. f_equal.
  unfold sparse_test. rewrite Hm. cbn. by destruct sok.
Qed.

Lemma dec_sparse_log chunks : forall sp l,
  mode a = MODE_DECRYPT -> p_sparse (pure_loop a sok chunks sp l) = sp.
Proof.
  induction chunks as [|c chunks IH]; intros sp l Hm; [done|].
  cbn [pure_loop p_sparse].
  destruct (pure_chunk_step a sok sp l c) as (_ & _ & _ & _ & Hsp).
  rewrite IH by done. by apply Hsp.
Qed.

End Chunks.

(** ** The cipher's round trip *)

Section Cipher.

Hypothesis E_length : forall k b, length b = 16%nat -> length (E k b) = 16%nat.
Hypothesis D_E : forall k b, length b = 16%nat -> D k (E k b) = b.

Lemma xor_block_cancel p c :
  length p = length c -> xor_block (xor_block p c) c = p.
Proof.
  unfold xor_block. revert c. induction p as [|x p IH]; intros [|y c] H; try done.
  cbn. injection H as H. rewrite IH by done. f_equal.
  rewrite Z.lxor_assoc, Z.lxor_nilpotent. apply Z.lxor_0_r.
Qed.

Lemma cbc_roundtrip q k c data :
  length c = 16%nat -> length data = (16 * q)%nat ->
  cbc_decrypt q k c (cbc_encrypt q k c data).1
  = (data, (cbc_encrypt q k c data).2).
Proof.
  revert c data. induction q as [|q IH]; intros c data Hc Hd.
  - by destruct data.
  - cbn [cbc_encrypt].
    assert (length (xor_block (take 16 data) c) = 16%nat) as Hx.
    { unfold xor_block. rewrite length_zip_with, length_take. lia. }
    rewrite (block16_id (E k _)) by by apply E_length.
    specialize (IH (E k (xor_block (take 16 data) c)) (drop 16 data)
                   (E_length _ _ Hx)).
    rewrite length_drop in IH. specialize (IH ltac:(lia)).
    destruct (cbc_encrypt q k _ (drop 16 data)) as [out c'].
    cbn [fst snd cbc_decrypt] in *.
    rewrite take_app_length' by (symmetry; by apply E_length).
    rewrite drop_app_length' by (symmetry; by apply E_length).
    rewrite IH. rewrite D_E by done. rewrite block16_id by done.
    rewrite xor_block_cancel by (rewrite length_take; lia).
    by rewrite take_drop.
Qed.

Lemma EVP_Update_roundtrip ce cd chunk q :
  ctx_ok ce -> ckey cd = ckey ce -> chain cd = chain ce -> cbuf cd = [] ->
  length chunk = (16 * q)%nat ->
  EVP_Update MODE_DECRYPT cd (EVP_Update MODE_ENCRYPT ce chunk).2
  = ((EVP_Update MODE_ENCRYPT ce chunk).1, chunk).
Proof.
  intros [Hb Hc] Hk Hch Hbd Hq.
  destruct (EVP_Update_ok MODE_ENCRYPT ce chunk q) as [HL _]; [done..|].
  unfold EVP_Update in *. rewrite Hb, Hbd, Hk, Hch in *. cbn [app is_enc] in *.
  assert (length chunk / 16 = q)%nat as Hn.
  { rewrite Hq, Nat.mul_comm. by apply Nat.div_mul. }
  rewrite Hn in *.
  pose proof (cbc_roundtrip q (ckey ce) (chain ce) chunk Hc Hq) as Hrt.
  destruct (cbc_encrypt q _ _ chunk) as [out c']. cbn [fst snd] in *.
  rewrite HL, Hn, Hrt. cbn [ckey]. f_equal. f_equal.
  rewrite !drop_ge by lia. done.
Qed.

Lemma read_entry es1 e es3 :
  in_u64 e ->
  ntoh (take 8 (drop (8 * length es1) (encode_entries (es1 ++ e :: es3)))) = e.
Proof.
  intros He. rewrite encode_app, <- length_encode, drop_app_length.
  unfold encode_entries at 1. rewrite bind_cons.
  rewrite take_app_length' by done. by apply ntoh_hton.
Qed.

Lemma sparse_scan_skip es2 : forall es1 es3 o fuel,
  Forall in_u64 (es1 ++ es2 ++ es3) -> Forall (fun e => e < o) es2 ->
  (forall e, head es3 = Some e -> o <= e) ->
  (length es2 < fuel)%nat ->
  sparse_scan fuel (encode_entries (es1 ++ es2 ++ es3)) (8 * length es1) o
  = Some (bool_decide (head es3 = Some o), (8 * length (es1 ++ es2))%nat).
Proof.
  induction es2 as [|e es2 IH]; intros es1 es3 o fuel Hu Hlt Hge Hfuel;
    (destruct fuel as [|fuel]; [cbn in Hfuel; lia|]); cbn [sparse_scan app].
  - rewrite app_nil_r. rewrite length_encode. destruct es3 as [|e es3].
    + rewrite app_nil_r, bool_decide_eq_false_2 by lia. done.
    + rewrite bool_decide_eq_true_2 by (rewrite length_app; cbn; lia).
      rewrite bool_decide_eq_true_2 by (rewrite length_app; cbn; lia).
      rewrite read_entry.
      2:{ apply Forall_app in Hu as [_ Hu]. by apply Forall_cons in Hu as [? _]. }
      rewrite bool_decide_eq_false_2 by (specialize (Hge e eq_refl); lia).
      do 2 f_equal. apply bool_decide_ext. cbn. split; [by intros ->|by intros [= ->]].
  - apply Forall_cons in Hlt as [He Hlt].
    rewrite length_encode. rewrite bool_decide_eq_true_2 by (rewrite !length_app; cbn; lia).
    rewrite bool_decide_eq_true_2 by (rewrite !length_app; cbn; lia).
    rewrite read_entry.
    2:{ apply Forall_app in Hu as [_ Hu]. by apply Forall_cons in Hu as [? _]. }
    rewrite (bool_decide_eq_true_2 _ He).
    replace (8 * length es1 + 8)%nat with (8 * length (es1 ++ [e]))%nat
      by (rewrite length_app; cbn; lia).
    replace (es1 ++ e :: es2 ++ es3) with ((es1 ++ [e]) ++ es2 ++ es3)
      by (by rewrite <- app_assoc).
    rewrite IH; try done.
    + by rewrite <- !app_assoc.
    + by rewrite <- app_assoc.
    + cbn in Hfuel. lia.
Qed.

Lemma zero_offsets_bound cs chunks : forall o,
  0 < cs -> 0 <= o -> o + Z.of_nat (length chunks) * cs < two64 ->
  Forall (fun e => o <= e < o + Z.of_nat (length chunks) * cs) (zero_offsets cs o chunks).
Proof.
  induction chunks as [|c rest IH]; intros o Hcs Ho Hsmall; [done|].
  cbn [zero_offsets]. cbn [length] in *.
  rewrite Z.mod_small by nia.
  apply Forall_app. split.
  - destruct (all_zero c); [|done]. apply Forall_singleton. nia.
  - eapply Forall_impl; [apply IH; nia|]. cbn. intros e He. nia.
Qed.

Lemma sparse_test_dec es1 es2 es3 l chunk :
  Forall in_u64 (es1 ++ es2 ++ es3) -> Forall (fun e => e < offset l) es2 ->
  (forall e, head es3 = Some e -> offset l <= e) ->
  sparseOffset l = (8 * length es1)%nat ->
  sparse_test MODE_DECRYPT
    (sparse_usable MODE_DECRYPT (encode_entries (es1 ++ es2 ++ es3)))
    (encode_entries (es1 ++ es2 ++ es3)) l chunk
  = (bool_decide (head es3 = Some (offset l)), (8 * length (es1 ++ es2))%nat).
Proof.
  intros Hu Hlt Hge Hso. unfold sparse_test, is_sparse, sparse_usable. cbn [is_enc orb].
  rewrite Hso.
  destruct (negb (bool_decide (encode_entries (es1 ++ es2 ++ es3) = [])) || open_empty_ok)
    eqn:Hok.
  - rewrite sparse_scan_skip; try done.
    rewrite length_encode, !length_app. lia.
  - apply orb_false_elim in Hok as [Hok _].
    apply negb_false_iff, bool_decide_eq_true in Hok.
    apply (f_equal length) in Hok. rewrite length_encode, !length_app in Hok.
    cbn in Hok.
    destruct es1; [|cbn in Hok; lia]. destruct es2; [|cbn in Hok; lia].
    destruct es3; [|cbn in Hok; lia]. done.
Qed.

Lemma pure_chunk_sparse a sok sp l chunk so :
  sparse_test (mode a) sok sp l chunk = (true, so) ->
  pure_chunk a sok sp l chunk
  = mkProgress chunk (if is_enc (mode a) then sp ++ hton (offset l) else sp)
      (mkLocals ((offset l + chunkSize a) mod two64) so (ctx l) (pos l))
      (if is_enc (mode a) then sparse_events a (offset l)
       else [EvWrite (TFile (offsetPath (mode a))) 0
               (hton ((offset l + chunkSize a) mod two64));
             EvFSync (TFile (offsetPath (mode a)))]).
Proof. intros H. unfold pure_chunk. rewrite H. by destruct (is_enc (mode a)). Qed.

Lemma pure_chunk_data a sok sp l chunk so :
  sparse_test (mode a) sok sp l chunk = (false, so) ->
  pure_chunk a sok sp l chunk
  = mkProgress
      (if dryRun a then chunk else (EVP_Update (mode a) (ctx l) chunk).2) sp
      (mkLocals ((offset l + chunkSize a) mod two64) so
                (EVP_Update (mode a) (ctx l) chunk).1 (pos l))
      (transform_events a (offset l) (EVP_Update (mode a) (ctx l) chunk).2).
Proof.
  intros H. unfold pure_chunk. rewrite H.
  by destruct (EVP_Update (mode a) (ctx l) chunk).
Qed.

Lemma sparse_test_enc sok sp l chunk :
  sparse_test MODE_ENCRYPT sok sp l chunk = (all_zero chunk, sparseOffset l).
Proof. done. Qed.

Lemma is_sparse_enc sok sp l chunk :
  is_sparse MODE_ENCRYPT sok sp l chunk = Some (all_zero chunk, sparseOffset l).
Proof. done. Qed.

Lemma cons_pair_eq {A B} (x : A) (y : B) l1 l1' l2 l2' :
  l1 = l1' /\ l2 = l2' -> x :: l1 = x :: l1' /\ y :: l2 = y :: l2'.
Proof. by intros [-> ->]. Qed.

Lemma pure_roundtrip ae ad q :
  mode ae = MODE_ENCRYPT -> dryRun ae = false ->
  mode ad = MODE_DECRYPT -> dryRun ad = false ->
  chunkSize ad = chunkSize ae ->
  0 < chunkSize ae -> Z.to_nat (chunkSize ae) = (16 * q)%nat ->
  forall chunks es1 es2 spe le ld soke,
    Forall (fun c => length c = Z.to_nat (chunkSize ae)) chunks ->
    offset ld = offset le -> 0 <= offset le ->
    offset le + Z.of_nat (length chunks) * chunkSize ae < two64 ->
    ctx_ok (ctx le) -> ckey (ctx ld) = ckey (ctx le) ->
    chain (ctx ld) = chain (ctx le) -> cbuf (ctx ld) = [] ->
    Forall in_u64 (es1 ++ es2) -> Forall (fun e => e < offset le) es2 ->
    sparseOffset ld = (8 * length es1)%nat ->
    let sp := encode_entries (es1 ++ es2 ++ zero_offsets (chunkSize ae) (offset le) chunks) in
    pure_outs ad (sparse_usable MODE_DECRYPT sp) (pure_outs ae soke chunks spe le) sp ld
    = chunks
    /\ pure_flags ad (sparse_usable MODE_DECRYPT sp) (pure_outs ae soke chunks spe le) sp ld
      = all_zero <$> chunks.
Proof.
  intros Hme Hde Hmd Hdd Hcs Hpos Hq chunks.
  induction chunks as [|c rest IH];
    intros es1 es2 spe le ld soke Hall Ho Ho0 Hsmall Hctx Hk Hch Hb Hu Hlt Hso sp;
    [done|].
  apply Forall_cons in Hall as [Hc Hall]. cbn [length] in Hsmall.
  assert ((offset le + chunkSize ae) mod two64 = offset le + chunkSize ae) as Hmod.
  { apply Z.mod_small. nia. }
  pose proof (zero_offsets_bound (chunkSize ae) rest (offset le + chunkSize ae)
                Hpos ltac:(lia) ltac:(nia)) as Hzb.
  cbn [pure_outs pure_flags zero_offsets fmap list_fmap] in *. subst sp. rewrite Hmod in *.
  pose proof (sparse_test_enc soke spe le c) as Hse. rewrite <- Hme in Hse.
  destruct (all_zero c) eqn:Hz.
  - (* a sparse chunk *)
    rewrite (pure_chunk_sparse ae _ _ _ _ _ Hse).
    cbn [p_dev p_sparse p_locals offset sparseOffset ctx pos app].
    assert (sparse_test (mode ad)
              (sparse_usable MODE_DECRYPT
                 (encode_entries (es1 ++ es2 ++ offset le
                    :: zero_offsets (chunkSize ae) (offset le + chunkSize ae) rest)))
              (encode_entries (es1 ++ es2 ++ offset le
                    :: zero_offsets (chunkSize ae) (offset le + chunkSize ae) rest))
              ld c = (true, (8 * length (es1 ++ es2))%nat)) as Hsd.
    { rewrite Hmd, sparse_test_dec; try done.
      - by rewrite Ho, bool_decide_eq_true_2.
      - rewrite app_assoc. apply Forall_app. split; [done|].
        apply Forall_cons. split; [unfold in_u64; nia|].
        eapply Forall_impl; [done|]. unfold in_u64. cbn. intros; nia.
      - by rewrite Ho.
      - rewrite Ho. intros e [= <-]. lia. }
    rewrite (pure_chunk_sparse ad _ _ _ _ _ Hsd). rewrite Hsd.
    cbn [p_dev p_sparse p_locals offset sparseOffset ctx pos fst].
    rewrite Hmd, Hmod. cbn [is_enc].
    apply cons_pair_eq.
    rewrite Ho, Hcs, Hmod.
    replace (es1 ++ es2 ++ offset le :: zero_offsets (chunkSize ae) (offset le + chunkSize ae) rest)
      with ((es1 ++ es2) ++ [offset le] ++ zero_offsets (chunkSize ae) (offset le + chunkSize ae) rest)
      by (by rewrite <- app_assoc).
    apply (IH _ _ _ (mkLocals (offset le + chunkSize ae) _ _ _));
      cbn [offset sparseOffset ctx pos]; try done; try lia.
    + apply Forall_app. split; [done|].
      apply Forall_singleton. unfold in_u64. nia.
    + apply Forall_singleton. lia.
  - (* a chunk that goes through the cipher *)
    rewrite (pure_chunk_data ae _ _ _ _ _ Hse). rewrite Hme, Hde, Hmod.
    cbn [p_dev p_sparse p_locals offset sparseOffset ctx pos app].
    pose proof (EVP_Update_roundtrip (ctx le) (ctx ld) c q Hctx Hk Hch Hb
                  ltac:(lia)) as Hrt.
    destruct (EVP_Update_ok MODE_ENCRYPT (ctx le) c q Hctx ltac:(lia)) as [_ Hctx'].
    assert (sparse_test (mode ad)
              (sparse_usable MODE_DECRYPT
                 (encode_entries (es1 ++ es2
                    ++ zero_offsets (chunkSize ae) (offset le + chunkSize ae) rest)))
              (encode_entries (es1 ++ es2
                    ++ zero_offsets (chunkSize ae) (offset le + chunkSize ae) rest))
              ld (EVP_Update MODE_ENCRYPT (ctx le) c).2
            = (false, (8 * length (es1 ++ es2))%nat)) as Hsd.
    { rewrite Hmd, sparse_test_dec; try done.
      - rewrite bool_decide_eq_false_2; [done|].
        rewrite Ho. intros He. destruct (zero_offsets _ _ rest) as [|e' ?]; [done|].
        injection He as ->. apply Forall_cons in Hzb as [? _]. lia.
      - rewrite app_assoc. apply Forall_app. split; [done|].
        eapply Forall_impl; [done|]. unfold in_u64. cbn. intros; nia.
      - by rewrite Ho.
      - rewrite Ho. intros e He. destruct (zero_offsets _ _ rest) as [|e' ?]; [done|].
        injection He as <-. apply Forall_cons in Hzb as [? _]. lia. }
    rewrite (pure_chunk_data ad _ _ _ _ _ Hsd). rewrite Hsd. rewrite Hmd, Hdd, Hrt.
    cbn [p_dev p_sparse p_locals offset sparseOffset ctx pos fst snd].
    apply cons_pair_eq.
    rewrite Ho, Hcs, Hmod.
    replace (es1 ++ es2 ++ zero_offsets (chunkSize ae) (offset le + chunkSize ae) rest)
      with ((es1 ++ es2) ++ [] ++ zero_offsets (chunkSize ae) (offset le + chunkSize ae) rest)
      by (by rewrite <- app_assoc).
    apply (IH _ _ _ (mkLocals (offset le + chunkSize ae) _ _ _));
      cbn [offset sparseOffset ctx pos]; try done; try lia.
    + by destruct Hctx'.
    + by rewrite app_nil_r.
Qed.

Lemma zero_offsets_elem cs chunks : forall o (i : nat) c,
  0 < cs -> 0 <= o -> o + Z.of_nat (length chunks) * cs < two64 ->
  chunks !! i = Some c -> all_zero c = true ->
  (o + Z.of_nat i * cs) ∈ zero_offsets cs o chunks.
Proof.
  induction chunks as [|c0 chunks IH]; intros o i c Hcs Ho Hb Hi Hz; [done|].
  rewrite length_cons in Hb. cbn [zero_offsets]. apply elem_of_app.
  destruct i as [|i]; cbn in Hi.
  - apply (inj Some) in Hi as ->. rewrite Hz. left.
    replace (o + Z.of_nat 0 * cs) with o by lia. apply elem_of_cons. by left.
  - right. rewrite Z.mod_small by lia.
    replace (o + Z.of_nat (S i) * cs) with (o + cs + Z.of_nat i * cs) by lia.
    apply (IH _ _ c); try done; lia.
Qed.

Lemma pure_outs_count a sok chunks : forall sp l,
  length (pure_outs a sok chunks sp l) = length chunks.
Proof.
  induction chunks as [|c chunks IH]; intros sp l; [done|].
  cbn [pure_outs length]. by rewrite IH.
Qed.

(** An encrypt run in an empty working directory and the decrypt run
    that follows it, as functions of the chunks. *)
Lemma roundtrip_states cs q chunks :
  0 < cs < 2 ^ 31 -> Z.to_nat cs = (16 * q)%nat ->
  Forall (fun c => length c = Z.to_nat cs) chunks -> chunks <> [] ->
  Z.of_nat (length (concat chunks)) < two64 ->
  let ae := mkArgs MODE_ENCRYPT false cs in
  let ad := mkArgs MODE_DECRYPT false cs in
  let l0 := start_locals fresh_key fresh_iv in
  let re := pure_loop ae true chunks [] l0 in
  let outs := pure_outs ae true chunks [] l0 in
  let sp := encode_entries (zero_offsets cs 0 chunks) in
  let rd := pure_loop ad (sparse_usable MODE_DECRYPT sp) outs sp l0 in
  let w1 := <[offsetPath MODE_ENCRYPT := hton (offset (p_locals re))]>
              (<[sparsePath MODE_ENCRYPT := sp]> fresh_wd) in
  run ae None (concat chunks) ∅
  = Stop (Exit 0)
      (mkState (concat outs) w1
         (fresh_events ++ create_events (sparsePath MODE_ENCRYPT) []
            ++ p_events re ++ [EvCipherFinal; EvPrint "Success!"]) None)
  /\ run ad None (concat outs) w1
     = Stop (Exit 0)
         (mkState (concat chunks)
            (<[offsetPath MODE_DECRYPT := hton (offset (p_locals rd))]>
               (<[sparsePath MODE_DECRYPT := p_sparse rd]> w1))
            ([EvCipherInit] ++ create_events (offsetPath MODE_DECRYPT) (hton 0)
               ++ p_events rd ++ [EvCipherFinal; EvPrint "Success!"]) None)
  /\ pure_flags ad (sparse_usable MODE_DECRYPT sp) outs sp l0 = all_zero <$> chunks.
Proof.
  intros Hcs Hq Hall Hne Hsmall ae ad l0 re outs sp rd w1.
  assert (Forall (fun c => length c = (16 * q)%nat) chunks) as Hall16.
  { eapply Forall_impl; [done|]. cbn. intros. lia. }
  assert (ctx_ok (ctx l0)) as Hctx by done.
  destruct (pure_loop_facts ae true q chunks Hall16 [] _ Hctx) as [_ Hlen].
  fold re in Hlen.
  assert (p_dev re = concat outs) as Hdev by apply p_dev_outs.
  pose proof (pure_outs_length ae true q chunks Hall16 [] _ Hctx) as Houts.
  fold outs in Houts.
  assert (p_sparse re = sp) as Hsp by (unfold re; by rewrite enc_sparse_log).
  assert (w1 !! sparsePath MODE_DECRYPT = Some sp) as Hw1 by (unfold w1; lookup_wd).
  destruct (pure_roundtrip ae ad q eq_refl eq_refl eq_refl eq_refl eq_refl (proj1 Hcs) Hq
              chunks [] [] [] l0 l0 true) as [Hrt Hfl]; try done.
  { cbn [l0 start_locals offset chunkSize ae].
    rewrite (length_concat_chunks _ _ Hall) in Hsmall. nia. }
  assert (pure_outs ad (sparse_usable MODE_DECRYPT sp) outs sp l0 = chunks)
    as Hrt' by exact Hrt.
  split; [|split; [|exact Hfl]].
  - pose proof (enc_fresh_run false cs q chunks Hcs Hq Hall Hne Hsmall) as H1.
    cbn zeta in H1. unfold ae at 1. rewrite H1. fold ae l0 re. by rewrite Hdev, Hsp.
  - rewrite (first_run ad q outs w1 fresh_iv fresh_key); cbn [mode chunkSize ad].
    + rewrite Hw1. cbn [default]. unfold id. fold l0 rd.
      unfold rd at 1. rewrite p_dev_outs, Hrt'. done.
    + done.
    + done.
    + done.
    + eapply Forall_impl; [done|]. cbn. intros. lia.
    + intros Houts0. apply Hne. apply nil_length_inv.
      rewrite <- (pure_outs_count ae true chunks [] l0).
      fold outs. by rewrite Houts0.
    + rewrite <- Hdev, Hlen. done.
    + unfold w1. lookup_wd.
    + unfold w1. lookup_wd.
    + apply fresh_iv_length.
    + apply fresh_key_length.
    + unfold w1. lookup_wd.
    + intros o. unfold w1. lookup_wd.
    + right. rewrite Hw1. cbn [default]. unfold id, sp.
      rewrite length_encode, Nat.mul_comm. by rewrite Nat.Div0.mod_mul.
Qed.

Lemma roundtrip_run cs q chunks :
  0 < cs < 2 ^ 31 -> Z.to_nat cs = (16 * q)%nat ->
  Forall (fun c => length c = Z.to_nat cs) chunks ->
  Z.of_nat (length (concat chunks)) < two64 ->
  let r1 := run (mkArgs MODE_ENCRYPT false cs) None (concat chunks) ∅ in
  let r2 := run (mkArgs MODE_DECRYPT false cs) None
              (dev (state_of r1)) (wd (state_of r1)) in
  outcome_of r1 = Some (Exit 0) /\ outcome_of r2 = Some (Exit 0)
  /\ dev (state_of r2) = concat chunks.
Proof.
  intros Hcs Hq Hall Hsmall.
  destruct (chunks_size_ok cs q chunks (proj1 Hcs) Hq Hall) as (H16 & H0 & Hd).
  destruct (decide (chunks = [])) as [->|Hne].
  - (* an empty device: both runs are already done *)
    cbn zeta. unfold run. cbn [concat] in *.
    rewrite (main_already_done _ _ _ _ _ _ _ _
               (enc_fresh_startup false cs [] H16 H0 Hd)) by (cbn; lia).
    cbn [state_of dev wd outcome_of].
    erewrite main_already_done.
    2:{ apply (keys_startup_first _ _ _ _ fresh_iv fresh_key); cbn [mode chunkSize];
          try done; lookup_wd. }
    + done.
    + cbn. lia.
  - destruct (roundtrip_states cs q chunks Hcs Hq Hall Hne Hsmall) as (H1 & H2 & _).
    cbn zeta. rewrite H1. cbn [state_of dev wd outcome_of]. by rewrite H2.
Qed.

(** ** Kill and resume *)

Lemma xor_block_comm a b : xor_block a b = xor_block b a.
Proof.
  unfold xor_block. revert b. induction a as [|x a IH]; intros [|y b]; try done.
  cbn. by rewrite IH, Z.lxor_comm.
Qed.

Lemma xor_block_length a b :
  length a = 16%nat -> length b = 16%nat -> length (xor_block a b) = 16%nat.
Proof. unfold xor_block. rewrite length_zip_with. lia. Qed.

Lemma xor_block_inj a b c :
  length a = length c -> length b = length c ->
  xor_block a c = xor_block b c -> a = b.
Proof.
  intros Ha Hb H.
  by rewrite <- (xor_block_cancel a c Ha), H, xor_block_cancel.
Qed.

Lemma E_inj k x y :
  length x = 16%nat -> length y = 16%nat -> E k x = E k y -> x = y.
Proof. intros Hx Hy H. by rewrite <- (D_E k x Hx), H, D_E. Qed.

Lemma fresh_run_two_chunks c0 :
  c0 = replicate 16 1 \/ c0 = replicate 16 2 ->
  let a := mkArgs MODE_ENCRYPT false 16 in
  let d := c0 ++ replicate 16 1 in
  dev (state_of (run a None d ∅))
  = first_block c0 ++ chained_block c0 (replicate 16 1)
  /\ forall k, k ∈ [17; 19; 21]%nat ->
       (runs [(a, Some k); (a, None)] d ∅).1
       = first_block c0 ++ restarted_block (replicate 16 1).
Proof.
  intros [-> | ->]; (split; [by vm_compute|]); intros k Hk;
    repeat (apply elem_of_cons in Hk as [->|Hk]; [by vm_compute|]);
    by apply elem_of_nil in Hk.
Qed.

Lemma restart_differs c0 c1 :
  length c0 = 16%nat -> length c1 = 16%nat ->
  E fresh_key (xor_block c0 fresh_iv) <> fresh_iv ->
  first_block c0 ++ restarted_block c1 <> first_block c0 ++ chained_block c0 c1.
Proof.
  intros H0 H1 Hne Heq. apply app_inv_head in Heq.
  pose proof fresh_iv_length as Hiv.
  assert (length (first_block c0) = 16%nat) as Hf by apply length_block16.
  unfold restarted_block, chained_block in Heq.
  rewrite !block16_id in Heq by (by apply E_length, xor_block_length).
  apply E_inj in Heq; [|by apply xor_block_length..].
  rewrite (xor_block_comm c1), (xor_block_comm c1) in Heq.
  apply xor_block_inj in Heq; [|congruence..].
  apply Hne. rewrite Heq at 2. unfold first_block.
  by rewrite block16_id by (by apply E_length, xor_block_length).
Qed.

(** C1 (the program).  A run that is resumed does not continue the CBC
    stream of the run that was killed: [EVP_EncryptInit_ex] starts the
    chain at the iv again (lines 220 to 235), while an uninterrupted run
    chains the chunk at the offset to the last block of the chunk before
    it.  On a device of two 16-byte chunks, neither all zeros, encrypted
    with [-s 16] in an empty working directory, a run killed after 17
    operations (the fsync of the stage file of the first chunk), after 19
    (the fsync of the device) or after 21 (the fsync of the offset file)
    and then run again ends with a second chunk that differs from the one
    of the uninterrupted run.  This holds for one of two first chunks at
    least, whatever the block cipher. *)
Theorem resume_restarts_chain :
  exists c0, (c0 = replicate 16 1 \/ c0 = replicate 16 2) /\
    let a := mkArgs MODE_ENCRYPT false 16 in
    let d := c0 ++ replicate 16 1 in
    dev (state_of (run a None d ∅))
    = first_block c0 ++ chained_block c0 (replicate 16 1)
    /\ forall k, k ∈ [17; 19; 21]%nat ->
         (runs [(a, Some k); (a, None)] d ∅).1
         = first_block c0 ++ restarted_block (replicate 16 1)
         /\ (runs [(a, Some k); (a, None)] d ∅).1
            <> dev (state_of (run a None d ∅)).
Proof.
  pose proof fresh_iv_length as Hiv.
  assert (exists c0, (c0 = replicate 16 1 \/ c0 = replicate 16 2)
                     /\ E fresh_key (xor_block c0 fresh_iv) <> fresh_iv)
    as (c0 & Hc0 & Hne).
  { destruct (decide (E fresh_key (xor_block (replicate 16 1) fresh_iv) = fresh_iv))
      as [H1|H1]; [|exists (replicate 16 1); auto].
    exists (replicate 16 2). split; [auto|]. intros H2.
    rewrite <- H1 in H2 at 2.
    apply E_inj in H2; [|by apply xor_block_length..].
    apply xor_block_inj in H2; [done|by rewrite Hiv..]. }
  exists c0. split; [done|].
  destruct (fresh_run_two_chunks c0 Hc0) as [Hrun Hres]. cbn zeta in Hrun, Hres.
  cbn zeta. split; [done|]. intros k Hk. split; [by apply Hres|].
  rewrite Hrun, (Hres k Hk). apply restart_differs; [|done..].
  by destruct Hc0 as [-> | ->].
Qed.

(** ** Encrypt, then decrypt *)

(** C2.  For a device of [N] chunks of [cs] bytes, [N] among 0, 1, 2, 64
    and 1024 and [cs] among 16, 64, 4096 and 65536, an encrypt run in an
    empty working directory (it draws the key and the iv) followed by a
    decrypt run in the same directory, both to completion, gives back the
    content of the device; both runs exit with success. *)
Theorem encrypt_then_decrypt (N : nat) cs d :
  N ∈ [0; 1; 2; 64; 1024]%nat -> cs ∈ [16; 64; 4096; 65536] ->
  length d = (N * Z.to_nat cs)%nat ->
  let r1 := run (mkArgs MODE_ENCRYPT false cs) None d ∅ in
  let r2 := run (mkArgs MODE_DECRYPT false cs) None
              (dev (state_of r1)) (wd (state_of r1)) in
  outcome_of r1 = Some (Exit 0) /\ outcome_of r2 = Some (Exit 0)
  /\ dev (state_of r2) = d.
Proof.
  intros HN Hcs Hd.
  assert (N <= 1024)%nat as HN'.
  { repeat (apply elem_of_cons in HN as [->|HN]; [lia|]). by apply elem_of_nil in HN. }
  assert (0 < cs <= 65536 /\ exists q, Z.to_nat cs = (16 * q)%nat) as [Hb [q Hq]].
  { repeat (apply elem_of_cons in Hcs as [->|Hcs];
            [split; [lia|]; first [by exists 1%nat | by exists 4%nat
                                  | by exists 256%nat | by exists 4096%nat]|]).
    by apply elem_of_nil in Hcs. }
  rewrite <- (concat_reshape d N (Z.to_nat cs) Hd).
  apply (roundtrip_run cs q); [lia|done|by apply Forall_length_reshape|].
  rewrite concat_reshape by done. unfold two64. nia.
Qed.

(** ** Sparse chunks *)

(** C3.  Encrypt leaves a chunk that is all zeros alone: it does not feed
    it to the cipher, whose context is the same after the chunk as before
    it, it does not write it to the device, where the chunk is still all
    zeros, and it appends the offset of the chunk to [enc_sparse].  The
    decrypt run that follows does not feed this chunk to the cipher
    either, and does not write it.

    The first three parts are about the loop body, for every chunk size,
    in any state of the device and of the working directory and whether
    or not the process is killed on the way: on a chunk of zeros encrypt
    leaves the cipher context as it is; when no stage file is at the
    offset it leaves the device as it is and performs the operations of
    [sparse_events], the append to [enc_sparse] first, and no other, as
    far as it gets; and decrypt, for a chunk whose offset the scan finds
    in the sparse file, leaves the device and the context as they are and
    only updates the offset file.  The last part is about an encrypt run
    and the decrypt run after it, from an empty working directory,
    neither killed, with a chunk size below 2^31 (from 2^31 on the cipher
    call of the first chunk that is not all zeros ends the run). *)
Theorem zero_chunks_bypass_cipher cs c :
  c = replicate (length c) 0 ->
  (forall dry sok l s l' s',
     process_chunk (mkArgs MODE_ENCRYPT dry cs) sok c l s = Ret l' s' ->
     ctx l' = ctx l)
  /\ (forall dry sok l s,
        wd s !! tmpPath MODE_ENCRYPT (offset l) = None ->
        let a := mkArgs MODE_ENCRYPT dry cs in
        let res := process_chunk a sok c l s in
        dev (state_of res) = dev s
        /\ (exists k, trace (state_of res)
                      = trace s ++ take k (sparse_events a (offset l)))
        /\ forall l' s', res = Ret l' s' ->
              trace s' = trace s ++ sparse_events a (offset l))
  /\ (forall dry sok l s chunk so,
        wd s !! tmpPath MODE_DECRYPT (offset l) = None ->
        is_sparse MODE_DECRYPT sok (default [] (wd s !! sparsePath MODE_DECRYPT))
          l chunk = Some (true, so) ->
        let res := process_chunk (mkArgs MODE_DECRYPT dry cs) sok chunk l s in
        let skip := [EvWrite (TFile (offsetPath MODE_DECRYPT)) 0
                       (hton ((offset l + cs) mod two64));
                     EvFSync (TFile (offsetPath MODE_DECRYPT))] in
        dev (state_of res) = dev s
        /\ (exists k, trace (state_of res) = trace s ++ take k skip)
        /\ forall l' s', res = Ret l' s' -> ctx l' = ctx l)
  /\ (forall q chunks (i : nat),
        0 < cs < 2 ^ 31 -> Z.to_nat cs = (16 * q)%nat ->
        Forall (fun c => length c = Z.to_nat cs) chunks ->
        Z.of_nat (length (concat chunks)) < two64 ->
        chunks !! i = Some c ->
        let o := Z.of_nat i * cs in
        let r1 := run (mkArgs MODE_ENCRYPT false cs) None (concat chunks) ∅ in
        let r2 := run (mkArgs MODE_DECRYPT false cs) None
                    (dev (state_of r1)) (wd (state_of r1)) in
        let chunk_at (d : bytes) := take (Z.to_nat cs) (drop (i * Z.to_nat cs) d) in
        (EvCipherUpdate o ∉ trace (state_of r1))
        /\ (forall data, EvWrite TDev o data ∉ trace (state_of r1))
        /\ chunk_at (dev (state_of r1)) = c
        /\ EvAppend (sparsePath MODE_ENCRYPT) (hton o) ∈ trace (state_of r1)
        /\ (exists es, wd (state_of r1) !! sparsePath MODE_ENCRYPT
                       = Some (encode_entries es)
                       /\ o ∈ es)
        /\ (EvCipherUpdate o ∉ trace (state_of r2))
        /\ (forall data, EvWrite TDev o data ∉ trace (state_of r2))
        /\ chunk_at (dev (state_of r2)) = c).
Proof.
  intros Hzero.
  assert (all_zero c = true) as Hz by (by apply bool_decide_eq_true_2).
  split; [|split; [|split]].
  - (* the cipher context *)
    intros dry sok l s l' s' Hrun.
    assert (wp (process_chunk (mkArgs MODE_ENCRYPT dry cs) sok c l)
              (fun l' _ => ctx l' = ctx l) (fun _ => True) s) as Hwp.
    { unfold process_chunk, dev_write, unlink. cbn [mode dryRun].
      repeat first [ rewrite is_sparse_enc, Hz | wp_step ]; done. }
    unfold wp in Hwp. by rewrite Hrun in Hwp.
  - (* the loop body on encrypt *)
    intros dry sok l s Htmp.
    pose proof (wp_sparse_chunk_enc dry cs sok c l s Hzero Htmp) as Hwp.
    cbn zeta in *. unfold wp in Hwp.
    destruct (process_chunk _ sok c l s) as [l' s'|out s']; cbn [state_of].
    + destruct Hwp as (_ & Hd & Ht). split; [done|]. split.
      * exists 4%nat. by rewrite Ht.
      * by intros ? ? [= <- <-].
    + destruct Hwp as [Hd Ht]. split; [done|]. split; [done|]. by intros ? ? [=].
  - (* the loop body on decrypt *)
    intros dry sok l s chunk so Htmp Hsc.
    pose proof (wp_sparse_chunk_dec dry cs sok chunk l s so Htmp Hsc) as Hwp.
    cbn zeta in *. unfold wp in Hwp.
    destruct (process_chunk _ sok chunk l s) as [l' s'|out s']; cbn [state_of].
    + destruct Hwp as (Hc & Hd & Ht). split; [done|]. split.
      * exists 2%nat. by rewrite Ht.
      * by intros ? ? [= <- <-].
    + destruct Hwp as [Hd Ht]. split; [done|]. split; [done|]. by intros ? ? [=].
  - (* an encrypt run and the decrypt run after it *)
    intros q chunks i Hcs0 Hq Hall Hsmall Hi o r1 r2 chunk_at.
    set (ae := mkArgs MODE_ENCRYPT false cs) in *.
    subst o r1 r2 chunk_at. pose proof (proj1 Hcs0) as Hcs.
    assert (chunks <> []) as Hne by (by intros ->).
    destruct (roundtrip_states cs q chunks Hcs0 Hq Hall Hne Hsmall) as (H1 & H2 & Hfd).
    cbn zeta in H1, H2, Hfd. fold ae in H1, H2, Hfd.
    rewrite H1. cbn [state_of dev wd trace]. rewrite H2. cbn [state_of dev wd trace].
    clear H1 H2.
    set (ad := mkArgs MODE_DECRYPT false cs) in *.
    set (l0 := start_locals fresh_key fresh_iv) in *.
    set (outs := pure_outs ae true chunks [] l0) in *.
    set (sp := encode_entries (zero_offsets cs 0 chunks)) in *.
    set (sokd := sparse_usable MODE_DECRYPT sp) in *.
    assert (0 <= offset l0) as Hl0 by done.
    assert (offset l0 + Z.of_nat (length chunks) * cs < two64) as Hb.
    { rewrite (length_concat_chunks _ _ Hall) in Hsmall. cbn. nia. }
    assert (pure_flags ae true chunks [] l0 !! i = Some true) as Hfe.
    { rewrite (enc_flags ae true chunks [] l0 eq_refl), list_lookup_fmap, Hi.
      cbn. by rewrite Hz. }
    assert (pure_flags ad sokd outs sp l0 !! i = Some true) as Hfd'.
    { rewrite Hfd, list_lookup_fmap, Hi. cbn. by rewrite Hz. }
    assert (outs !! i = Some c) as Houts.
    { unfold outs. by rewrite (pure_outs_sparse ae true chunks [] l0 i Hfe). }
    assert (Forall (fun c => length c = Z.to_nat cs) outs) as Hlouts.
    { eapply Forall_impl; [apply (pure_outs_length ae true q)|]; try done.
      - eapply Forall_impl; [done|]. cbn. intros. lia.
      - cbn. intros. lia. }
    assert (forall j : nat, Z.of_nat i * cs = offset l0 + Z.of_nat j * cs -> j = i)
      as Hij by (cbn; intros; nia).
    repeat split.
    + (* encrypt: not fed to the cipher *)
      intros He. rewrite !elem_of_app in He.
      destruct He as [He|[He|[He|He]]]; try by not_in_events He.
      eapply (pure_loop_touched ae true Hcs) in He as (j & Hj & Hoj);
        [|done|exact Hb|by left].
      apply Hij in Hoj as ->. congruence.
    + (* encrypt: not written to the device *)
      intros data He. rewrite !elem_of_app in He.
      destruct He as [He|[He|[He|He]]]; try by not_in_events He.
      eapply (pure_loop_touched ae true Hcs) in He as (j & Hj & Hoj);
        [|done|exact Hb|right; by eexists].
      apply Hij in Hoj as ->. congruence.
    + by apply take_drop_chunk.
    + do 2 (apply elem_of_app; right). apply elem_of_app. left.
      pose proof (pure_loop_appended ae true Hcs chunks [] l0 i eq_refl Hl0 Hb Hfe) as Ha.
      by rewrite Z.add_0_l in Ha.
    + exists (zero_offsets cs 0 chunks). split; [lookup_wd|].
      pose proof (zero_offsets_elem cs chunks 0 i c Hcs (Z.le_refl 0) Hb Hi Hz) as Ha.
      by rewrite Z.add_0_l in Ha.
    + (* decrypt: not fed to the cipher *)
      intros He. rewrite !elem_of_app in He.
      destruct He as [He|[He|[He|He]]]; try by not_in_events He.
      eapply (pure_loop_touched ad sokd Hcs) in He as (j & Hj & Hoj);
        [|done| |by left].
      * apply Hij in Hoj as ->. congruence.
      * unfold outs. by rewrite pure_outs_count.
    + (* decrypt: not written to the device *)
      intros data He. rewrite !elem_of_app in He.
      destruct He as [He|[He|[He|He]]]; try by not_in_events He.
      eapply (pure_loop_touched ad sokd Hcs) in He as (j & Hj & Hoj);
        [|done| |right; by eexists].
      * apply Hij in Hoj as ->. congruence.
      * unfold outs. by rewrite pure_outs_count.
    + by apply take_drop_chunk.
Qed.

End Cipher.

(** * The stated properties of the program *)

(** ** Dry runs *)

(** C4 (as the program behaves).  An encrypt run with [-n] on a device
    of two chunks, from an empty working directory and with a chunk size
    below 2^31, ends with success; the device is unchanged and
    [enc_offset] holds the size of the device, but no stage file is left:
    line 408 unlinks the stage file of every chunk that went through the
    cipher, dry run or not. *)
Theorem dry_run_two_chunks cs q c0 c1 :
  0 < cs < 2 ^ 31 -> Z.to_nat cs = (16 * q)%nat ->
  length c0 = Z.to_nat cs -> length c1 = Z.to_nat cs ->
  let r := run (mkArgs MODE_ENCRYPT true cs) None (c0 ++ c1) ∅ in
  outcome_of r = Some (Exit 0)
  /\ dev (state_of r) = c0 ++ c1
  /\ wd (state_of r) !! offsetPath MODE_ENCRYPT = Some (hton (2 * cs))
  /\ forall o, wd (state_of r) !! tmpPath MODE_ENCRYPT o = None.
Proof.
  intros Hcs Hq H0 H1 r. subst r.
  assert (2 * cs < two64) as Hsmall by (unfold two64; lia).
  assert (Forall (fun c => length c = Z.to_nat cs) [c0; c1]) as Hall
    by (repeat constructor; done).
  assert (Forall (fun c : bytes => length c = (16 * q)%nat) [c0; c1]) as Hall16
    by (repeat constructor; lia).
  assert (Z.of_nat (length (concat [c0; c1])) < two64) as Hlen.
  { rewrite (length_concat_chunks _ _ Hall). cbn [length]. lia. }
  replace (c0 ++ c1) with (concat [c0; c1]) by (cbn; by rewrite app_nil_r).
  rewrite (enc_fresh_run true cs q [c0; c1]) by done.
  cbn [state_of outcome_of dev wd].
  split; [done|]. split; [|split].
  - rewrite p_dev_outs. by rewrite pure_outs_dry.
  - rewrite lookup_insert_eq. do 2 f_equal.
    rewrite (pure_loop_offset _ _ q); cbn [chunkSize start_locals offset ctx length];
      try done; lia.
  - intros o. lookup_wd.
Qed.

(** ** The shortcut of a finished run *)

(** The start-up initialises the cipher and loads the offset from the
    offset file; it feeds no data to the cipher and leaves the device
    alone. *)
Lemma wp_startup_idle a s :
  crash s = None -> Forall idle (trace s) ->
  wp (startup a)
     (fun r s' =>
        dev s' = dev s /\ crash s' = None /\ Forall idle (trace s')
        /\ EvCipherInit ∈ trace s'
        /\ r.1.1 = Z.of_nat (length (dev s))
        /\ exists ofile, wd s' !! offsetPath (mode a) = Some ofile
                         /\ length ofile = 8%nat /\ r.2 = ntoh ofile)
     (fun _ => True) s.
Proof.
  intros Hc Hs.
  unfold startup, check_args, load_keys, init_cipher, load_offset,
    CreateRandomFile, CreateFile, print.
  repeat first [ apply wp_tick; [intros _ | intros ? ?]; wp_simpl | wp_step ];
    try done.
  all: repeat match goal with
         | H : ?P -> ?c = None, H' : ?P |- _ => specialize (H H')
         | H : None = None -> ?c = None |- _ => specialize (H eq_refl)
         end; subst.
  all: repeat split; try done.
  all: try (rewrite <- ?app_assoc; cbn [app];
            apply Forall_app; split; [done|]; by repeat constructor).
  all: try (rewrite !elem_of_app, !elem_of_cons; by auto 10).
  all: try match goal with
         | H : negb (bool_decide (length ?o = 8%nat)) = false |- _ =>
             apply negb_false_iff, bool_decide_eq_true_1 in H; by exists o
         end.
Qed.

(** C5 (as the program behaves).  When the start-up succeeds and the
    offset it loads, the content of the offset file, is not below the
    size of the device, the run prints "Already done" and exits with
    success; it has written no byte of the device and fed no data to the
    cipher.  The cipher context is nevertheless created and initialised
    (lines 220 to 244) before the offset is looked at. *)
Theorem already_done_run a d w devSize ctx0 offset0 s1 :
  startup a (mkState d w [] None) = Ret (devSize, ctx0, offset0) s1 ->
  offset0 >= devSize ->
  let r := run a None d w in
  r = Stop (Exit 0) (mkState d (wd s1) (trace s1 ++ [EvPrint "Already done"]) None)
  /\ devSize = Z.of_nat (length d)
  /\ (exists ofile, wd s1 !! offsetPath (mode a) = Some ofile
                    /\ length ofile = 8%nat /\ offset0 = ntoh ofile)
  /\ EvCipherInit ∈ trace s1
  /\ Forall idle (trace (state_of r)).
Proof.
  intros Hs Hge r. subst r.
  pose proof (wp_startup_idle a (mkState d w [] None) eq_refl (Forall_nil_2 _)) as H.
  unfold wp in H. rewrite Hs in H. cbn [fst snd dev] in H.
  destruct H as (Hd & Hc & Hi & Hin & Hsz & Hof).
  destruct s1 as [d1 w1 t1 c1]. cbn [dev crash trace wd] in *. subst d1 c1.
  unfold run. rewrite (main_already_done _ _ _ _ _ _ _ _ Hs Hge).
  cbn [state_of trace app]. repeat split; try done.
  apply Forall_app. split; [done|]. by repeat constructor.
Qed.

(** ** The order of the durable operations *)

(** C6.  In every run, killed at any point or not, each chunk that is fed
    to the cipher is followed by its operations in the order of
    [transform_events]: the stage file is created, written and fsynced,
    then the device is written and fsynced (unless [-n]), then the offset
    file is written and fsynced, then the stage file is unlinked; and on
    encrypt each entry appended to the sparse file is followed by the
    operations of [sparse_events]: the fsync of the sparse file, then the
    write and the fsync of the offset file.  The only other thing that
    follows a cipher call is the message with which the run ends when the
    call is refused or returns a block of another size, as it does for a
    chunk size from 2^31 on: no stage file is created then.  And a stage
    file is created only right after the cipher call on its chunk, so
    every chunk that is staged is in such a sequence. *)
Theorem durable_order a kill d w :
  0 <= chunkSize a ->
  ordered a (trace (state_of (run a kill d w))).
Proof.
  intros Hcs. apply main_ordered; [done|].
  repeat split; intros j ? Hj; cbn in Hj; by rewrite lookup_nil in Hj.
Qed.

(** ** The sparse log across kills *)

(** C7 (as the program behaves).  After any sequence of runs from an
    empty working directory, each killed at any point or not, the entries
    of [enc_sparse] are in non-decreasing order.  (A run that is killed
    between the fsync of the sparse file and the fsync of the offset file
    is resumed at the same chunk and appends the same offset again, so the
    order is not strict.) *)
Theorem sparse_log_ascending rs d sp :
  Z.of_nat (length d) < two64 ->
  Forall (fun r => 0 <= chunkSize r.1) rs ->
  (runs rs d ∅).2 !! sparsePath MODE_ENCRYPT = Some sp ->
  consecutive Z.le (sparse_entries sp).
Proof.
  intros Hd Hrs Hsp.
  destruct (runs_log rs d ∅ Hd Hrs log_ok_empty) as [_ Hlog].
  by apply (log_ok_entries _ _ Hlog).
Qed.

(** ** Errors *)

(** C8 (the program).  With [-s 0] the check of line 173 passes, 0 being
    a multiple of 16, and line 185 computes [dev.Size() % chunkSize] with
    a zero divisor: the run traps before it has printed anything, it does
    not exit with code 1. *)
Theorem zero_chunk_size_traps dry kill d w :
  run (mkArgs MODE_ENCRYPT dry 0) kill d w = Stop Trap (mkState d w [] kill)
  /\ run (mkArgs MODE_DECRYPT dry 0) kill d w = Stop Trap (mkState d w [] kill).
Proof. split; reflexivity. Qed.

(** C9.  A decrypt run in a working directory where [.iv] or [.key] is
    missing exits with code 1, having only printed a message: the device
    and the working directory are unchanged.  When the arguments are
    valid the message is "Key and/or iv absent".  And no decrypt run,
    killed or not, creates, writes or deletes [.iv] or [.key]. *)
Theorem decrypt_without_keys dry cs d w :
  cs <> 0 -> w !! ivPath = None \/ w !! keyPath = None ->
  let a := mkArgs MODE_DECRYPT dry cs in
  (exists msg,
     run a None d w = Stop (Exit 1) (mkState d w [EvPrint msg] None)
     /\ (cs mod 16 = 0 -> Z.of_nat (length d) mod cs = 0 ->
         msg = "Key and/or iv absent"))
  /\ (forall kill d' w' p e,
        p = ivPath \/ p = keyPath ->
        e ∈ trace (state_of (run a kill d' w')) ->
        e <> EvCreate p /\ e <> EvUnlink p
        /\ forall data, e <> EvAppend p data
                        /\ forall o, e <> EvWrite (TFile p) o data).
Proof.
  intros Hcs Hmiss a. split.
  - unfold run, main, startup, check_args, load_keys, exists_. run_monad.
    cbn [mode chunkSize a].
    rewrite bool_decide_eq_false_2 by done. cbn [negb].
    case_bool_decide as H16; cbn [negb]; [|by eexists].
    rewrite (bool_decide_eq_false_2 _ Hcs).
    case_bool_decide as Hd; cbn [negb]; [|by eexists].
    assert (negb (bool_decide (is_Some (w !! ivPath)))
            || negb (bool_decide (is_Some (w !! keyPath))) = true) as ->.
    { destruct Hmiss as [-> | ->];
        rewrite (bool_decide_eq_false_2 (is_Some None)) by (by intros [? ?]);
        cbn; [done|by destruct (bool_decide _)]. }
    rewrite bool_decide_eq_true_2 by done. by eexists.
  - intros kill d' w' p e Hp He.
    assert (within a (state_of (main a (mkState d' w' [] kill)))) as Hw
      by (apply main_within; constructor).
    unfold within in Hw. rewrite Forall_forall in Hw. specialize (Hw e He).
    assert (~ own_path a p) as Hown.
    { intros [[Hm _]|[H|[H|[[o H]|[o H]]]]]; [by apply Hm|..];
        destruct Hp as [-> | ->]; revert H; cbn; discriminate. }
    repeat split; intros; intros ->; by apply Hown.
Qed.

(** C10.  A decrypt run that has chunks to process, first run or
    resumed at a stored offset, in a working directory with the key and
    the iv but without [enc_sparse], does not fail: it creates
    [enc_sparse] as an empty file, feeds every chunk from the offset on
    to the cipher, and exits with success, whether or not the empty file
    can be opened for reading.  (The chunk size is below 2^31 and no
    stage file is left over; the device is [pre ++ concat chunks], the
    run starting after [pre].) *)
Theorem decrypt_without_sparse_log dry cs q pre chunks w iv key :
  0 < cs < 2 ^ 31 -> Z.to_nat cs = (16 * q)%nat ->
  Forall (fun c => length c = Z.to_nat cs) chunks -> chunks <> [] ->
  Z.of_nat (length pre) mod cs = 0 ->
  Z.of_nat (length (pre ++ concat chunks)) < two64 ->
  w !! ivPath = Some iv -> w !! keyPath = Some key ->
  length iv = 16%nat -> length key = 32%nat ->
  (w !! offsetPath MODE_DECRYPT = None /\ pre = [])
  \/ w !! offsetPath MODE_DECRYPT = Some (hton (Z.of_nat (length pre))) ->
  (forall o, w !! tmpPath MODE_DECRYPT o = None) ->
  w !! sparsePath MODE_DECRYPT = None ->
  let r := run (mkArgs MODE_DECRYPT dry cs) None (pre ++ concat chunks) w in
  outcome_of r = Some (Exit 0)
  /\ EvCreate (sparsePath MODE_DECRYPT) ∈ trace (state_of r)
  /\ wd (state_of r) !! sparsePath MODE_DECRYPT = Some []
  /\ forall i, (i < length chunks)%nat ->
       EvCipherUpdate (Z.of_nat (length pre) + Z.of_nat i * cs) ∈ trace (state_of r).
Proof.
  intros Hcs Hq Hall Hne Hpre Hsmall Hiv Hkey Hliv Hlkey Hoff Htmp Hsp r. subst r.
  set (a := mkArgs MODE_DECRYPT dry cs).
  destruct (chunks_size_ok cs q chunks (proj1 Hcs) Hq Hall) as (H16 & H0 & Hd).
  assert (Z.of_nat (length (pre ++ concat chunks)) mod cs = 0) as Hdev.
  { rewrite length_app, Nat2Z.inj_add, <- Z.add_mod_idemp_l, Hpre by done.
    by rewrite Z.add_0_l. }
  assert (exists w0 t0,
            startup a (mkState (pre ++ concat chunks) w [] None)
            = Ret (Z.of_nat (length (pre ++ concat chunks)), mkCtx key iv [],
                   Z.of_nat (length pre))
                  (mkState (pre ++ concat chunks) w0 t0 None)
            /\ w0 !! offsetPath MODE_DECRYPT = Some (hton (Z.of_nat (length pre)))
            /\ w0 !! sparsePath MODE_DECRYPT = None
            /\ (forall o, w0 !! tmpPath MODE_DECRYPT o = None))
    as (w0 & t0 & Hstart & Hoff0 & Hsp0 & Htmp0).
  { destruct Hoff as [[Hoff ->]|Hoff].
    - eexists _, _. split; [|split; [|split]].
      + by apply (keys_startup_first a _ w [] iv key).
      + cbn [mode a]. by rewrite lookup_insert_eq.
      + cbn [mode a]. by rewrite lookup_insert_ne by apply offset_ne_sparse.
      + intros o. cbn [mode a]. rewrite lookup_insert_ne; [done|].
        intros He. symmetry in He. by apply tmp_ne_offset in He.
    - exists w, [EvCipherInit]. split; [|done].
      pose proof (keys_startup_resume a (pre ++ concat chunks) w [] iv key
                    (hton (Z.of_nat (length pre)))) as H.
      rewrite ntoh_hton in H by (rewrite length_app in Hsmall; split; lia).
      apply H; done. }
  unfold run.
  rewrite (main_loop_run a q pre chunks w0 t0 _ _ _ Hstart); cbn [mode chunkSize a];
    try done.
  2:{ right. by rewrite Hsp0. }
  cbn [state_of outcome_of trace wd]. rewrite Hsp0. cbn [default].
  split; [done|]. split; [|split].
  - apply elem_of_app. right. apply elem_of_app. left. apply elem_of_cons. by left.
  - rewrite lookup_insert_ne by apply offset_ne_sparse.
    rewrite lookup_insert_eq. f_equal.
    by apply dec_sparse_log.
  - intros i Hi.
    do 2 (apply elem_of_app; right). apply elem_of_app. left.
    rewrite length_app, (length_concat_chunks _ _ Hall) in Hsmall.
    pose proof (pure_loop_updated a (sparse_usable MODE_DECRYPT []) (proj1 Hcs) chunks []
                  (mkLocals (Z.of_nat (length pre)) 0 (mkCtx key iv []) (length pre)) i)
      as Hup.
    cbn [offset a chunkSize] in Hup.
    apply Hup; [lia|nia|].
    rewrite dec_empty_flags by done. by apply lookup_replicate_2.
Qed.

(** * Further properties of the program *)

(** ** What a run leaves alone *)

Section Frame.
Variable a : Args.
Variable prot : string -> Prop.
Variable d0 : bytes.
Variable w0 : gmap string bytes.
Hypothesis prot_offset : ~ prot (offsetPath (mode a)).
Hypothesis prot_sparse :
  prot (sparsePath (mode a)) ->
  is_enc (mode a) = false /\ is_Some (w0 !! sparsePath (mode a)).
Hypothesis prot_tmp : forall o, ~ prot (tmpPath (mode a) o).
Hypothesis prot_final : forall o, ~ prot (finalPath (mode a) o).
Hypothesis prot_keys :
  prot ivPath \/ prot keyPath ->
  mode a = MODE_DECRYPT
  \/ (prot ivPath /\ prot keyPath /\ is_Some (w0 !! ivPath) /\ is_Some (w0 !! keyPath)).

Lemma untouched_after e upd c s :
  (dryRun a = true -> dev (upd s) = dev s) ->
  (forall p, prot p -> wd (upd s) !! p = wd s !! p) ->
  untouched a prot d0 w0 s -> untouched a prot d0 w0 (after e upd c s).
Proof.
  intros Hd Hw [H1 H2]. split; cbn.
  - intros Hdry. rewrite Hd by done. by apply H1.
  - intros p Hp. rewrite Hw by done. by apply H2.
Qed.

Ltac untouched_tac :=
  repeat first
    [ assumption
    | apply untouched_after;
      [ intros ?; cbn [after set_wd set_dev wd dev id];
        first [ reflexivity | congruence ]
      | let p := fresh "p" in
        let Hp := fresh "Hp" in
        intros p Hp; cbn [after set_wd set_dev wd dev id];
        rewrite ?lookup_alter_ne, ?lookup_insert_ne, ?lookup_delete_ne
          by (intros <-;
              first [ done | apply prot_sparse in Hp as [? _]; congruence ]);
        reflexivity
      | ] ].

Lemma wp_CreateFile_untouched path data Q s :
  ~ prot path -> untouched a prot d0 w0 s ->
  (forall s', untouched a prot d0 w0 s' -> Q tt s') ->
  wp (CreateFile path data) Q (untouched a prot d0 w0) s.
Proof.
  intros Hp Hs HQ. unfold CreateFile.
  repeat wp_step; try apply HQ; untouched_tac.
Qed.

Lemma wp_unlink_untouched path Q s :
  ~ prot path -> untouched a prot d0 w0 s ->
  (forall s', untouched a prot d0 w0 s' -> Q tt s') ->
  wp (unlink path) Q (untouched a prot d0 w0) s.
Proof.
  intros Hp Hs HQ. unfold unlink.
  repeat wp_step; try apply HQ; untouched_tac.
Qed.

Lemma wp_dev_write_untouched off data Q s :
  untouched a prot d0 w0 s ->
  (forall s', untouched a prot d0 w0 s' -> Q tt s') ->
  wp (dev_write a off data) Q (untouched a prot d0 w0) s.
Proof.
  intros Hs HQ. unfold dev_write.
  repeat wp_step; try apply HQ; untouched_tac.
Qed.

Lemma wp_process_chunk_untouched sok chunk l Q s :
  untouched a prot d0 w0 s ->
  (forall l' s', untouched a prot d0 w0 s' -> Q l' s') ->
  wp (process_chunk a sok chunk l) Q (untouched a prot d0 w0) s.
Proof.
  intros Hs HQ. unfold process_chunk.
  repeat first
    [ wp_step
    | apply wp_CreateFile_untouched; [auto| |intros ? ?]
    | apply wp_unlink_untouched; [auto| |intros ? ?]
    | apply wp_dev_write_untouched; [|intros ? ?] ];
  try apply HQ; untouched_tac.
Qed.

Lemma wp_loop_untouched fuel sok l Q s :
  untouched a prot d0 w0 s ->
  (forall l' s', untouched a prot d0 w0 s' -> Q l' s') ->
  wp (loop fuel a sok l) Q (untouched a prot d0 w0) s.
Proof.
  revert l s. induction fuel as [|fuel IH]; intros l s Hs HQ; cbn [loop].
  - by apply wp_stop.
  - repeat wp_step; [|by apply HQ].
    apply wp_process_chunk_untouched; [done|]. intros l' s' Hs'.
    by apply IH.
Qed.

Lemma prot_not_created s p :
  untouched a prot d0 w0 s ->
  negb (bool_decide (is_Some (wd s !! ivPath)))
  || negb (bool_decide (is_Some (wd s !! keyPath))) = true ->
  bool_decide (mode a = MODE_DECRYPT) = false ->
  p = ivPath \/ p = keyPath -> ~ prot p.
Proof.
  intros [_ Hw] Hex Hm Hp Hprot.
  apply bool_decide_eq_false in Hm.
  destruct prot_keys as [?|(Hi & Hk & Hiv & Hkey)]; [by destruct Hp as [-> | ->]; auto|done|].
  rewrite <- (Hw _ Hi) in Hiv. rewrite <- (Hw _ Hk) in Hkey.
  by rewrite !bool_decide_eq_true_2 in Hex.
Qed.

Lemma wp_startup_untouched Q s :
  untouched a prot d0 w0 s ->
  (forall r s', untouched a prot d0 w0 s' -> Q r s') ->
  wp (startup a) Q (untouched a prot d0 w0) s.
Proof.
  intros Hs HQ.
  unfold startup, check_args, load_keys, init_cipher, load_offset, CreateRandomFile.
  repeat first
    [ wp_step
    | apply wp_CreateFile_untouched;
      [first
         [ assumption
         | match goal with
           | Hu : untouched a prot d0 w0 ?s0,
             Hex : negb (bool_decide (is_Some (wd ?s0 !! ivPath))) || _ = true
             |- ~ prot ?p =>
               apply (prot_not_created s0 p Hu Hex); [assumption|auto]
           end ]
      |try assumption; untouched_tac|intros ? ?] ];
  try apply HQ; untouched_tac.
Qed.

Lemma sparse_not_created s :
  untouched a prot d0 w0 s ->
  negb (bool_decide (is_Some (wd s !! sparsePath (mode a)))) = true ->
  ~ prot (sparsePath (mode a)).
Proof.
  intros [_ Hw] Hex Hp. destruct (prot_sparse Hp) as [_ Hsp].
  rewrite <- (Hw _ Hp) in Hsp. by rewrite bool_decide_eq_true_2 in Hex.
Qed.

Lemma main_untouched s :
  untouched a prot d0 w0 s -> untouched a prot d0 w0 (state_of (main a s)).
Proof.
  intros Hs.
  assert (wp (main a) (fun _ => untouched a prot d0 w0) (untouched a prot d0 w0) s) as H.
  { unfold main, open_sparse, finish.
    apply wp_bind, wp_startup_untouched; [done|]. intros [[devSize ctx0] offset0] s1 Hs1.
    repeat first
      [ wp_step
      | apply wp_CreateFile_untouched;
        [first [ by auto | by eapply sparse_not_created ]| |intros ? ?]
      | apply wp_loop_untouched; [|intros ? ? ?] ];
    untouched_tac. }
  unfold wp in H. by destruct (main a s).
Qed.

End Frame.


(** X1.  Whatever the state of the device and of the working directory
    and wherever it is killed, a run changes no file of the working
    directory outside its footprint: the offset file, the sparse file, the
    stage files and the [.final] files of its mode, and the key and the iv
    unless it decrypts. *)
Theorem run_changes_own_files_only a kill d w p :
  ~ own_path a p ->
  wd (state_of (run a kill d w)) !! p = w !! p.
Proof.
  intros Hp.
  assert (untouched a (fun p => ~ own_path a p) d w (state_of (run a kill d w)))
    as [_ H].
  { apply main_untouched.
    - intros H. apply H, own_offset.
    - intros H. exfalso. apply H, own_sparse.
    - intros o H. apply H, own_tmp.
    - intros o H. apply H, own_final.
    - intros H. destruct (decide (mode a = MODE_DECRYPT)) as [|Hm]; [by left|].
      exfalso. destruct H as [H|H]; apply H; left; auto.
    - by split. }
  by apply H.
Qed.

(** X2.  A dry run never changes the device, whatever the state of the
    working directory (stage files of an earlier run included) and
    wherever the run is killed. *)
Theorem dry_run_keeps_device a kill d w :
  dryRun a = true ->
  dev (state_of (run a kill d w)) = d.
Proof.
  intros Hdry.
  assert (untouched a (fun _ => False) d w (state_of (run a kill d w))) as [H _].
  { apply main_untouched; try done; tauto. }
  by apply H.
Qed.

(** X3.  When [.iv] and [.key] both exist, no run changes them, whatever
    its mode and wherever it is killed: they are created only when one of
    them is missing. *)
Theorem existing_keys_kept a kill d w :
  is_Some (w !! ivPath) -> is_Some (w !! keyPath) ->
  wd (state_of (run a kill d w)) !! ivPath = w !! ivPath
  /\ wd (state_of (run a kill d w)) !! keyPath = w !! keyPath.
Proof.
  intros Hiv Hkey.
  assert (untouched a (fun p => p = ivPath \/ p = keyPath) d w
            (state_of (run a kill d w))) as [_ H].
  { apply main_untouched.
    - intros [H|H]; symmetry in H;
        [by apply iv_ne_offset in H | by apply key_ne_offset in H].
    - intros [H|H]; symmetry in H;
        [by apply iv_ne_sparse in H | by apply key_ne_sparse in H].
    - intros o [H|H]; [by apply tmp_ne_iv in H | by apply tmp_ne_key in H].
    - intros o [H|H]; revert H; destruct (mode a); cbn; discriminate.
    - intros _. right. auto.
    - by split. }
  split; apply H; auto.
Qed.

(** X4.  A decrypt run never changes an [enc_sparse] that exists,
    wherever it is killed: it only reads it. *)
Theorem decrypt_keeps_sparse_log a kill d w :
  mode a = MODE_DECRYPT -> is_Some (w !! sparsePath MODE_DECRYPT) ->
  wd (state_of (run a kill d w)) !! sparsePath MODE_DECRYPT
  = w !! sparsePath MODE_DECRYPT.
Proof.
  intros Hm Hsp.
  assert (untouched a (fun p => p = sparsePath MODE_DECRYPT) d w
            (state_of (run a kill d w))) as [_ H].
  { apply main_untouched; rewrite ?Hm.
    - intros H. by apply offset_ne_sparse in H.
    - done.
    - intros o H. by apply tmp_ne_sparse in H.
    - intros o H. by apply final_ne_sparse in H.
    - intros [H|H]; [by apply iv_ne_sparse in H | by apply key_ne_sparse in H].
    - by split. }
  by apply H.
Qed.

(** ** Rejected arguments *)

(** X5.  A run without a mode, with a chunk size that is not a multiple
    of 16, or on a device whose size is not a multiple of the chunk size,
    prints one message and exits with code 1; the device and the working
    directory are as they were. *)
Theorem invalid_arguments_rejected a d w :
  mode a = MODE_DEFAULT \/ chunkSize a mod 16 <> 0
  \/ (chunkSize a <> 0 /\ Z.of_nat (length d) mod chunkSize a <> 0) ->
  exists msg, run a None d w = Stop (Exit 1) (mkState d w [EvPrint msg] None).
Proof.
  intros H. unfold run, main, startup, check_args. run_monad.
  case_bool_decide as Hm; [by eexists|].
  case_bool_decide as H16; cbn [negb]; [|by eexists].
  destruct H as [H|[H|[H0 Hd]]]; [done..|].
  rewrite (bool_decide_eq_false_2 _ H0), (bool_decide_eq_false_2 _ Hd). cbn [negb].
  by eexists.
Qed.

(** ** The device and the progress files across runs *)

(** X6.  Across any sequence of runs that starts in an empty working
    directory, each run with its own arguments and killed at any point or
    not, the device keeps its size. *)
Theorem device_size_kept rs d :
  Z.of_nat (length d) < two64 ->
  Forall (fun r => 0 <= chunkSize r.1) rs ->
  length (runs rs d ∅).1 = length d.
Proof.
  intros Hd Hrs. by destruct (runs_log rs d ∅ Hd Hrs log_ok_empty).
Qed.

(** X7.  After any such sequence of runs, every entry of [enc_sparse] is
    a 64-bit offset that is not beyond the offset stored in
    [enc_offset]. *)
Theorem sparse_entries_bounded rs d sp :
  Z.of_nat (length d) < two64 ->
  Forall (fun r => 0 <= chunkSize r.1) rs ->
  (runs rs d ∅).2 !! sparsePath MODE_ENCRYPT = Some sp -> sp <> [] ->
  exists v, (runs rs d ∅).2 !! offsetPath MODE_ENCRYPT = Some (hton v)
            /\ 0 <= v < two64
            /\ Forall (fun e => 0 <= e <= v) (sparse_entries sp).
Proof.
  intros Hd Hrs Hsp Hne.
  destruct (runs_log rs d ∅ Hd Hrs log_ok_empty)
    as (_ & _ & _ & es & Hs & Hu & _ & Hv).
  destruct Hs as [[Hn _]|Hs]; [congruence|].
  rewrite Hsp in Hs. apply (inj Some) in Hs. subst sp.
  destruct Hv as [->|(v & Hv & Hoff & Hle)]; [done|].
  exists v. split; [done|]. split; [done|].
  rewrite sparse_entries_encode by done.
  rewrite Forall_forall in Hu, Hle. apply Forall_forall. intros e He.
  specialize (Hu e He). specialize (Hle e He). unfold in_u64 in Hu. lia.
Qed.

(** ** Running again *)

(** The state that a completed run leaves is one in which a run of the
    same mode and chunk size has nothing to do. *)
Lemma rerun_already_done a' q chunks sok sp l0 (a : Args) w iv key t :
  mode a' <> MODE_DEFAULT ->
  0 < chunkSize a' -> Z.to_nat (chunkSize a') = (16 * q)%nat ->
  Forall (fun c => length c = Z.to_nat (chunkSize a')) chunks ->
  Z.of_nat (length (concat chunks)) < two64 ->
  chunkSize a = chunkSize a' -> offset l0 = 0 -> ctx_ok (ctx l0) ->
  w !! ivPath = Some iv -> w !! keyPath = Some key ->
  length iv = 16%nat -> length key = 32%nat ->
  let r := pure_loop a sok chunks sp l0 in
  let w1 := <[offsetPath (mode a') := hton (offset (p_locals r))]>
              (<[sparsePath (mode a') := p_sparse r]> w) in
  main a' (mkState (p_dev r) w1 t None)
  = Stop (Exit 0)
      (mkState (p_dev r) w1 (t ++ [EvCipherInit; EvPrint "Already done"]) None).
Proof.
  intros Hm Hcs Hq Hall Hsmall Hcs' Hl0 Hctx Hiv Hkey Hliv Hlkey r w1.
  destruct (chunks_size_ok _ q chunks Hcs Hq Hall) as (H16 & H0 & Hd).
  assert (Forall (fun c => length c = (16 * q)%nat) chunks) as Hall16.
  { eapply Forall_impl; [done|]. cbn. intros. lia. }
  destruct (pure_loop_facts a sok q chunks Hall16 sp l0 Hctx) as [_ Hlen].
  fold r in Hlen.
  assert (offset (p_locals r) = Z.of_nat (length (concat chunks))) as Hoff.
  { unfold r. rewrite (pure_loop_offset a sok q); try done; try lia.
    - rewrite Hl0, Hcs', (length_concat_chunks _ _ Hall). lia.
    - rewrite Hl0, Hcs'. rewrite (length_concat_chunks _ _ Hall) in Hsmall. lia. }
  rewrite (main_already_done a' _ _ _ _ _ _ _
             (keys_startup_resume a' (p_dev r) w1 t iv key
                (hton (offset (p_locals r))) Hm H16 H0
                ltac:(by rewrite Hlen)
                ltac:(unfold w1;
                      rewrite !lookup_insert_ne;
                        [done|apply not_eq_sym, iv_ne_sparse
                        |apply not_eq_sym, iv_ne_offset])
                ltac:(unfold w1;
                      rewrite !lookup_insert_ne;
                        [done|apply not_eq_sym, key_ne_sparse
                        |apply not_eq_sym, key_ne_offset])
                Hliv Hlkey
                ltac:(unfold w1; by rewrite lookup_insert_eq)
                (length_hton _))).
  - by rewrite <- app_assoc.
  - rewrite ntoh_hton, Hlen, Hoff; [lia|]. rewrite Hoff. lia.
Qed.

(** X8.  A first run that has gone through the whole device, not killed,
    leaves nothing to do: the same command run again initialises the
    cipher, prints "Already done" and exits with success, and changes
    neither the device nor the working directory.  (The chunk size is
    below 2^31, no stage file is left over, and on decrypt the sparse
    file, if there is one, is made of whole entries.) *)
Theorem completed_run_is_final a q chunks w iv key :
  mode a <> MODE_DEFAULT ->
  0 < chunkSize a < 2 ^ 31 -> Z.to_nat (chunkSize a) = (16 * q)%nat ->
  Forall (fun c => length c = Z.to_nat (chunkSize a)) chunks -> chunks <> [] ->
  Z.of_nat (length (concat chunks)) < two64 ->
  w !! ivPath = Some iv -> w !! keyPath = Some key ->
  length iv = 16%nat -> length key = 32%nat ->
  w !! offsetPath (mode a) = None ->
  (forall o, w !! tmpPath (mode a) o = None) ->
  scan_ok (mode a) (default [] (w !! sparsePath (mode a))) 0 ->
  let s1 := state_of (run a None (concat chunks) w) in
  run a None (dev s1) (wd s1)
  = Stop (Exit 0)
      (mkState (dev s1) (wd s1) [EvCipherInit; EvPrint "Already done"] None).
Proof.
  intros Hm Hcs Hq Hall Hne Hsmall Hiv Hkey Hliv Hlkey Hoff Htmp Hscan s1. subst s1.
  rewrite (first_run a q chunks w iv key) by done.
  cbn [state_of dev wd]. unfold run.
  rewrite (rerun_already_done a q chunks _ _ (start_locals key iv) a w iv key []);
    try done.
  apply Hcs.
Qed.

(** X9.  A dry run spoils the real run: after an encrypt run with [-n]
    in an empty working directory, with a chunk size below 2^31, the same
    command without [-n] finds the offset at the end of the device, prints
    "Already done" and exits with success, and the device still holds the
    plaintext. *)
Theorem dry_run_then_real_run cs q chunks :
  0 < cs < 2 ^ 31 -> Z.to_nat cs = (16 * q)%nat ->
  Forall (fun c => length c = Z.to_nat cs) chunks -> chunks <> [] ->
  Z.of_nat (length (concat chunks)) < two64 ->
  let s1 := state_of (run (mkArgs MODE_ENCRYPT true cs) None (concat chunks) ∅) in
  run (mkArgs MODE_ENCRYPT false cs) None (dev s1) (wd s1)
  = Stop (Exit 0)
      (mkState (concat chunks) (wd s1) [EvCipherInit; EvPrint "Already done"] None).
Proof.
  intros Hcs Hq Hall Hne Hsmall s1. subst s1.
  rewrite (enc_fresh_run true cs q chunks) by done.
  cbn [state_of dev wd]. unfold run.
  set (ad := mkArgs MODE_ENCRYPT true cs).
  set (a := mkArgs MODE_ENCRYPT false cs).
  pose proof (rerun_already_done a q chunks true [] (start_locals fresh_key fresh_iv)
                ad fresh_wd fresh_iv fresh_key [])
    as H.
  cbn zeta in H. cbn [mode chunkSize a] in H.
  rewrite H; try done.
  all: first [ by rewrite p_dev_outs, pure_outs_dry
             | apply fresh_iv_length | apply fresh_key_length | apply Hcs ].
Qed.

(** ** The sparse log of an uninterrupted run *)

Lemma consecutive_cons R x l :
  (forall y, l !! 0%nat = Some y -> R x y) -> consecutive R l ->
  consecutive R (x :: l).
Proof.
  intros Hx Hl [|i] y z Hy Hz; cbn in Hy, Hz.
  - apply (inj Some) in Hy as <-. by apply Hx.
  - by apply (Hl i).
Qed.

Lemma zero_offsets_ascending cs chunks : forall o,
  0 < cs -> 0 <= o -> o + Z.of_nat (length chunks) * cs < two64 ->
  consecutive Z.lt (zero_offsets cs o chunks).
Proof.
  induction chunks as [|c chunks IH]; intros o Hcs Ho Hb; [apply consecutive_nil|].
  rewrite length_cons in Hb. cbn [zero_offsets].
  rewrite Z.mod_small by lia.
  assert (consecutive Z.lt (zero_offsets cs (o + cs) chunks)) as Hrest
    by (apply IH; lia).
  destruct (all_zero c); [|done]. cbn [app].
  apply consecutive_cons; [|done]. intros y Hy.
  pose proof (zero_offsets_bound cs chunks (o + cs) Hcs ltac:(lia) ltac:(lia)) as Hbd.
  rewrite Forall_forall in Hbd. apply list_elem_of_lookup_2 in Hy.
  specialize (Hbd y Hy). lia.
Qed.

Lemma zero_offsets_elem_inv cs chunks : forall o o',
  0 < cs -> 0 <= o -> o + Z.of_nat (length chunks) * cs < two64 ->
  o' ∈ zero_offsets cs o chunks ->
  exists (i : nat) c, chunks !! i = Some c /\ all_zero c = true
                      /\ o' = o + Z.of_nat i * cs.
Proof.
  induction chunks as [|c chunks IH]; intros o o' Hcs Ho Hb Hin.
  { by apply elem_of_nil in Hin. }
  rewrite length_cons in Hb. cbn [zero_offsets] in Hin.
  rewrite Z.mod_small in Hin by lia.
  apply elem_of_app in Hin as [Hin|Hin].
  - destruct (all_zero c) eqn:Hz; [|by apply elem_of_nil in Hin].
    apply list_elem_of_singleton in Hin as ->.
    exists 0%nat, c. repeat split; [done|lia].
  - apply IH in Hin as (i & c' & Hi & Hz & ->); [|lia..].
    exists (S i), c'. repeat split; [done..|lia].
Qed.

(** X10.  An encrypt run that goes through a device without being killed,
    in an empty working directory and with a chunk size below 2^31, leaves
    in [enc_sparse] the offsets of the chunks that are all zeros, and
    these only, in strictly ascending order. *)
Theorem uninterrupted_sparse_log dry cs q chunks :
  0 < cs < 2 ^ 31 -> Z.to_nat cs = (16 * q)%nat ->
  Forall (fun c => length c = Z.to_nat cs) chunks -> chunks <> [] ->
  Z.of_nat (length (concat chunks)) < two64 ->
  let s := state_of (run (mkArgs MODE_ENCRYPT dry cs) None (concat chunks) ∅) in
  exists sp, wd s !! sparsePath MODE_ENCRYPT = Some sp
    /\ length sp = (8 * length (sparse_entries sp))%nat
    /\ consecutive Z.lt (sparse_entries sp)
    /\ forall o, o ∈ sparse_entries sp
         <-> exists (i : nat) c, chunks !! i = Some c
                                 /\ c = replicate (length c) 0
                                 /\ o = Z.of_nat i * cs.
Proof.
  intros Hcs0 Hq Hall Hne Hsmall s. subst s. pose proof (proj1 Hcs0) as Hcs.
  rewrite (enc_fresh_run dry cs q chunks) by done.
  cbn [state_of wd]. rewrite enc_sparse_log by done.
  cbn [app chunkSize start_locals offset].
  assert (0 + Z.of_nat (length chunks) * cs < two64) as Hb.
  { rewrite (length_concat_chunks _ _ Hall) in Hsmall. nia. }
  pose proof (zero_offsets_bound cs chunks 0 Hcs (Z.le_refl 0) Hb) as Hbd.
  assert (Forall in_u64 (zero_offsets cs 0 chunks)) as Hu.
  { eapply Forall_impl; [exact Hbd|]. unfold in_u64. cbn. intros. lia. }
  exists (encode_entries (zero_offsets cs 0 chunks)).
  rewrite sparse_entries_encode by done.
  split; [lookup_wd|]. split; [apply length_encode|].
  split; [by apply zero_offsets_ascending|].
  intros o. split.
  - intros Hin.
    apply zero_offsets_elem_inv in Hin as (i & c & Hi & Hz & ->); [|done..].
    exists i, c. apply bool_decide_eq_true in Hz. split; [done|]. split; [done|lia].
  - intros (i & c & Hi & Hz & ->).
    pose proof (zero_offsets_elem cs chunks 0 i c Hcs (Z.le_refl 0) Hb Hi
                  ltac:(by apply bool_decide_eq_true_2)) as Hin.
    by rewrite Z.add_0_l in Hin.
Qed.

(** ** One CBC stream per run *)

Lemma cbc_encrypt_app n m k : forall c x y,
  length x = (16 * n)%nat ->
  cbc_encrypt (n + m) k c (x ++ y)
  = ((cbc_encrypt n k c x).1 ++ (cbc_encrypt m k (cbc_encrypt n k c x).2 y).1,
     (cbc_encrypt m k (cbc_encrypt n k c x).2 y).2).
Proof.
  induction n as [|n IH]; intros c x y Hx.
  - destruct x; [|done]. cbn. by destruct (cbc_encrypt m k c y).
  - cbn [Nat.add cbc_encrypt].
    rewrite take_app_le, drop_app_le by lia.
    rewrite IH by (rewrite length_drop; lia).
    destruct (cbc_encrypt n k _ (drop 16 x)) as [o1 c1]. cbn [fst snd].
    destruct (cbc_encrypt m k c1 y) as [o2 c2]. cbn [fst snd].
    by rewrite app_assoc.
Qed.

Lemma EVP_Update_enc c chunk q :
  cbuf c = [] -> length chunk = (16 * q)%nat ->
  EVP_Update MODE_ENCRYPT c chunk
  = (mkCtx (ckey c) (cbc_encrypt q (ckey c) (chain c) chunk).2 [],
     (cbc_encrypt q (ckey c) (chain c) chunk).1).
Proof.
  intros Hb Hq. unfold EVP_Update. rewrite Hb. cbn [app is_enc].
  assert (length chunk / 16 = q)%nat as ->.
  { rewrite Hq, Nat.mul_comm. by apply Nat.div_mul. }
  destruct (cbc_encrypt q _ _ _) as [out c']. cbn [fst snd].
  by rewrite drop_ge by lia.
Qed.

Lemma select_data_length (chunks : list bytes) n :
  Forall (fun c => length c = n) chunks ->
  length (concat (select_data chunks chunks))
  = (length (select_data chunks chunks) * n)%nat.
Proof.
  induction 1 as [|c chunks Hc Hall IH]; [done|].
  cbn [select_data]. destruct (all_zero c); cbn [app concat length]; [done|].
  rewrite length_app, IH. lia.
Qed.

Lemma enc_stream a sok q chunks :
  mode a = MODE_ENCRYPT -> dryRun a = false ->
  Forall (fun c => length c = (16 * q)%nat) chunks ->
  forall sp l, cbuf (ctx l) = [] ->
    concat (select_data chunks (pure_outs a sok chunks sp l))
    = (cbc_encrypt (q * length (select_data chunks chunks))
         (ckey (ctx l)) (chain (ctx l)) (concat (select_data chunks chunks))).1.
Proof.
  intros Hm Hdry Hall. induction Hall as [|c chunks Hc Hall IH]; intros sp l Hb.
  { cbn. by rewrite Nat.mul_0_r. }
  cbn [pure_outs select_data].
  pose proof (sparse_test_enc sok sp l c) as Hs. rewrite <- Hm in Hs.
  destruct (all_zero c) eqn:Hz; cbn [app].
  - rewrite (pure_chunk_sparse a _ _ _ _ _ Hs).
    cbn [p_locals p_sparse offset sparseOffset ctx pos].
    by rewrite IH.
  - rewrite (pure_chunk_data a _ _ _ _ _ Hs), Hm, Hdry.
    rewrite (EVP_Update_enc _ _ q Hb Hc).
    cbn [p_dev p_locals p_sparse offset sparseOffset ctx pos fst snd concat length].
    rewrite IH by done. cbn [ckey chain].
    replace (q * S (length (select_data chunks chunks)))%nat
      with (q + q * length (select_data chunks chunks))%nat by lia.
    by rewrite cbc_encrypt_app.
Qed.

Lemma reshape_concat (l : list bytes) k :
  Forall (fun c => length c = k) l ->
  reshape (replicate (length l) k) (concat l) = l.
Proof.
  induction 1 as [|c l Hc Hall IH]; [done|].
  cbn [length replicate concat reshape].
  rewrite take_app_length', drop_app_length' by done. by rewrite IH.
Qed.

(** X11.  In an uninterrupted encrypt run from an empty working
    directory, with a chunk size below 2^31, the chunks that go through
    the cipher form one CBC stream: what the run writes for them, put end
    to end, is the CBC encryption under the key and the iv of these chunks
    put end to end, the all-zero chunks being skipped. *)
Theorem encrypt_run_is_one_stream cs q chunks :
  0 < cs < 2 ^ 31 -> Z.to_nat cs = (16 * q)%nat ->
  Forall (fun c => length c = Z.to_nat cs) chunks -> chunks <> [] ->
  Z.of_nat (length (concat chunks)) < two64 ->
  let d' := dev (state_of (run (mkArgs MODE_ENCRYPT false cs) None
                             (concat chunks) ∅)) in
  let outs := reshape (replicate (length chunks) (Z.to_nat cs)) d' in
  let data := concat (select_data chunks chunks) in
  concat (select_data chunks outs)
  = (cbc_encrypt (length data / 16) fresh_key fresh_iv data).1.
Proof.
  intros Hcs Hq Hall Hne Hsmall d' outs data. subst d' outs data.
  rewrite (enc_fresh_run false cs q chunks) by done.
  cbn [state_of dev].
  assert (Forall (fun c => length c = (16 * q)%nat) chunks) as Hall16.
  { eapply Forall_impl; [done|]. cbn. intros. lia. }
  set (a := mkArgs MODE_ENCRYPT false cs).
  set (l0 := start_locals fresh_key fresh_iv).
  rewrite p_dev_outs.
  rewrite <- (pure_outs_count a true chunks [] l0).
  rewrite reshape_concat.
  - rewrite (enc_stream a true q chunks eq_refl eq_refl Hall16 [] l0 eq_refl).
    rewrite (select_data_length chunks (16 * q) Hall16).
    replace (length (select_data chunks chunks) * (16 * q))%nat
      with (q * length (select_data chunks chunks) * 16)%nat by lia.
    by rewrite Nat.div_mul.
  - eapply Forall_impl; [by apply (pure_outs_length a true q)|].
    cbn. intros. lia.
Qed.

(** ** Resuming at a stage file *)

Lemma process_chunk_replay a sok chunk l pre post w t old blk :
  w !! tmpPath (mode a) (offset l) = Some blk ->
  Z.of_nat (length blk) = chunkSize a -> length blk = length chunk ->
  w !! offsetPath (mode a) = Some old -> length old = 8%nat ->
  length pre = Z.to_nat (offset l) ->
  let o1 := (offset l + chunkSize a) mod two64 in
  process_chunk a sok chunk l (mkState (pre ++ chunk ++ post) w t None)
  = Ret (mkLocals o1 (sparseOffset l) (ctx l) (pos l))
        (mkState (pre ++ (if dryRun a then chunk else blk) ++ post)
           (delete (tmpPath (mode a) (offset l))
              (<[offsetPath (mode a) := hton o1]> w))
           (t ++ (if dryRun a then []
                  else [EvWrite TDev (offset l) blk; EvFSync TDev])
              ++ [EvWrite (TFile (offsetPath (mode a))) 0 (hton o1);
                  EvFSync (TFile (offsetPath (mode a)));
                  EvUnlink (tmpPath (mode a) (offset l))])
           None).
Proof.
  intros Htmp Hlen Hlc Hoff Hold Hpre o1. subst o1.
  pose proof (tmp_ne_offset (mode a) (mode a) (offset l)) as N2.
  assert (alter (splice 0 (hton ((offset l + chunkSize a) mod two64)))
            (offsetPath (mode a)) w
          = <[offsetPath (mode a) := hton ((offset l + chunkSize a) mod two64)]> w)
    as Halter.
  { apply map_eq. intros p. destruct (decide (p = offsetPath (mode a))) as [->|].
    - simplify_map_eq. by rewrite splice_hton.
    - by simplify_map_eq. }
  unfold process_chunk. run_monad. rewrite Htmp.
  rewrite (bool_decide_eq_true_2 _ Hlen). run_monad.
  destruct (dryRun a) eqn:Hdry; run_monad; rewrite Halter;
    (rewrite bool_decide_eq_true_2
       by (rewrite lookup_insert_ne by done; by rewrite Htmp)); run_monad.
  - do 2 f_equal. by rewrite <- !app_assoc.
  - do 2 f_equal.
    + rewrite <- Hpre. by apply splice_middle.
    + by rewrite <- !app_assoc.
Qed.

Lemma resume_run a q pre chunk rest w iv key blk sp :
  mode a <> MODE_DEFAULT ->
  0 < chunkSize a < 2 ^ 31 -> Z.to_nat (chunkSize a) = (16 * q)%nat ->
  Z.of_nat (length pre) mod chunkSize a = 0 ->
  length chunk = Z.to_nat (chunkSize a) ->
  Forall (fun c => length c = Z.to_nat (chunkSize a)) rest ->
  Z.of_nat (length (pre ++ chunk ++ concat rest)) < two64 ->
  w !! ivPath = Some iv -> w !! keyPath = Some key ->
  length iv = 16%nat -> length key = 32%nat ->
  w !! offsetPath (mode a) = Some (hton (Z.of_nat (length pre))) ->
  w !! sparsePath (mode a) = Some sp ->
  w !! tmpPath (mode a) (Z.of_nat (length pre)) = Some blk ->
  length blk = Z.to_nat (chunkSize a) ->
  (forall o, o <> Z.of_nat (length pre) -> w !! tmpPath (mode a) o = None) ->
  scan_ok (mode a) sp 0 ->
  let o1 := Z.of_nat (length pre) + chunkSize a in
  let r := pure_loop a (sparse_usable (mode a) sp) rest sp
             (mkLocals o1 0 (mkCtx key iv [])
                (length pre + Z.to_nat (chunkSize a))) in
  run a None (pre ++ chunk ++ concat rest) w
  = Stop (Exit 0)
      (mkState (pre ++ (if dryRun a then chunk else blk) ++ p_dev r)
         (<[offsetPath (mode a) := hton (offset (p_locals r))]>
            (<[sparsePath (mode a) := p_sparse r]>
               (delete (tmpPath (mode a) (Z.of_nat (length pre)))
                  (<[offsetPath (mode a) := hton o1]> w))))
         ([EvCipherInit]
            ++ (if dryRun a then []
                else [EvWrite TDev (Z.of_nat (length pre)) blk; EvFSync TDev])
            ++ [EvWrite (TFile (offsetPath (mode a))) 0 (hton o1);
                EvFSync (TFile (offsetPath (mode a)));
                EvUnlink (tmpPath (mode a) (Z.of_nat (length pre)))]
            ++ p_events r ++ [EvCipherFinal; EvPrint "Success!"])
         None).
Proof.
  intros Hm Hcs Hq Hpre Hc Hall Hsmall Hiv Hkey Hliv Hlkey Hoff Hsp Htmp Hblk Hothers
         Hscan o1 r.
  assert (Z.of_nat (length (concat rest))
          = Z.of_nat (length rest) * chunkSize a) as Hrest.
  { rewrite (length_concat_chunks _ _ Hall). lia. }
  rewrite !length_app in Hsmall.
  assert (chunkSize a mod 16 = 0) as H16.
  { replace (chunkSize a) with (16 * Z.of_nat q) by lia.
    by rewrite Z.mul_comm, Z.mod_mul. }
  assert (Z.of_nat (length (pre ++ chunk ++ concat rest)) mod chunkSize a = 0) as Hd.
  { rewrite !length_app, !Nat2Z.inj_add, Hrest.
    replace (Z.of_nat (length pre)
             + (Z.of_nat (length chunk) + Z.of_nat (length rest) * chunkSize a))
      with (Z.of_nat (length pre) + (1 + Z.of_nat (length rest)) * chunkSize a)
      by lia.
    by rewrite Z.mod_add by lia. }
  assert (0 <= Z.of_nat (length pre) < two64) as Hu by lia.
  assert (Forall (fun c => length c = (16 * q)%nat) rest) as Hall16.
  { eapply Forall_impl; [done|]. cbn. intros. lia. }
  assert (ctx_ok (mkCtx key iv [])) as Hctx by done.
  unfold run, main. unfold bind at 1.
  rewrite (keys_startup_resume a _ w [] iv key (hton (Z.of_nat (length pre))))
    by (try done; try lia; apply length_hton).
  rewrite ntoh_hton by done.
  rewrite bool_decide_eq_false_2 by (rewrite !length_app; lia).
  unfold bind at 1. rewrite (open_sparse_present _ _ _ _ sp) by done.
  unfold bind at 1, get at 1. cbn [dev].
  unfold bind at 1. cbn [loop]. rewrite Nat2Z.id.
  unfold bind at 1, get at 1. cbn [dev pos].
  unfold Next. rewrite bool_decide_eq_true_2 by (rewrite !length_app; lia).
  assert (take (Z.to_nat (chunkSize a)) (drop (length pre) (pre ++ chunk ++ concat rest))
          = chunk) as ->.
  { by rewrite drop_app_length, <- Hc, take_app_length. }
  unfold bind at 1.
  rewrite (process_chunk_replay a _ chunk _ pre (concat rest) w _
             (hton (Z.of_nat (length pre))) blk);
    cbn [offset sparseOffset ctx pos]; try done; try lia;
    try apply length_hton; try (by rewrite Nat2Z.id).
  rewrite Z.mod_small by lia. fold o1.
  rewrite (app_assoc pre (if dryRun a then chunk else blk) (concat rest)).
  rewrite (loop_run a _ q Hcs Hq rest _ _ (pre ++ (if dryRun a then chunk else blk))
             _ _ sp); cbn [offset sparseOffset ctx pos]; try done.
  - destruct (pure_loop_facts a (sparse_usable (mode a) sp) q rest Hall16 sp
                (mkLocals o1 0 (mkCtx key iv [])
                   (length pre + Z.to_nat (chunkSize a))) Hctx) as [Hfin _].
    fold r. rewrite finish_run by done.
    do 2 f_equal; by rewrite <- ?app_assoc.
  - rewrite !length_app.
    assert (length rest <= length (concat rest))%nat.
    { rewrite (length_concat_chunks _ _ Hall). nia. }
    lia.
  - rewrite length_app. by destruct (dryRun a); lia.
  - unfold o1. lia.
  - rewrite length_app.
    assert (length (if dryRun a then chunk else blk) = length chunk) as ->
      by (destruct (dryRun a); lia).
    lia.
  - rewrite lookup_delete_ne by apply tmp_ne_offset.
    by rewrite lookup_insert_eq.
  - rewrite lookup_delete_ne by apply tmp_ne_sparse.
    by rewrite lookup_insert_ne by apply offset_ne_sparse.
  - intros o. destruct (decide (o = Z.of_nat (length pre))) as [->|Ho].
    + by rewrite lookup_delete_eq.
    + rewrite lookup_delete_ne by (intros H; by apply tmp_inj in H).
      rewrite lookup_insert_ne by apply not_eq_sym, tmp_ne_offset.
      by apply Hothers.
Qed.

(** X12.  A run, not killed, that finds the stage file of the chunk at
    its offset does not feed this chunk to the cipher: after the cipher
    is initialised it writes the stage file to the device in place of the
    chunk (unless [-n]), writes the next offset to the offset file and
    unlinks the stage file.  The chunks after it are then processed with a
    cipher context that starts at the iv, the sparse cursor at 0, and the
    run ends with success, the offset file holding the size of the
    device.  (The chunk size is below 2^31, the stage file has the chunk
    size and is the only one, and on decrypt the sparse file is made of
    whole entries.) *)
Theorem resume_replays_stage_file a q pre chunk rest w iv key blk sp :
  mode a <> MODE_DEFAULT ->
  0 < chunkSize a < 2 ^ 31 -> Z.to_nat (chunkSize a) = (16 * q)%nat ->
  Z.of_nat (length pre) mod chunkSize a = 0 ->
  length chunk = Z.to_nat (chunkSize a) ->
  Forall (fun c => length c = Z.to_nat (chunkSize a)) rest ->
  Z.of_nat (length (pre ++ chunk ++ concat rest)) < two64 ->
  w !! ivPath = Some iv -> w !! keyPath = Some key ->
  length iv = 16%nat -> length key = 32%nat ->
  w !! offsetPath (mode a) = Some (hton (Z.of_nat (length pre))) ->
  w !! sparsePath (mode a) = Some sp ->
  w !! tmpPath (mode a) (Z.of_nat (length pre)) = Some blk ->
  length blk = Z.to_nat (chunkSize a) ->
  (forall o, o <> Z.of_nat (length pre) -> w !! tmpPath (mode a) o = None) ->
  scan_ok (mode a) sp 0 ->
  let o1 := Z.of_nat (length pre) + chunkSize a in
  let r := pure_loop a (sparse_usable (mode a) sp) rest sp
             (mkLocals o1 0 (mkCtx key iv [])
                (length pre + Z.to_nat (chunkSize a))) in
  let res := run a None (pre ++ chunk ++ concat rest) w in
  outcome_of res = Some (Exit 0)
  /\ dev (state_of res) = pre ++ (if dryRun a then chunk else blk) ++ p_dev r
  /\ wd (state_of res) !! tmpPath (mode a) (Z.of_nat (length pre)) = None
  /\ (EvCipherUpdate (Z.of_nat (length pre)) ∉ trace (state_of res))
  /\ ([EvCipherInit]
        ++ (if dryRun a then []
            else [EvWrite TDev (Z.of_nat (length pre)) blk; EvFSync TDev])
        ++ [EvWrite (TFile (offsetPath (mode a))) 0 (hton o1);
            EvFSync (TFile (offsetPath (mode a)));
            EvUnlink (tmpPath (mode a) (Z.of_nat (length pre)))])
       `prefix_of` trace (state_of res)
  /\ wd (state_of res) !! offsetPath (mode a)
     = Some (hton (Z.of_nat (length (pre ++ chunk ++ concat rest)))).
Proof.
  intros Hm Hcs Hq Hpre Hc Hall Hsmall Hiv Hkey Hliv Hlkey Hoff Hsp Htmp Hblk Hothers
         Hscan o1 r res.
  subst res.
  rewrite (resume_run a q pre chunk rest w iv key blk sp) by done.
  fold o1 r. cbn [outcome_of state_of dev wd trace].
  rewrite !length_app, (length_concat_chunks _ _ Hall) in Hsmall.
  split; [done|]. split; [done|]. split; [|split; [|split]].
  - rewrite !lookup_insert_ne, lookup_delete_eq; [done|..].
    + apply not_eq_sym, tmp_ne_sparse.
    + apply not_eq_sym, tmp_ne_offset.
  - intros He. rewrite !elem_of_app in He.
    destruct He as [He|[He|[He|[He|He]]]]; try by not_in_events He.
    + destruct (dryRun a); by not_in_events He.
    + eapply (pure_loop_touched a _ (proj1 Hcs)) in He as (j & _ & Hj);
        [| | |by left]; cbn [offset] in *; unfold o1 in *; nia.
  - rewrite !app_assoc. do 2 apply prefix_app_r. by rewrite <- !app_assoc.
  - rewrite lookup_insert_eq. do 2 f_equal.
    assert (Forall (fun c => length c = (16 * q)%nat) rest) as Hall16.
    { eapply Forall_impl; [done|]. cbn. intros. lia. }
    unfold r. rewrite (pure_loop_offset a _ q); cbn [offset ctx]; try done;
      unfold o1; try nia.
    rewrite !length_app, (length_concat_chunks _ _ Hall). nia.
Qed.

(** ** Files left half-written by a kill *)

(** X13.  A stage file at the offset whose size is not the chunk size,
    as a kill between the creation of the file and its write leaves it,
    stops every later run: the run prints "Can't load" with the name of
    the file and exits with code 1, and changes nothing. *)
Theorem torn_stage_file_stops_run a d w iv key ofile sp blk :
  mode a <> MODE_DEFAULT -> chunkSize a mod 16 = 0 -> 0 < chunkSize a ->
  Z.of_nat (length d) mod chunkSize a = 0 ->
  w !! ivPath = Some iv -> w !! keyPath = Some key ->
  length iv = 16%nat -> length key = 32%nat ->
  w !! offsetPath (mode a) = Some ofile -> length ofile = 8%nat ->
  ntoh ofile + chunkSize a <= Z.of_nat (length d) -> 0 <= ntoh ofile ->
  w !! sparsePath (mode a) = Some sp ->
  w !! tmpPath (mode a) (ntoh ofile) = Some blk ->
  Z.of_nat (length blk) <> chunkSize a ->
  run a None d w
  = Stop (Exit 1)
      (mkState d w
         [EvCipherInit; EvPrint ("Can't load " +:+ tmpPath (mode a) (ntoh ofile))]
         None).
Proof.
  intros Hm H16 Hcs Hd Hiv Hkey Hliv Hlkey Hoff Hlen Hin Hpos Hsp Htmp Hblk.
  unfold run, main. unfold bind at 1.
  rewrite (keys_startup_resume a d w [] iv key ofile) by (try done; lia).
  rewrite bool_decide_eq_false_2 by lia.
  unfold bind at 1. rewrite (open_sparse_present _ _ _ _ sp) by done.
  unfold bind at 1, get at 1. cbn [dev].
  unfold bind at 1. cbn [loop].
  unfold bind at 1, get at 1. cbn [dev pos].
  unfold Next. rewrite bool_decide_eq_true_2 by lia.
  unfold bind at 1. unfold process_chunk. run_monad. rewrite Htmp.
  by rewrite (bool_decide_eq_false_2 _ Hblk).
Qed.

(** X14.  An offset file whose size is not 8 bytes, as a kill between
    the creation of the file and its write leaves it, stops every later
    run of this mode: the run prints "Can't load offset file" and exits
    with code 1, and changes nothing. *)
Theorem torn_offset_file_stops_run a d w iv key ofile :
  mode a <> MODE_DEFAULT -> chunkSize a mod 16 = 0 -> chunkSize a <> 0 ->
  Z.of_nat (length d) mod chunkSize a = 0 ->
  w !! ivPath = Some iv -> w !! keyPath = Some key ->
  length iv = 16%nat -> length key = 32%nat ->
  w !! offsetPath (mode a) = Some ofile -> length ofile <> 8%nat ->
  run a None d w
  = Stop (Exit 1)
      (mkState d w [EvCipherInit; EvPrint "Can't load offset file"] None).
Proof.
  intros Hm H16 H0 Hd Hiv Hkey Hliv Hlkey Hoff Hlen.
  unfold run, main, startup, init_cipher. run_monad.
  rewrite check_args_run by done.
  rewrite (load_keys_present _ _ _ _ iv key) by done. cbn [fst snd]. run_monad.
  unfold load_offset. run_monad. rewrite Hoff.
  rewrite bool_decide_eq_true_2 by done. run_monad.
  rewrite Hoff. by rewrite (bool_decide_eq_false_2 _ Hlen).
Qed.

(** X15.  A key or an iv of the wrong size stops every run, encrypt
    included, before anything is written: the run prints "Can't load key
    and/or iv" and exits with code 1; the files are not created anew. *)
Theorem wrong_size_keys_stop_run a d w iv key :
  mode a <> MODE_DEFAULT -> chunkSize a mod 16 = 0 -> chunkSize a <> 0 ->
  Z.of_nat (length d) mod chunkSize a = 0 ->
  w !! ivPath = Some iv -> w !! keyPath = Some key ->
  length iv <> 16%nat \/ length key <> 32%nat ->
  run a None d w
  = Stop (Exit 1) (mkState d w [EvPrint "Can't load key and/or iv"] None).
Proof.
  intros Hm H16 H0 Hd Hiv Hkey Hlen.
  unfold run, main, startup. run_monad.
  rewrite check_args_run by done.
  unfold load_keys. run_monad. rewrite Hiv, Hkey.
  rewrite !bool_decide_eq_true_2 by done. run_monad. cbn [orb]. rewrite Hiv, Hkey.
  assert (negb (bool_decide (Z.of_nat (length iv) = blockSize))
          || negb (bool_decide (Z.of_nat (length key) = keySize)) = true) as ->.
  { unfold blockSize, keySize. destruct Hlen as [H|H].
    - rewrite (bool_decide_eq_false_2 (Z.of_nat (length iv) = 16)) by lia. done.
    - rewrite (bool_decide_eq_false_2 (Z.of_nat (length key) = 32)) by lia.
      by destruct (bool_decide _). }
  done.
Qed.

(** ** Chunk sizes from 2^31 on *)


End Bdenc.

(** ** The command line *)

Section CommandLineFacts.
Variable FromString : string -> Z -> Z.

Lemma parse_loop_mode m rest p :
  m <> MODE_DEFAULT ->
  parse_loop FromString ("-m" :: modeName m :: rest) p
  = parse_loop FromString rest
      (mkParsed (devPath p) (workdirPath p)
         (mkArgs m (dryRun (args p)) (chunkSize (args p)))).
Proof. by destruct m. Qed.

Lemma parse_loop_file file rest p :
  devPath p = EmptyString ->
  file <> "-m" -> file <> "-w" -> file <> "-n" -> file <> "-s" ->
  parse_loop FromString (file :: rest) p
  = parse_loop FromString rest (mkParsed file (workdirPath p) (args p)).
Proof.
  intros Hdev H1 H2 H3 H4. cbn [parse_loop].
  rewrite (bool_decide_eq_false_2 _ H1), (bool_decide_eq_false_2 _ H2),
    (bool_decide_eq_false_2 _ H3), (bool_decide_eq_false_2 _ H4).
  by rewrite (bool_decide_eq_true_2 _ Hdev).
Qed.

Lemma command_line_loop m wdp (dry : bool) s file tail p :
  m <> MODE_DEFAULT -> devPath p = EmptyString ->
  file <> "-m" -> file <> "-w" -> file <> "-n" -> file <> "-s" ->
  parse_loop FromString
    (["-m"; modeName m; "-w"; wdp]
     ++ (if dry then ["-n"] else [])
     ++ (match s with Some txt => ["-s"; txt] | None => [] end)
     ++ file :: tail) p
  = parse_loop FromString tail
      (mkParsed file wdp
         (mkArgs m (dry || dryRun (args p))
            (match s with
             | Some txt => FromString txt (chunkSize (args p))
             | None => chunkSize (args p)
             end))).
Proof.
  intros Hm Hdev H1 H2 H3 H4. cbn [app].
  rewrite (parse_loop_mode m _ p Hm).
  change (parse_loop FromString ("-w" :: wdp :: ?l) ?q)
    with (parse_loop FromString l (mkParsed (devPath q) wdp (args q))).
  cbn [devPath workdirPath args].
  destruct dry, s as [txt|]; cbn [app orb].
  - change (parse_loop FromString ("-n" :: "-s" :: txt :: ?l) ?q)
      with (parse_loop FromString l
              (mkParsed (devPath q) (workdirPath q)
                 (mkArgs (mode (args q)) true
                    (FromString txt (chunkSize (args q)))))).
    by rewrite parse_loop_file.
  - change (parse_loop FromString ("-n" :: ?l) ?q)
      with (parse_loop FromString l
              (mkParsed (devPath q) (workdirPath q)
                 (mkArgs (mode (args q)) true (chunkSize (args q))))).
    by rewrite parse_loop_file.
  - change (parse_loop FromString ("-s" :: txt :: ?l) ?q)
      with (parse_loop FromString l
              (mkParsed (devPath q) (workdirPath q)
                 (mkArgs (mode (args q)) (dryRun (args q))
                    (FromString txt (chunkSize (args q)))))).
    by rewrite parse_loop_file.
  - rewrite parse_loop_file by done. by destruct p as [? ? []].
Qed.

(** X16.  The command line of the usage message is read as it is meant:
    the mode, the working directory, [-n], the chunk size (4096 without
    [-s]) and the file are those given, provided the file is not named
    like an option. *)
Theorem command_line_parsed prog m wdp dry s file :
  m <> MODE_DEFAULT -> wdp <> EmptyString -> file <> EmptyString ->
  file <> "-m" -> file <> "-w" -> file <> "-n" -> file <> "-s" ->
  parse_args FromString (command_line prog m wdp dry s file)
  = PArgs (mkParsed file wdp
             (mkArgs m dry
                (match s with Some txt => FromString txt 4096 | None => 4096 end))).
Proof.
  intros Hm Hw H0 H1 H2 H3 H4. unfold parse_args, command_line.
  cbn [app]. rewrite bool_decide_eq_false_2.
  2:{ destruct dry, s; cbn; lia. }
  rewrite (command_line_loop m wdp dry s file []) by done.
  cbn [parse_loop devPath workdirPath args dryRun chunkSize orb].
  rewrite (bool_decide_eq_false_2 _ H0), (bool_decide_eq_false_2 _ Hw).
  by rewrite orb_false_r.
Qed.

(** X17.  An option that takes a value and comes last reads the null
    pointer that ends [argv]: the command line of the usage message
    followed by [-m], [-w] or [-s] is not rejected with a message. *)
Theorem trailing_option_traps prog m wdp dry s file opt :
  m <> MODE_DEFAULT ->
  file <> "-m" -> file <> "-w" -> file <> "-n" -> file <> "-s" ->
  opt = "-m" \/ opt = "-w" \/ opt = "-s" ->
  parse_args FromString (command_line prog m wdp dry s file ++ [opt]) = PTrap.
Proof.
  intros Hm H1 H2 H3 H4 Hopt. unfold parse_args, command_line.
  cbn [app]. rewrite bool_decide_eq_false_2.
  2:{ destruct dry, s; cbn; lia. }
  rewrite <- !app_assoc. cbn [app].
  rewrite (command_line_loop m wdp dry s file [opt]) by done.
  by destruct Hopt as [->|[->| ->]].
Qed.

Lemma parse_loop_sound n : forall argv p p',
  (length argv <= n)%nat ->
  parse_loop FromString argv p = PArgs p' ->
  (workdirPath p' = workdirPath p \/ ("-w" ∈ argv /\ workdirPath p' ∈ argv))
  /\ (devPath p' = devPath p \/ devPath p' ∈ argv)
  /\ (mode (args p') = mode (args p) \/ "-m" ∈ argv)
  /\ (dryRun (args p') = dryRun (args p) \/ "-n" ∈ argv)
  /\ (chunkSize (args p') = chunkSize (args p) \/ "-s" ∈ argv).
Proof.
  induction n as [|n IH]; intros argv p p' Hn Hp.
  { destruct argv; [|cbn in Hn; lia]. cbn in Hp. injection Hp as <-. tauto. }
  destruct argv as [|arg rest]; [cbn in Hp; injection Hp as <-; tauto|].
  cbn [length] in Hn. cbn [parse_loop] in Hp.
  assert (forall rest' q,
            (length rest' <= n)%nat -> (forall x, x ∈ rest' -> x ∈ arg :: rest) ->
            parse_loop FromString rest' q = PArgs p' ->
            (workdirPath q = workdirPath p
             \/ ("-w" ∈ arg :: rest /\ workdirPath q ∈ arg :: rest)) ->
            (devPath q = devPath p \/ devPath q ∈ arg :: rest) ->
            (mode (args q) = mode (args p) \/ "-m" ∈ arg :: rest) ->
            (dryRun (args q) = dryRun (args p) \/ "-n" ∈ arg :: rest) ->
            (chunkSize (args q) = chunkSize (args p) \/ "-s" ∈ arg :: rest) ->
            (workdirPath p' = workdirPath p
             \/ ("-w" ∈ arg :: rest /\ workdirPath p' ∈ arg :: rest))
            /\ (devPath p' = devPath p \/ devPath p' ∈ arg :: rest)
            /\ (mode (args p') = mode (args p) \/ "-m" ∈ arg :: rest)
            /\ (dryRun (args p') = dryRun (args p) \/ "-n" ∈ arg :: rest)
            /\ (chunkSize (args p') = chunkSize (args p) \/ "-s" ∈ arg :: rest))
    as Hstep.
  { intros rest' q Hlen Hsub Hq R1 R2 R3 R4 R5.
    destruct (IH rest' q p' Hlen Hq) as (Q1 & Q2 & Q3 & Q4 & Q5).
    split; [|split; [|split; [|split]]].
    - destruct Q1 as [->|[? ?]]; auto.
    - destruct Q2 as [->|?]; auto.
    - destruct Q3 as [->|?]; auto.
    - destruct Q4 as [->|?]; auto.
    - destruct Q5 as [->|?]; auto. }
  assert (forall x, x ∈ rest -> x ∈ arg :: rest) as Hsub1
    by (intros; apply elem_of_cons; auto).
  assert (arg ∈ arg :: rest) as Hhere by (apply elem_of_cons; auto).
  case_bool_decide as Hm; [subst arg|].
  { destruct rest as [|v rest']; [done|]. cbn [length] in Hn.
    assert (forall x, x ∈ rest' -> x ∈ "-m" :: v :: rest') as Hsub2
      by (intros; rewrite !elem_of_cons; auto).
    case_bool_decide; [|case_bool_decide; [|done]];
      (eapply Hstep in Hp; [exact Hp|lia|exact Hsub2|cbn; auto..]). }
  case_bool_decide as Hw; [subst arg|].
  { destruct rest as [|v rest']; [done|]. cbn [length] in Hn.
    assert (forall x, x ∈ rest' -> x ∈ "-w" :: v :: rest') as Hsub2
      by (intros; rewrite !elem_of_cons; auto).
    eapply Hstep in Hp; [exact Hp|lia|exact Hsub2|cbn..]; auto.
    right. rewrite !elem_of_cons. auto. }
  case_bool_decide as Hd; [subst arg|].
  { eapply Hstep in Hp; [exact Hp|lia|exact Hsub1|cbn; auto..]. }
  case_bool_decide as Hs; [subst arg|].
  { destruct rest as [|v rest']; [done|]. cbn [length] in Hn.
    assert (forall x, x ∈ rest' -> x ∈ "-s" :: v :: rest') as Hsub2
      by (intros; rewrite !elem_of_cons; auto).
    eapply Hstep in Hp; [exact Hp|lia|exact Hsub2|cbn; auto..]. }
  case_bool_decide as He; [|done].
  eapply Hstep in Hp; [exact Hp|lia|exact Hsub1|cbn; auto..].
Qed.

(** X18.  What the command line does not say is not done: when the
    arguments are accepted, the file and the working directory are among
    them, the latter with [-w]; the run is a dry run only if [-n] is
    there, its chunk size is 4096 unless [-s] is there, and it has a mode
    only if [-m] is there. *)
Theorem accepted_command_line argv p :
  parse_args FromString argv = PArgs p ->
  (6 <= length argv)%nat
  /\ devPath p <> EmptyString /\ devPath p ∈ argv
  /\ workdirPath p <> EmptyString /\ workdirPath p ∈ argv /\ "-w" ∈ argv
  /\ (dryRun (args p) = true -> "-n" ∈ argv)
  /\ (chunkSize (args p) <> 4096 -> "-s" ∈ argv)
  /\ (mode (args p) <> MODE_DEFAULT -> "-m" ∈ argv).
Proof.
  unfold parse_args. destruct argv as [|prog rest]; [done|].
  case_bool_decide as Hlen; [done|].
  destruct (parse_loop _ rest _) as [p1| |] eqn:Hloop; try done.
  case_bool_decide as Hdev; [done|]. case_bool_decide as Hwd; [done|].
  intros [= ->].
  destruct (parse_loop_sound _ _ _ _ (Nat.le_refl _) Hloop)
    as (Q1 & Q2 & Q3 & Q4 & Q5).
  cbn [devPath workdirPath args mode dryRun chunkSize] in Q1, Q2, Q3, Q4, Q5.
  destruct Q1 as [Q1|[Q1 Q1']]; [done|]. destruct Q2 as [Q2|Q2]; [done|].
  split; [lia|]. split; [done|]. split; [by apply elem_of_cons; right|].
  split; [done|]. split; [by apply elem_of_cons; right|].
  split; [by apply elem_of_cons; right|].
  split; [|split].
  - intros Ht. destruct Q4 as [Q4|Q4]; [congruence|]. by apply elem_of_cons; right.
  - intros Ht. destruct Q5 as [Q5|Q5]; [done|]. by apply elem_of_cons; right.
  - intros Ht. destruct Q3 as [Q3|Q3]; [done|]. by apply elem_of_cons; right.
Qed.

End CommandLineFacts.

(** * The program on concrete inputs *)

(** The sample cipher is a permutation of the 16-byte blocks. *)
Lemma toyE_length k b : length b = 16%nat -> length (toyE k b) = 16%nat.
Proof. intros H. unfold toyE. by rewrite length_fmap, length_reverse. Qed.

Lemma toyD_toyE k b : length b = 16%nat -> toyD k (toyE k b) = b.
Proof.
  intros _. unfold toyD, toyE.
  rewrite <- list_fmap_compose, (list_fmap_ext _ id (reverse b)).
  - by rewrite list_fmap_id, reverse_involutive.
  - intros i x _. cbn.
    by rewrite Z.lxor_assoc, Z.lxor_nilpotent, Z.lxor_0_r.
Qed.

(** ** Kill and resume *)

Lemma resume_restarts_chain_sample :
  exists c0, (c0 = replicate 16 1 \/ c0 = replicate 16 2) /\
    let a := mkArgs MODE_ENCRYPT false 16 in
    let d := c0 ++ replicate 16 1 in
    dev (state_of (run toyE toyD toy_rnd true a None d ∅))
    = first_block toyE toy_rnd c0 ++ chained_block toyE toy_rnd c0 (replicate 16 1)
    /\ forall k, k ∈ [17; 19; 21]%nat ->
         (runs toyE toyD toy_rnd true [(a, Some k); (a, None)] d ∅).1
         = first_block toyE toy_rnd c0 ++ restarted_block toyE toy_rnd (replicate 16 1)
         /\ (runs toyE toyD toy_rnd true [(a, Some k); (a, None)] d ∅).1
            <> dev (state_of (run toyE toyD toy_rnd true a None d ∅)).
Proof.
  exact (resume_restarts_chain toyE toyD toy_rnd true toyE_length toyD_toyE).
Defined.

(** ** Encrypt, then decrypt *)

Lemma encrypt_then_decrypt_sample :
  let d := replicate 16 7 ++ replicate 16 0 in
  let r1 := run toyE toyD toy_rnd true (mkArgs MODE_ENCRYPT false 16) None d ∅ in
  let r2 := run toyE toyD toy_rnd true (mkArgs MODE_DECRYPT false 16) None
              (dev (state_of r1)) (wd (state_of r1)) in
  outcome_of r1 = Some (Exit 0) /\ outcome_of r2 = Some (Exit 0)
  /\ dev (state_of r2) = d.
Proof.
  apply (encrypt_then_decrypt toyE toyD toy_rnd true toyE_length toyD_toyE 2 16).
  - repeat constructor.
  - repeat constructor.
  - reflexivity.
Defined.

(** ** Sparse chunks *)

Lemma zero_chunks_bypass_cipher_sample :
  let chunks := [replicate 16 7; replicate 16 0] in
  let r1 := run toyE toyD toy_rnd true (mkArgs MODE_ENCRYPT false 16) None
              (concat chunks) ∅ in
  let r2 := run toyE toyD toy_rnd true (mkArgs MODE_DECRYPT false 16) None
              (dev (state_of r1)) (wd (state_of r1)) in
  chunks !! 1%nat = Some (replicate 16 0)
  /\ (EvCipherUpdate 16 ∉ trace (state_of r1))
  /\ take 16 (drop 16 (dev (state_of r1))) = replicate 16 0
  /\ EvAppend (sparsePath MODE_ENCRYPT) (hton 16) ∈ trace (state_of r1)
  /\ (EvCipherUpdate 16 ∉ trace (state_of r2))
  /\ take 16 (drop 16 (dev (state_of r2))) = replicate 16 0.
Proof.
  intros chunks r1 r2. split; [reflexivity|].
  destruct (zero_chunks_bypass_cipher toyE toyD toy_rnd true toyE_length toyD_toyE
              16 (replicate 16 0) eq_refl)
    as (_ & _ & _ & Hrun).
  destruct (Hrun 1%nat chunks 1%nat)
    as (H1 & _ & H2 & H3 & _ & H4 & _ & H5);
    [lia | reflexivity | repeat constructor | vm_compute; reflexivity
    | reflexivity |].
  repeat split; assumption.
Defined.

(** ** Dry runs *)

Lemma dry_run_two_chunks_sample :
  let d := replicate 16 1 ++ replicate 16 2 in
  let r := run toyE toyD toy_rnd true (mkArgs MODE_ENCRYPT true 16) None d ∅ in
  outcome_of r = Some (Exit 0)
  /\ dev (state_of r) = d
  /\ wd (state_of r) !! offsetPath MODE_ENCRYPT = Some (hton 32)
  /\ forall o, wd (state_of r) !! tmpPath MODE_ENCRYPT o = None.
Proof.
  apply (dry_run_two_chunks toyE toyD toy_rnd true 16 1
           (replicate 16 1) (replicate 16 2)).
  - lia.
  - reflexivity.
  - reflexivity.
  - reflexivity.
Defined.

(** C4 (as stated).  After an encrypt run with [-n] on a device of two
    chunks the working directory holds the iv, the key, the offset file
    and the sparse file, and no stage file. *)
Lemma dry_run_leaves_no_stage_file :
  let d := replicate 16 1 ++ replicate 16 2 in
  let s := state_of (run toyE toyD toy_rnd true (mkArgs MODE_ENCRYPT true 16)
                       None d ∅) in
  dev s = d
  /\ wd s !! offsetPath MODE_ENCRYPT = Some (hton 32)
  /\ wd s !! tmpPath MODE_ENCRYPT 0 = None
  /\ wd s !! tmpPath MODE_ENCRYPT 16 = None
  /\ EvUnlink (tmpPath MODE_ENCRYPT 0) ∈ trace s
  /\ EvUnlink (tmpPath MODE_ENCRYPT 16) ∈ trace s.
Proof.
  vm_compute. repeat split; try reflexivity; set_solver.
Qed.

(** ** The shortcut of a finished run *)

Lemma already_done_run_sample :
  let a := mkArgs MODE_DECRYPT false 16 in
  let w : gmap string bytes :=
    <[keyPath := replicate 32 0]> (<[ivPath := replicate 16 0]> ∅) in
  let s1 := mkState [] (<[offsetPath MODE_DECRYPT := hton 0]> w)
              ([EvCipherInit] ++ create_events (offsetPath MODE_DECRYPT) (hton 0))
              None in
  let r := run toyE toyD toy_rnd true a None [] w in
  w !! offsetPath MODE_DECRYPT = None
  /\ r = Stop (Exit 0)
           (mkState [] (wd s1) (trace s1 ++ [EvPrint "Already done"]) None)
  /\ EvCipherInit ∈ trace s1
  /\ Forall idle (trace (state_of r)).
Proof.
  intros a w s1 r. split; [reflexivity|].
  destruct (already_done_run toyE toyD toy_rnd true a [] w 0
              (mkCtx (replicate 32 0) (replicate 16 0) []) 0 s1)
    as (H1 & _ & _ & H2 & H3).
  - apply (keys_startup_first toy_rnd a [] w [] (replicate 16 0) (replicate 32 0));
      first [ discriminate | reflexivity ].
  - lia.
  - repeat split; assumption.
Defined.

(** C5 (as stated).  A decrypt run whose offset file holds the size of
    the device initialises the cipher before it prints "Already done". *)
Lemma already_done_after_cipher_init :
  let d := replicate 16 1 in
  let w := <[offsetPath MODE_DECRYPT := hton 16]>
             (<[keyPath := replicate 32 0]> (<[ivPath := replicate 16 0]> ∅)) in
  let s := state_of (run toyE toyD toy_rnd true (mkArgs MODE_DECRYPT false 16)
                       None d w) in
  ntoh (default [] (w !! offsetPath MODE_DECRYPT)) = Z.of_nat (length d)
  /\ trace s = [EvCipherInit; EvPrint "Already done"].
Proof. vm_compute. split; reflexivity. Qed.

(** ** The order of the durable operations *)

Lemma durable_order_sample :
  let a := mkArgs MODE_ENCRYPT false 16 in
  0 <= chunkSize a
  /\ ordered a (trace (state_of (run toyE toyD toy_rnd true a (Some 18%nat)
                                   (replicate 16 1 ++ replicate 16 0) ∅))).
Proof.
  split; [cbn; lia|]. apply durable_order. cbn. lia.
Defined.

(** ** The sparse log across kills *)

Lemma sparse_log_ascending_sample :
  let a := mkArgs MODE_ENCRYPT false 16 in
  (runs toyE toyD toy_rnd true [(a, Some 15%nat); (a, None)] (replicate 16 0) ∅).2
    !! sparsePath MODE_ENCRYPT = Some (hton 0 ++ hton 0)
  /\ consecutive Z.le (sparse_entries (hton 0 ++ hton 0)).
Proof.
  intros a. split; [vm_compute; reflexivity|].
  apply (sparse_log_ascending toyE toyD toy_rnd true
           [(a, Some 15%nat); (a, None)] (replicate 16 0)).
  - vm_compute. reflexivity.
  - repeat constructor; cbn; lia.
  - vm_compute. reflexivity.
Defined.

(** C7 (as stated).  An encrypt run on a device of one chunk of zeros
    that is killed after 15 operations, the fsync of the sparse file, and
    then run again, leaves the offset 0 twice in [enc_sparse]. *)
Lemma sparse_log_repeats_offset :
  let a := mkArgs MODE_ENCRYPT false 16 in
  sparse_entries
    <$> (runs toyE toyD toy_rnd true [(a, Some 15%nat); (a, None)]
           (replicate 16 0) ∅).2 !! sparsePath MODE_ENCRYPT
  = Some [0; 0]
  /\ ~ consecutive Z.lt [0; 0].
Proof.
  split; [vm_compute; reflexivity|].
  intros H. specialize (H 0%nat 0 0 eq_refl eq_refl). lia.
Qed.

(** ** Errors *)

Lemma decrypt_without_keys_sample :
  let d := replicate 16 1 in
  let w : gmap string bytes := <[keyPath := replicate 32 0]> ∅ in
  w !! ivPath = None
  /\ run toyE toyD toy_rnd true (mkArgs MODE_DECRYPT false 16) None d w
     = Stop (Exit 1) (mkState d w [EvPrint "Key and/or iv absent"] None).
Proof.
  intros d w. split; [reflexivity|].
  destruct (decrypt_without_keys toyE toyD toy_rnd true false 16 d w)
    as [(msg & Hrun & Hmsg) _]; [discriminate | left; reflexivity |].
  rewrite Hrun, Hmsg; reflexivity.
Defined.

Lemma decrypt_without_sparse_log_sample :
  let pre := replicate 16 9 in
  let chunks := [replicate 16 1; replicate 16 2] in
  let w : gmap string bytes :=
    <[offsetPath MODE_DECRYPT := hton 16]>
      (<[keyPath := replicate 32 0]> (<[ivPath := replicate 16 0]> ∅)) in
  let r := run toyE toyD toy_rnd false (mkArgs MODE_DECRYPT false 16) None
             (pre ++ concat chunks) w in
  w !! sparsePath MODE_DECRYPT = None
  /\ outcome_of r = Some (Exit 0)
  /\ EvCreate (sparsePath MODE_DECRYPT) ∈ trace (state_of r)
  /\ wd (state_of r) !! sparsePath MODE_DECRYPT = Some []
  /\ forall i, (i < length chunks)%nat ->
       EvCipherUpdate (Z.of_nat (length pre) + Z.of_nat i * 16) ∈ trace (state_of r).
Proof.
  intros pre chunks w r. split; [reflexivity|].
  apply (decrypt_without_sparse_log toyE toyD toy_rnd false false 16 1 pre chunks w
           (replicate 16 0) (replicate 32 0)).
  - lia.
  - reflexivity.
  - repeat constructor.
  - discriminate.
  - reflexivity.
  - vm_compute. reflexivity.
  - reflexivity.
  - reflexivity.
  - reflexivity.
  - reflexivity.
  - right. reflexivity.
  - intros o. unfold w. rewrite !lookup_insert_ne, lookup_empty; [reflexivity|..].
    + apply not_eq_sym, tmp_ne_iv.
    + apply not_eq_sym, tmp_ne_key.
    + apply not_eq_sym, tmp_ne_offset.
  - reflexivity.
Defined.

(** * The further properties on concrete inputs *)

(** ** What a run leaves alone *)

Lemma run_changes_own_files_only_sample :
  let a := mkArgs MODE_ENCRYPT false 16 in
  let w : gmap string bytes := <[offsetPath MODE_DECRYPT := hton 16]> ∅ in
  ~ own_path a (offsetPath MODE_DECRYPT)
  /\ wd (state_of (run toyE toyD toy_rnd true a (Some 20%nat) (replicate 16 1) w))
       !! offsetPath MODE_DECRYPT = Some (hton 16).
Proof.
  intros a w.
  assert (~ own_path a (offsetPath MODE_DECRYPT)) as Hp.
  { intros [[_ [H|H]]|[H|[H|[[o H]|[o H]]]]]; discriminate H. }
  split; [exact Hp|].
  exact (run_changes_own_files_only toyE toyD toy_rnd true a (Some 20%nat)
           (replicate 16 1) w (offsetPath MODE_DECRYPT) Hp).
Defined.

Lemma dry_run_keeps_device_sample :
  let a := mkArgs MODE_ENCRYPT true 16 in
  let d := replicate 16 1 ++ replicate 16 2 in
  dryRun a = true
  /\ dev (state_of (run toyE toyD toy_rnd true a (Some 20%nat) d ∅)) = d.
Proof.
  intros a d. split; [reflexivity|].
  apply dry_run_keeps_device. reflexivity.
Defined.

Lemma existing_keys_kept_sample :
  let a := mkArgs MODE_ENCRYPT false 16 in
  let w : gmap string bytes :=
    <[keyPath := replicate 32 0]> (<[ivPath := replicate 16 0]> ∅) in
  let s := state_of (run toyE toyD toy_rnd true a None (replicate 16 1) w) in
  wd s !! ivPath = Some (replicate 16 0)
  /\ wd s !! keyPath = Some (replicate 32 0).
Proof.
  intros a w s.
  apply (existing_keys_kept toyE toyD toy_rnd true a None (replicate 16 1) w).
  - eexists. reflexivity.
  - eexists. reflexivity.
Defined.

Lemma decrypt_keeps_sparse_log_sample :
  let a := mkArgs MODE_DECRYPT false 16 in
  let w : gmap string bytes :=
    <[sparsePath MODE_DECRYPT := hton 0]>
      (<[keyPath := replicate 32 0]> (<[ivPath := replicate 16 0]> ∅)) in
  wd (state_of (run toyE toyD toy_rnd true a (Some 5%nat) (replicate 16 0) w))
    !! sparsePath MODE_DECRYPT
  = Some (hton 0).
Proof.
  intros a w.
  apply (decrypt_keeps_sparse_log toyE toyD toy_rnd true a (Some 5%nat)
           (replicate 16 0) w).
  - reflexivity.
  - eexists. reflexivity.
Defined.

(** ** Rejected arguments *)

Lemma invalid_arguments_rejected_sample :
  let a := mkArgs MODE_ENCRYPT false 24 in
  chunkSize a mod 16 <> 0
  /\ exists msg,
       run toyE toyD toy_rnd true a None (replicate 48 1) ∅
       = Stop (Exit 1) (mkState (replicate 48 1) ∅ [EvPrint msg] None).
Proof.
  intros a. split; [discriminate|].
  apply invalid_arguments_rejected. right. left. discriminate.
Defined.

(** ** The device and the progress files across runs *)

Lemma device_size_kept_sample :
  let a := mkArgs MODE_ENCRYPT false 16 in
  let d := replicate 16 1 ++ replicate 16 0 in
  length (runs toyE toyD toy_rnd true [(a, Some 18%nat); (a, None)] d ∅).1
  = length d.
Proof.
  intros a d. apply device_size_kept.
  - vm_compute. reflexivity.
  - repeat constructor; cbn; lia.
Defined.

Lemma sparse_entries_bounded_sample :
  let a := mkArgs MODE_ENCRYPT false 16 in
  let w := (runs toyE toyD toy_rnd true [(a, Some 15%nat); (a, None)]
              (replicate 16 0) ∅).2 in
  w !! sparsePath MODE_ENCRYPT = Some (hton 0 ++ hton 0)
  /\ exists v, w !! offsetPath MODE_ENCRYPT = Some (hton v)
               /\ 0 <= v < two64
               /\ Forall (fun e => 0 <= e <= v) (sparse_entries (hton 0 ++ hton 0)).
Proof.
  intros a w. split; [vm_compute; reflexivity|].
  apply (sparse_entries_bounded toyE toyD toy_rnd true
           [(a, Some 15%nat); (a, None)] (replicate 16 0)).
  - vm_compute. reflexivity.
  - repeat constructor; cbn; lia.
  - vm_compute. reflexivity.
  - discriminate.
Defined.

(** ** Running again *)

Lemma completed_run_is_final_sample :
  let a := mkArgs MODE_DECRYPT false 16 in
  let chunks := [replicate 16 1; replicate 16 2] in
  let w : gmap string bytes :=
    <[keyPath := replicate 32 0]> (<[ivPath := replicate 16 0]> ∅) in
  let s1 := state_of (run toyE toyD toy_rnd true a None (concat chunks) w) in
  run toyE toyD toy_rnd true a None (dev s1) (wd s1)
  = Stop (Exit 0)
      (mkState (dev s1) (wd s1) [EvCipherInit; EvPrint "Already done"] None).
Proof.
  intros a chunks w.
  apply (completed_run_is_final toyE toyD toy_rnd true a 1 chunks w
           (replicate 16 0) (replicate 32 0)).
  - discriminate.
  - cbn. lia.
  - reflexivity.
  - repeat constructor.
  - discriminate.
  - vm_compute. reflexivity.
  - reflexivity.
  - reflexivity.
  - reflexivity.
  - reflexivity.
  - reflexivity.
  - intros o. unfold w. rewrite !lookup_insert_ne, lookup_empty; [reflexivity|..].
    + apply not_eq_sym, tmp_ne_iv.
    + apply not_eq_sym, tmp_ne_key.
  - right. split; reflexivity.
Defined.

Lemma dry_run_then_real_run_sample :
  let chunks := [replicate 16 1; replicate 16 2] in
  let s1 := state_of (run toyE toyD toy_rnd true (mkArgs MODE_ENCRYPT true 16)
                        None (concat chunks) ∅) in
  run toyE toyD toy_rnd true (mkArgs MODE_ENCRYPT false 16) None (dev s1) (wd s1)
  = Stop (Exit 0)
      (mkState (concat chunks) (wd s1) [EvCipherInit; EvPrint "Already done"] None).
Proof.
  intros chunks.
  apply (dry_run_then_real_run toyE toyD toy_rnd true 16 1 chunks).
  - lia.
  - reflexivity.
  - repeat constructor.
  - discriminate.
  - vm_compute. reflexivity.
Defined.

(** ** The sparse log and the stream of an uninterrupted run *)

Lemma uninterrupted_sparse_log_sample :
  let chunks := [replicate 16 0; replicate 16 1; replicate 16 0] in
  let s := state_of (run toyE toyD toy_rnd true (mkArgs MODE_ENCRYPT false 16)
                       None (concat chunks) ∅) in
  exists sp, wd s !! sparsePath MODE_ENCRYPT = Some sp
    /\ length sp = (8 * length (sparse_entries sp))%nat
    /\ consecutive Z.lt (sparse_entries sp)
    /\ forall o, o ∈ sparse_entries sp
         <-> exists (i : nat) c, chunks !! i = Some c
                                 /\ c = replicate (length c) 0
                                 /\ o = Z.of_nat i * 16.
Proof.
  intros chunks.
  apply (uninterrupted_sparse_log toyE toyD toy_rnd true false 16 1 chunks).
  - lia.
  - reflexivity.
  - repeat constructor.
  - discriminate.
  - vm_compute. reflexivity.
Defined.

Lemma encrypt_run_is_one_stream_sample :
  let chunks := [replicate 16 1; replicate 16 0; replicate 16 2] in
  let d' := dev (state_of (run toyE toyD toy_rnd true (mkArgs MODE_ENCRYPT false 16)
                             None (concat chunks) ∅)) in
  take 16 d' ++ drop 32 d'
  = (cbc_encrypt toyE 2 (fresh_key toy_rnd) (fresh_iv toy_rnd)
       (replicate 16 1 ++ replicate 16 2)).1.
Proof.
  intros chunks d'.
  exact (encrypt_run_is_one_stream toyE toyD toy_rnd true 16 1 chunks
           (conj eq_refl eq_refl) eq_refl
           ltac:(repeat constructor) ltac:(discriminate)
           ltac:(vm_compute; reflexivity)).
Defined.

(** ** Resuming at a stage file *)

Lemma resume_replays_stage_file_sample :
  let a := mkArgs MODE_ENCRYPT false 16 in
  let blk := replicate 16 9 in
  let w : gmap string bytes :=
    <[tmpPath MODE_ENCRYPT 0 := blk]>
      (<[sparsePath MODE_ENCRYPT := []]>
         (<[offsetPath MODE_ENCRYPT := hton 0]>
            (<[keyPath := replicate 32 0]> (<[ivPath := replicate 16 0]> ∅)))) in
  let res := run toyE toyD toy_rnd true a None
               (replicate 16 1 ++ replicate 16 2) w in
  outcome_of res = Some (Exit 0)
  /\ take 16 (dev (state_of res)) = blk
  /\ wd (state_of res) !! tmpPath MODE_ENCRYPT 0 = None
  /\ (EvCipherUpdate 0 ∉ trace (state_of res))
  /\ [EvCipherInit; EvWrite TDev 0 blk; EvFSync TDev;
      EvWrite (TFile (offsetPath MODE_ENCRYPT)) 0 (hton 16);
      EvFSync (TFile (offsetPath MODE_ENCRYPT));
      EvUnlink (tmpPath MODE_ENCRYPT 0)] `prefix_of` trace (state_of res)
  /\ wd (state_of res) !! offsetPath MODE_ENCRYPT = Some (hton 32).
Proof.
  intros a blk w res.
  destruct (resume_replays_stage_file toyE toyD toy_rnd true a 1 []
              (replicate 16 1) [replicate 16 2] w (replicate 16 0) (replicate 32 0)
              blk [])
    as (H1 & H2 & H3 & H4 & H5 & H6);
    [ discriminate | cbn; lia | reflexivity | reflexivity | reflexivity
    | repeat constructor | vm_compute; reflexivity
    | reflexivity | reflexivity | reflexivity | reflexivity
    | reflexivity | reflexivity | reflexivity | reflexivity | | left; reflexivity | ].
  - intros o Ho. unfold w.
    rewrite lookup_insert_ne
      by (intros H; apply tmp_inj in H; apply Ho; symmetry; exact H).
    rewrite !lookup_insert_ne, lookup_empty; [reflexivity|..].
    + apply not_eq_sym, tmp_ne_iv.
    + apply not_eq_sym, tmp_ne_key.
    + apply not_eq_sym, tmp_ne_offset.
    + apply not_eq_sym, tmp_ne_sparse.
  - split; [exact H1|]. split; [|split; [exact H3|split; [exact H4|split]]].
    + etrans; [exact (f_equal (take 16) H2)|]. vm_compute. reflexivity.
    + exact H5.
    + exact H6.
Defined.

(** ** Files left half-written by a kill *)

Lemma torn_stage_file_stops_run_sample :
  let a := mkArgs MODE_ENCRYPT false 16 in
  let d := replicate 16 1 ++ replicate 16 2 in
  let w := wd (state_of (run toyE toyD toy_rnd true a (Some 15%nat) d ∅)) in
  w !! tmpPath MODE_ENCRYPT 0 = Some []
  /\ run toyE toyD toy_rnd true a None d w
     = Stop (Exit 1)
         (mkState d w [EvCipherInit; EvPrint "Can't load enc_chunk-0"] None).
Proof.
  intros a d w. split; [vm_compute; reflexivity|].
  apply (torn_stage_file_stops_run toyE toyD toy_rnd true a d w
           (fresh_iv toy_rnd) (fresh_key toy_rnd) (hton 0) [] []);
    try (vm_compute; reflexivity); try discriminate.
Defined.

Lemma torn_offset_file_stops_run_sample :
  let a := mkArgs MODE_ENCRYPT false 16 in
  let d := replicate 16 1 in
  let w := wd (state_of (run toyE toyD toy_rnd true a (Some 8%nat) d ∅)) in
  w !! offsetPath MODE_ENCRYPT = Some []
  /\ run toyE toyD toy_rnd true a None d w
     = Stop (Exit 1)
         (mkState d w [EvCipherInit; EvPrint "Can't load offset file"] None).
Proof.
  intros a d w. split; [vm_compute; reflexivity|].
  apply (torn_offset_file_stops_run toyE toyD toy_rnd true a d w
           (fresh_iv toy_rnd) (fresh_key toy_rnd) []);
    try (vm_compute; reflexivity); try discriminate.
Defined.

Lemma wrong_size_keys_stop_run_sample :
  let a := mkArgs MODE_ENCRYPT false 16 in
  let d := replicate 16 1 in
  let w := wd (state_of (run toyE toyD toy_rnd true a (Some 4%nat) d ∅)) in
  w !! keyPath = Some []
  /\ run toyE toyD toy_rnd true a None d w
     = Stop (Exit 1) (mkState d w [EvPrint "Can't load key and/or iv"] None).
Proof.
  intros a d w. split; [vm_compute; reflexivity|].
  apply (wrong_size_keys_stop_run toyE toyD toy_rnd true a d w
           (fresh_iv toy_rnd) []);
    try (vm_compute; reflexivity); try discriminate.
  right. discriminate.
Defined.

(** ** Chunk sizes from 2^31 on *)


(** ** The command line *)

Lemma command_line_parsed_sample :
  parse_args toy_FromString
    ["bdenc"; "-m"; "enc"; "-w"; "/tmp/wd"; "-n"; "-s"; "16"; "/dev/sdb"]
  = PArgs (mkParsed "/dev/sdb" "/tmp/wd" (mkArgs MODE_ENCRYPT true 16)).
Proof.
  apply (command_line_parsed toy_FromString "bdenc" MODE_ENCRYPT "/tmp/wd" true
           (Some "16") "/dev/sdb"); discriminate.
Defined.

Lemma trailing_option_traps_sample :
  parse_args toy_FromString
    ["bdenc"; "-m"; "dec"; "-w"; "/tmp/wd"; "/dev/sdb"; "-s"]
  = PTrap.
Proof.
  apply (trailing_option_traps toy_FromString "bdenc" MODE_DECRYPT "/tmp/wd" false
           None "/dev/sdb" "-s"); try discriminate.
  right. right. reflexivity.
Defined.

Lemma accepted_command_line_sample :
  let argv := ["bdenc"; "-w"; "/tmp/wd"; "/dev/sdb"; "-m"; "enc"] in
  let p := mkParsed "/dev/sdb" "/tmp/wd" (mkArgs MODE_ENCRYPT false 4096) in
  parse_args toy_FromString argv = PArgs p
  /\ "-w" ∈ argv /\ devPath p ∈ argv
  /\ (mode (args p) <> MODE_DEFAULT -> "-m" ∈ argv).
Proof.
  intros argv p. split; [reflexivity|].
  destruct (accepted_command_line toy_FromString argv p eq_refl)
    as (_ & _ & H1 & _ & _ & H2 & _ & _ & H3).
  repeat split; assumption.
Defined.
